(** * CLD-Engine: graph model, topology analyzer, strategies and engine

    A shallow embedding of the TypeScript sources under [src/core]:
    [Graph.ts], [topology/modifiedTopologicalSort.ts], the three strategies
    and [engine/CLDEngine.ts], followed by the properties of the
    specification that were checked against them. *)

From Stdlib Require Import List String Ascii ZArith Lia Bool Arith PeanoNat.
From Stdlib Require Import Relations Permutation Sorted.
Import ListNotations.

Local Open Scope string_scope.
Local Open Scope list_scope.
Local Open Scope nat_scope.

Set Implicit Arguments.
Set Warnings "-register-all".

(** ** Identifiers ([types.ts]) *)

Definition NodeId := string.
Definition PortId := string.

(** ** JavaScript numbers

    Node outputs are JavaScript numbers (IEEE doubles).  The engine only ever
    adds them, subtracts them, takes an absolute value, compares them and
    tests their truthiness, so those operations are kept abstract; every
    definition and theorem below is generic in the instance. *)

Class JSNumber : Type := {
  num : Type;
  num_zero : num;                    (* the literal 0 *)
  num_add : num -> num -> num;       (* a + b *)
  num_sub : num -> num -> num;       (* a - b *)
  num_abs : num -> num;              (* Math.abs(a) *)
  num_geb : num -> num -> bool;      (* a >= b *)
  num_ltb : num -> num -> bool;      (* a < b *)
  num_truthy : num -> bool;          (* neither 0 nor NaN *)
  num_of_nat : nat -> num            (* a non-negative integer literal *)
}.

(** ** Errors and completions

    A call either returns normally or throws.  The messages of the source
    are kept as constructors carrying the identifier they name. *)

Inductive JSError : Type :=
| DuplicateNodeId (id : NodeId)          (* Node with id "..." already exists in graph *)
| NodeNotFoundInGraph (id : NodeId)      (* Node "..." not found in graph *)
| NodeNotInOrder (id : NodeId)           (* Node "..." not found in execution order *)
| SourceNotInOrder (id : NodeId)         (* Source node "..." not found in execution order *)
| ConfigError (msg : string)             (* constructor argument rejected *)
| TypeErrorNullToObject.                 (* Object.entries(null) *)

Inductive Completion (A : Type) : Type :=
| Normal (a : A)
| Throw (e : JSError).

Arguments Normal {A} a.
Arguments Throw {A} e.

Definition bindC {A B : Type} (c : Completion A) (k : A -> Completion B)
  : Completion B :=
  match c with
  | Normal a => k a
  | Throw e => Throw e
  end.

Notation "x <- c ;; k" := (bindC c (fun x => k))
  (at level 61, c at next level, right associativity).

Definition error_id (e : JSError) : option NodeId :=
  match e with
  | DuplicateNodeId i | NodeNotFoundInGraph i
  | NodeNotInOrder i | SourceNotInOrder i => Some i
  | ConfigError _ | TypeErrorNullToObject => None
  end.

(** ** Insertion-ordered maps

    A JavaScript [Map] (and a plain object used as a record) iterates in
    insertion order and [set] on an existing key keeps the key's position.
    Both are modelled as association lists. *)

Definition JSMap (V : Type) : Type := list (string * V).

Section JSMapOps.
Context {V : Type}.

Fixpoint map_get (k : string) (m : JSMap V) : option V :=
    match m with
    | [] => None
    | (k', v) :: rest => if String.eqb k' k then Some v else map_get k rest
    end.

Definition map_has (k : string) (m : JSMap V) : bool :=
    match map_get k m with Some _ => true | None => false end.

Fixpoint map_set (k : string) (v : V) (m : JSMap V) : JSMap V :=
    match m with
    | [] => [(k, v)]
    | (k', v') :: rest =>
        if String.eqb k' k then (k', v) :: rest
        else (k', v') :: map_set k v rest
    end.

Definition map_keys (m : JSMap V) : list string := map fst m.
Definition map_size (m : JSMap V) : nat := List.length m.
End JSMapOps.

(** Maps keyed by component numbers ([Map<number, ...>]) and insertion-ordered
    sets of component numbers ([Set<number>]). *)

Definition NMap (V : Type) : Type := list (nat * V).

Section NMapOps.
Context {V : Type}.

Fixpoint nmap_get (k : nat) (m : NMap V) : option V :=
    match m with
    | [] => None
    | (k', v) :: rest => if Nat.eqb k' k then Some v else nmap_get k rest
    end.

Fixpoint nmap_set (k : nat) (v : V) (m : NMap V) : NMap V :=
    match m with
    | [] => [(k, v)]
    | (k', v') :: rest =>
        if Nat.eqb k' k then (k', v) :: rest
        else (k', v') :: nmap_set k v rest
    end.
End NMapOps.

Definition set_add (x : nat) (s : list nat) : list nat :=
  if existsb (Nat.eqb x) s then s else s ++ [x].

(** ** JavaScript values returned by nodes

    [calculate] is typed [any]: the model covers [undefined], [null],
    booleans, numbers, strings and plain objects, an object being the list
    of its own enumerable properties in [Object.entries] order. *)

Section Model.
Context {N : JSNumber}.

Inductive JSValue : Type :=
  | VUndefined
  | VNull
  | VBool (b : bool)
  | VNum (n : num)
  | VStr (s : string)
  | VObj (fields : list (string * JSValue)).

  (** [if (v)] *)
Definition js_truthy (v : JSValue) : bool :=
    match v with
    | VUndefined | VNull => false
    | VBool b => b
    | VNum n => num_truthy n
    | VStr s => negb (String.eqb s "")
    | VObj _ => true
    end.

  (** [typeof v === "object"] (true of [null]) *)
Definition js_typeof_object (v : JSValue) : bool :=
    match v with
    | VNull | VObj _ => true
    | _ => false
    end.

  (** [const x = v[key]; typeof x === "number"] and the number read.
      Inherited members are functions, never numbers; the only numeric
      property of a primitive is the [length] of a string. *)
Definition js_get_number (v : JSValue) (key : string) : option num :=
    match v with
    | VObj fields =>
        match map_get key fields with
        | Some (VNum n) => Some n
        | _ => None
        end
    | VStr s =>
        if String.eqb key "length" then Some (num_of_nat (String.length s))
        else None
    | _ => None
    end.

  (** ** Ports, edges, nodes ([Port.ts], [Edge.ts], [Node.ts]) *)

Inductive PortKind : Type := input | output.

Record PortDescriptor : Type := {
    port_id : PortId;
    port_name : string;
    port_kind : PortKind
  }.

Record Edge : Type := {
    edge_id : string;
    fromNodeId : NodeId;
    fromPortId : PortId;
    toNodeId : NodeId;
    toPortId : PortId
  }.

  (** What an own key of the record handed to [calculate] holds.  The
      record starts as the plain object [{}], so a name is looked up through
      [Object.prototype]: a name that first reads as [undefined] is set to 0
      and holds the sum of what is added to it; a name that first reads as a
      member of the prototype holds a text, that of the value [{}[member]]
      followed by those of the numbers added, in the order they were
      added. *)
Inductive InputValue : Type :=
  | InNumber (sum : num)
  | InText (member : string) (appended : list num).

  (** The record handed to [calculate]: the own keys of [inputValues], in
      the order they were created. *)
Definition InputRecord : Type := JSMap InputValue.

  (** [calculate(inputValues, ctx)] may read [ctx.nodeId], [ctx.iteration]
      and [ctx.getState()], and may call [ctx.setState]; it returns the
      output value and the last state passed to [setState], if any.  Nodes
      are taken to be pure otherwise, as the node contract requires. *)
Record NodeDefinition : Type := {
    node_id : NodeId;
    node_type : string;
    node_state : JSValue;
    inputs : list (string * PortDescriptor);
    outputs : list (string * PortDescriptor);
    calculate : InputRecord -> NodeId -> nat -> JSValue
                -> JSValue * option JSValue
  }.

  (** ** Graphs ([Graph.ts]) *)

Record Graph : Type := {
    nodes : JSMap NodeDefinition;
    edges : list Edge
  }.

  (** *** Graph helpers over an explicit store

      [addNode] copies the node map and mutates the copy, [addEdge] shares
      the node map of its argument.  To state that no existing object is
      changed, maps and arrays live in a store and a graph object holds two
      references. *)

Record Heap : Type := {
    heap_maps : list (JSMap NodeDefinition);
    heap_arrays : list (list Edge)
  }.

Record GraphRef : Type := {
    nodes_ref : nat;
    edges_ref : nat
  }.

Definition read_map (h : Heap) (l : nat) : option (JSMap NodeDefinition) :=
    nth_error (heap_maps h) l.

Definition read_array (h : Heap) (l : nat) : option (list Edge) :=
    nth_error (heap_arrays h) l.

Definition alloc_map (h : Heap) (m : JSMap NodeDefinition) : Heap * nat :=
    ({| heap_maps := heap_maps h ++ [m]; heap_arrays := heap_arrays h |},
     List.length (heap_maps h)).

Definition alloc_array (h : Heap) (a : list Edge) : Heap * nat :=
    ({| heap_maps := heap_maps h; heap_arrays := heap_arrays h ++ [a] |},
     List.length (heap_arrays h)).

Fixpoint list_update {A : Type} (l : list A) (i : nat) (a : A) : list A :=
    match l, i with
    | [], _ => []
    | _ :: t, O => a :: t
    | x :: t, S j => x :: list_update t j a
    end.

  (** [m.set(k, v)] on the map stored at [l] *)
Definition store_map_set (h : Heap) (l : nat) (k : string)
      (v : NodeDefinition) : Heap :=
    match read_map h l with
    | Some m => {| heap_maps := list_update (heap_maps h) l (map_set k v m);
                   heap_arrays := heap_arrays h |}
    | None => h
    end.

  (** The graph value a reference denotes. *)
Definition deref (h : Heap) (g : GraphRef) : option Graph :=
    match read_map h (nodes_ref g), read_array h (edges_ref g) with
    | Some m, Some a => Some {| nodes := m; edges := a |}
    | _, _ => None
    end.

Definition valid_ref (h : Heap) (g : GraphRef) : Prop :=
    nodes_ref g < List.length (heap_maps h)
    /\ edges_ref g < List.length (heap_arrays h).

Definition createGraph (h : Heap) : Heap * GraphRef :=
    let '(h1, m) := alloc_map h [] in
    let '(h2, a) := alloc_array h1 [] in
    (h2, {| nodes_ref := m; edges_ref := a |}).

Definition addNode (h : Heap) (graph : GraphRef) (node : NodeDefinition)
    : Heap * Completion GraphRef :=
    match read_map h (nodes_ref graph), read_array h (edges_ref graph) with
    | Some gnodes, Some gedges =>
        (* const nextNodes = new Map(graph.nodes); *)
        let '(h1, nextNodes) := alloc_map h gnodes in
        if map_has (node_id node) gnodes then
          (h1, Throw (DuplicateNodeId (node_id node)))
        else
          (* nextNodes.set(node.id, node); *)
          let h2 := store_map_set h1 nextNodes (node_id node) node in
          (* edges: graph.edges.slice() *)
          let '(h3, nextEdges) := alloc_array h2 gedges in
          (h3, Normal {| nodes_ref := nextNodes; edges_ref := nextEdges |})
    | _, _ => (h, Throw (ConfigError "dangling reference"))
    end.

Definition addEdge (h : Heap) (graph : GraphRef) (edge : Edge)
    : Heap * GraphRef :=
    match read_array h (edges_ref graph) with
    | Some gedges =>
        (* nodes: graph.nodes, edges: [...graph.edges, edge] *)
        let '(h1, nextEdges) := alloc_array h (gedges ++ [edge]) in
        (h1, {| nodes_ref := nodes_ref graph; edges_ref := nextEdges |})
    | None => (h, graph)
    end.

  (** The same helpers on graph values, for building graphs to run. *)
Definition emptyGraph : Graph := {| nodes := []; edges := [] |}.

Definition addNodeV (graph : Graph) (node : NodeDefinition)
    : Completion Graph :=
    if map_has (node_id node) (nodes graph) then
      Throw (DuplicateNodeId (node_id node))
    else
      Normal {| nodes := map_set (node_id node) node (nodes graph);
                edges := edges graph |}.

Definition addEdgeV (graph : Graph) (edge : Edge) : Graph :=
    {| nodes := nodes graph; edges := edges graph ++ [edge] |}.


  (** ** Topology analyzer ([topology/modifiedTopologicalSort.ts]) *)

Definition getSuccessors (graph : Graph) (nodeId : NodeId) : list NodeId :=
    map toNodeId
        (filter (fun edge => String.eqb (fromNodeId edge) nodeId) (edges graph)).

  (** The bookkeeping object kept per node ([index] and [lowLink] start
      at -1). *)
Record NodeData : Type := {
    nd_index : Z;
    nd_lowLink : Z;
    nd_onStack : bool
  }.

  (** The variables [strongConnect] closes over.  The head of [stack] is the
      top of the array, [sccs] grows at its end. *)
Record TarjanState : Type := {
    index : Z;
    stack : list NodeId;
    nodeData : JSMap NodeData;
    sccs : list (list NodeId)
  }.

Definition with_nodeData (st : TarjanState) (nd : JSMap NodeData)
    : TarjanState :=
    {| index := index st; stack := stack st; nodeData := nd; sccs := sccs st |}.

  (** [nodeData.get(id)!.field = ...] *)
Definition nd_modify (id : NodeId) (f : NodeData -> NodeData)
      (nd : JSMap NodeData) : JSMap NodeData :=
    match map_get id nd with
    | Some d => map_set id (f d) nd
    | None => nd
    end.

Definition set_onStack (b : bool) (d : NodeData) : NodeData :=
    {| nd_index := nd_index d; nd_lowLink := nd_lowLink d; nd_onStack := b |}.

  (** [node.lowLink = Math.min(node.lowLink, x)] *)
Definition lower_lowLink (x : Z) (d : NodeData) : NodeData :=
    {| nd_index := nd_index d; nd_lowLink := Z.min (nd_lowLink d) x;
       nd_onStack := nd_onStack d |}.

  (** [if (w)] on a string: the empty string is falsy. *)
Definition string_truthy (w : string) : bool := negb (String.eqb w "").

  (** The [do { w = stack.pop(); if (w) {...} } while (w !== nodeId)] loop.
      On an exhausted stack [pop] returns [undefined] for ever and the loop
      does not end: [None]. *)
Fixpoint popScc (nodeId : NodeId) (stk : list NodeId)
      (nd : JSMap NodeData) (scc : list NodeId)
    : option (list NodeId * JSMap NodeData * list NodeId) :=
    match stk with
    | [] => None
    | w :: rest =>
        let nd' := if string_truthy w then nd_modify w (set_onStack false) nd
                   else nd in
        let scc' := if string_truthy w then scc ++ [w] else scc in
        if String.eqb w nodeId then Some (rest, nd', scc')
        else popScc nodeId rest nd' scc'
    end.

  (** The [for (const successorId of successors)] loop of [strongConnect];
      [rec] is the recursive call. *)
Fixpoint visitSuccessors (rec : NodeId -> TarjanState -> option TarjanState)
      (nodeId : NodeId) (successors : list NodeId) (st : TarjanState)
    : option TarjanState :=
    match successors with
    | [] => Some st
    | successorId :: rest =>
        match map_get successorId (nodeData st) with
        | None => visitSuccessors rec nodeId rest st
        | Some successor =>
            if (nd_index successor =? -1)%Z then
              match rec successorId st with
              | None => None
              | Some st' =>
                  let low :=
                    match map_get successorId (nodeData st') with
                    | Some s' => nd_lowLink s'
                    | None => nd_lowLink successor
                    end in
                  visitSuccessors rec nodeId rest
                    (with_nodeData st'
                       (nd_modify nodeId (lower_lowLink low) (nodeData st')))
              end
            else if nd_onStack successor then
              visitSuccessors rec nodeId rest
                (with_nodeData st
                   (nd_modify nodeId (lower_lowLink (nd_index successor))
                      (nodeData st)))
            else visitSuccessors rec nodeId rest st
        end
    end.

  (** [strongConnect]; [fuel] bounds the recursion depth, [None] stands for
      a call that does not return. *)
Fixpoint strongConnect (fuel : nat) (graph : Graph) (nodeId : NodeId)
      (st : TarjanState) : option TarjanState :=
    match fuel with
    | O => None
    | S fuel' =>
        match map_get nodeId (nodeData st) with
        | None => None
        | Some _ =>
            let st1 :=
              {| index := (index st + 1)%Z;
                 stack := nodeId :: stack st;
                 nodeData :=
                   map_set nodeId
                     {| nd_index := index st; nd_lowLink := index st;
                        nd_onStack := true |} (nodeData st);
                 sccs := sccs st |} in
            match visitSuccessors (strongConnect fuel' graph) nodeId
                    (getSuccessors graph nodeId) st1 with
            | None => None
            | Some st2 =>
                match map_get nodeId (nodeData st2) with
                | None => None
                | Some node =>
                    if (nd_lowLink node =? nd_index node)%Z then
                      match popScc nodeId (stack st2) (nodeData st2) [] with
                      | None => None
                      | Some (stk, nd, scc) =>
                          Some {| index := index st2; stack := stk;
                                  nodeData := nd;
                                  sccs := sccs st2 ++ [scc] |}
                      end
                    else Some st2
                end
            end
        end
    end.

  (** The [for (const nodeId of graph.nodes.keys())] loop running Tarjan. *)
Fixpoint runTarjan (fuel : nat) (graph : Graph) (ids : list NodeId)
      (st : TarjanState) : option TarjanState :=
    match ids with
    | [] => Some st
    | nodeId :: rest =>
        match map_get nodeId (nodeData st) with
        | None => None
        | Some node =>
            if (nd_index node =? -1)%Z then
              match strongConnect fuel graph nodeId st with
              | None => None
              | Some st' => runTarjan fuel graph rest st'
              end
            else runTarjan fuel graph rest st
        end
    end.

Definition initNodeData (graph : Graph) : JSMap NodeData :=
    fold_left
      (fun nd nodeId =>
         map_set nodeId
           {| nd_index := -1; nd_lowLink := -1; nd_onStack := false |} nd)
      (map_keys (nodes graph)) [].

Definition findSCCs (graph : Graph) : option (list (list NodeId)) :=
    let st0 := {| index := 0; stack := []; nodeData := initNodeData graph;
                  sccs := [] |} in
    match runTarjan (List.length (nodes graph)) graph
            (map_keys (nodes graph)) st0 with
    | Some st => Some (sccs st)
    | None => None
    end.


  (** [buildComponentGraph]: first the [sccs.forEach] pass that numbers the
      components, then the pass over the edges. *)
Definition numberComponents (sccs : list (list NodeId))
    : NMap (list nat) * JSMap nat :=
    fold_left
      (fun (acc : NMap (list nat) * JSMap nat) (entry : nat * list NodeId) =>
         let '(componentGraph, nodeToComponent) := acc in
         let '(componentId, scc) := entry in
         (nmap_set componentId [] componentGraph,
          fold_left (fun m nodeId => map_set nodeId componentId m)
                    scc nodeToComponent))
      (combine (seq 0 (List.length sccs)) sccs) ([], []).

Definition addComponentEdge (nodeToComponent : JSMap nat)
      (componentGraph : NMap (list nat)) (edge : Edge) : NMap (list nat) :=
    match map_get (fromNodeId edge) nodeToComponent,
          map_get (toNodeId edge) nodeToComponent with
    | Some fromComponent, Some toComponent =>
        if Nat.eqb fromComponent toComponent then componentGraph
        else
          match nmap_get fromComponent componentGraph with
          | Some successors =>
              nmap_set fromComponent (set_add toComponent successors)
                       componentGraph
          | None => componentGraph
          end
    | _, _ => componentGraph
    end.

Definition buildComponentGraph (sccs : list (list NodeId)) (graph : Graph)
    : NMap (list nat) :=
    let '(componentGraph, nodeToComponent) := numberComponents sccs in
    fold_left (addComponentEdge nodeToComponent) (edges graph) componentGraph.

  (** [inDegree.get(c) || 0] *)
Definition degree_or_0 (c : nat) (inDegree : NMap Z) : Z :=
    match nmap_get c inDegree with Some d => d | None => 0%Z end.

Definition countInDegrees (componentGraph : NMap (list nat)) : NMap Z :=
    let zeros :=
      fold_left (fun m (entry : nat * list nat) => nmap_set (fst entry) 0%Z m)
                componentGraph [] in
    fold_left
      (fun m (entry : nat * list nat) =>
         fold_left
           (fun m' successor =>
              nmap_set successor (degree_or_0 successor m' + 1)%Z m')
           (snd entry) m)
      componentGraph zeros.

  (** One round of the inner [for (const successor of successors)] loop of
      Kahn's algorithm, on the pair (in-degrees, queue). *)
Definition relaxSuccessor (acc : NMap Z * list nat) (successor : nat)
    : NMap Z * list nat :=
    let '(inDegree, queue) := acc in
    let newDegree := (degree_or_0 successor inDegree - 1)%Z in
    (nmap_set successor newDegree inDegree,
     if (newDegree =? 0)%Z then queue ++ [successor] else queue).

  (** The [while (queue.length > 0)] loop; one unit of [fuel] per round. *)
Fixpoint kahnLoop (fuel : nat) (componentGraph : NMap (list nat))
      (queue : list nat) (inDegree : NMap Z) (result : list nat)
    : option (list nat) :=
    match queue with
    | [] => Some result
    | component :: queue' =>
        match fuel with
        | O => None
        | S fuel' =>
            let successors :=
              match nmap_get component componentGraph with
              | Some s => s
              | None => []
              end in
            let '(inDegree', queue'') :=
              fold_left relaxSuccessor successors (inDegree, queue') in
            kahnLoop fuel' componentGraph queue'' inDegree'
                     (result ++ [component])
        end
    end.

Definition topologicalSortComponents (componentGraph : NMap (list nat))
    : option (list nat) :=
    let inDegree := countInDegrees componentGraph in
    let queue :=
      map fst (filter (fun entry : nat * Z => (snd entry =? 0)%Z) inDegree) in
    kahnLoop (List.length componentGraph) componentGraph queue inDegree [].

Definition flattenComponents (sccs : list (list NodeId))
      (componentOrder : list nat) : list NodeId :=
    flat_map
      (fun componentId =>
         match nth_error sccs componentId with
         | Some scc => scc
         | None => []
         end)
      componentOrder.

Definition modifiedTopologicalSort (graph : Graph) : option (list NodeId) :=
    match findSCCs graph with
    | None => None
    | Some sccs =>
        match topologicalSortComponents (buildComponentGraph sccs graph) with
        | None => None
        | Some componentOrder => Some (flattenComponents sccs componentOrder)
        end
    end.


  (** ** Execution strategies ([IExecutionStrategy.ts] and implementations)

      [Results] is the [Map<NodeId, any>] of one iteration.  Only
      [shouldContinue] keeps state between calls in the sources, so only it
      threads a strategy state.  [determineExecutionOrder] yields [None]
      when the call does not return.

      The engine calls [determineExecutionOrder] and [getBackEdgeValues]
      anew in every iteration.  The record gives both as functions of their
      arguments, which is what the three classes of the sources implement
      ([SinglePassStrategy], [MultiPassStrategy], [ConvergenceStrategy]);
      an object that answers the same question differently from one call
      to the next is outside this record, and statements about the
      iterations of [execute] are made for the three classes only. *)

Definition Results : Type := JSMap JSValue.

Record IExecutionStrategy : Type := {
    strategy_state : Type;
    determineExecutionOrder : Graph -> option (list NodeId);
    shouldContinue : strategy_state -> nat -> Results
                     -> Completion (bool * strategy_state);
    getBackEdgeValues : nat -> option Results -> JSMap num
  }.

  (** The scan shared, as duplicated code, by the multi-pass and the
      convergence strategy: every numeric field of every output object. *)
Definition scanFields (nodeId : NodeId) (fields : list (string * JSValue))
      (backEdgeValues : JSMap num) : JSMap num :=
    fold_left
      (fun acc (entry : string * JSValue) =>
         match snd entry with
         | VNum value => map_set (nodeId ++ "." ++ fst entry)%string value acc
         | _ => acc
         end)
      fields backEdgeValues.

Definition scanResults (previousResults : Results) : JSMap num :=
    fold_left
      (fun acc (entry : NodeId * JSValue) =>
         match snd entry with
         | VObj fields => scanFields (fst entry) fields acc
         | _ => acc
         end)
      previousResults [].

  (** *** SinglePassStrategy *)

Definition SinglePassStrategy_shouldContinue (iteration : nat)
      (results : Results) : bool :=
    iteration <? 1.

Definition SinglePassStrategy_getBackEdgeValues (iteration : nat)
      (previousResults : option Results) : JSMap num := [].

Definition SinglePassStrategy : IExecutionStrategy := {|
    strategy_state := unit;
    determineExecutionOrder := modifiedTopologicalSort;
    shouldContinue := fun s iteration results =>
      Normal (SinglePassStrategy_shouldContinue iteration results, s);
    getBackEdgeValues := SinglePassStrategy_getBackEdgeValues
  |}.

  (** *** MultiPassStrategy *)

Definition MultiPassStrategy_new (maxIterations : nat) : Completion nat :=
    if maxIterations <? 1
    then Throw (ConfigError "maxIterations must be at least 1")
    else Normal maxIterations.

Definition MultiPassStrategy_shouldContinue (maxIterations iteration : nat)
      (results : Results) : bool :=
    iteration <? maxIterations.

Definition MultiPassStrategy_getBackEdgeValues (iteration : nat)
      (previousResults : option Results) : JSMap num :=
    if iteration =? 1 then []
    else
      match previousResults with
      | None => []
      | Some previous => scanResults previous
      end.

Definition MultiPassStrategy (maxIterations : nat) : IExecutionStrategy := {|
    strategy_state := unit;
    determineExecutionOrder := modifiedTopologicalSort;
    shouldContinue := fun s iteration results =>
      Normal (MultiPassStrategy_shouldContinue maxIterations iteration results,
              s);
    getBackEdgeValues := MultiPassStrategy_getBackEdgeValues
  |}.

  (** *** ConvergenceStrategy *)

Definition ConvergenceStrategy_new (threshold : num) (maxIterations : nat)
    : Completion (num * nat) :=
    if num_ltb threshold num_zero
    then Throw (ConfigError "threshold must be non-negative")
    else if maxIterations <? 1
    then Throw (ConfigError "maxIterations must be at least 1")
    else Normal (threshold, maxIterations).

  (** The loop over [Object.entries(currentOutputs)]: [false] as soon as a
      numeric field moved by [threshold] or more, or has no numeric
      counterpart. *)
Fixpoint fieldsConverged (threshold : num)
      (entries : list (string * JSValue)) (previousOutputs : JSValue) : bool :=
    match entries with
    | [] => true
    | (portId, VNum currentValue) :: rest =>
        match js_get_number previousOutputs portId with
        | Some previousValue =>
            if num_geb (num_abs (num_sub currentValue previousValue)) threshold
            then false
            else fieldsConverged threshold rest previousOutputs
        | None => false
        end
    | _ :: rest => fieldsConverged threshold rest previousOutputs
    end.

  (** The loop over the entries of [current]. *)
Fixpoint nodesConverged (threshold : num) (previous : Results)
      (entries : list (NodeId * JSValue)) : Completion bool :=
    match entries with
    | [] => Normal true
    | (nodeId, currentOutputs) :: rest =>
        match map_get nodeId previous with
        | None => Normal false
        | Some previousOutputs =>
            if negb (js_truthy previousOutputs) then Normal false
            else if js_typeof_object currentOutputs
                    && js_typeof_object previousOutputs then
              match currentOutputs with
              | VObj fields =>
                  if fieldsConverged threshold fields previousOutputs
                  then nodesConverged threshold previous rest
                  else Normal false
              | _ => Throw TypeErrorNullToObject
              end
            else Normal false
        end
    end.

Definition checkConvergence (threshold : num) (previous current : Results)
    : Completion bool :=
    converged <- nodesConverged threshold previous current ;;
    if negb converged then Normal false
    else if negb (map_size previous =? map_size current) then Normal false
    else Normal true.

Definition ConvergenceStrategy_shouldContinue (threshold : num)
      (maxIterations : nat) (previousResults : option Results)
      (iteration : nat) (results : Results)
    : Completion (bool * option Results) :=
    if maxIterations <=? iteration then Normal (false, previousResults)
    else
      match previousResults with
      | None => Normal (true, Some results)
      | Some previous =>
          hasConverged <- checkConvergence threshold previous results ;;
          Normal (negb hasConverged, Some results)
      end.

Definition ConvergenceStrategy_getBackEdgeValues (iteration : nat)
      (previousResults : option Results) : JSMap num :=
    if iteration =? 1 then []
    else
      match previousResults with
      | None => []
      | Some previous => scanResults previous
      end.

Definition ConvergenceStrategy (threshold : num) (maxIterations : nat)
    : IExecutionStrategy := {|
    strategy_state := option Results;
    determineExecutionOrder := modifiedTopologicalSort;
    shouldContinue := ConvergenceStrategy_shouldContinue threshold maxIterations;
    getBackEdgeValues := ConvergenceStrategy_getBackEdgeValues
  |}.

  (** ** Execution engine ([engine/CLDEngine.ts]) *)

Record ExecutionResult : Type := {
    result_state : JSMap JSValue;
    result_outputs : Results;
    iterations : nat
  }.

  (** [Object.values(ports).find((port) => port.id === portId)] *)
Definition findPort (ports : list (string * PortDescriptor))
      (portId : PortId) : option PortDescriptor :=
    find (fun port => String.eqb (port_id port) portId) (map snd ports).

  (** [order.indexOf(x)], -1 when absent *)
Fixpoint indexOf_from (order : list NodeId) (x : NodeId) (i : Z) : Z :=
    match order with
    | [] => (-1)%Z
    | y :: rest =>
        if String.eqb y x then i else indexOf_from rest x (i + 1)%Z
    end.

Definition indexOf (order : list NodeId) (x : NodeId) : Z :=
    indexOf_from order x 0%Z.

Definition backEdgeKey (edge : Edge) : string :=
    (fromNodeId edge ++ "." ++ fromPortId edge)%string.

  (** The value one incoming edge contributes: the body of the loop of
      [gatherInputs] from [isBackEdge] to [edgeValue]. *)
Definition resolveEdge (graph : Graph) (currentOutputs : Results)
      (backEdgeValues : JSMap num) (currentNodeIndex sourceNodeIndex : Z)
      (edge : Edge) : num :=
    let isBackEdge := (sourceNodeIndex >? currentNodeIndex)%Z in
    if isBackEdge then
      match map_get (backEdgeKey edge) backEdgeValues with
      | Some v => v
      | None => num_zero
      end
    else
      match map_get (fromNodeId edge) currentOutputs with
      | Some sourceOutputs =>
          if js_truthy sourceOutputs then
            match map_get (fromNodeId edge) (nodes graph) with
            | Some sourceNode =>
                match findPort (outputs sourceNode) (fromPortId edge) with
                | Some outputPort =>
                    match js_get_number sourceOutputs (port_name outputPort)
                    with
                    | Some outputValue => outputValue
                    | None => num_zero
                    end
                | None => num_zero
                end
            | None => num_zero
            end
          else num_zero
      | None => num_zero
      end.

  (** The names [Object.prototype] defines.  Read through a plain object
      without own key of that name, each gives an inherited value and not
      [undefined]: a function, or for [__proto__] the prototype itself. *)
Definition on_prototype (name : string) : bool :=
    existsb (String.eqb name)
      ["constructor"; "__defineGetter__"; "__defineSetter__";
       "hasOwnProperty"; "__lookupGetter__"; "__lookupSetter__";
       "isPrototypeOf"; "propertyIsEnumerable"; "toString"; "valueOf";
       "__proto__"; "toLocaleString"]%string.

  (** [__proto__] is an accessor of [Object.prototype]: assigning a number
      or a text to it through a plain object creates no own key. *)
Definition proto_accessor (name : string) : bool :=
    String.eqb name "__proto__".

  (** What [inputValues[name]] reads. *)
Inductive InputRead : Type :=
  | ReadUndefined
  | ReadOwn (v : InputValue)
  | ReadInherited (member : string).

Definition readInput (name : string) (inputValues : InputRecord)
    : InputRead :=
    match map_get name inputValues with
    | Some v => ReadOwn v
    | None =>
        if on_prototype name then ReadInherited name else ReadUndefined
    end.

  (** [inputValues[name] = v] for a number or a text [v]. *)
Definition writeInput (name : string) (v : InputValue)
      (inputValues : InputRecord) : InputRecord :=
    if proto_accessor name then inputValues else map_set name v inputValues.

  (** [if (r[name] === undefined) r[name] = 0; r[name] += v], where [r]
      was created as [{}] and [v] is a number.
      - A name that reads as [undefined] is set to 0, then [v] is added.
      - An own key holds a number or a text; [+=] adds to the number and
        appends [v]'s text to the text.
      - A name that reads as an inherited value is not initialised; [+=]
        concatenates the text of that value with [v]'s and assigns the
        text, which creates an own key, except under [__proto__]. *)
Definition accumulate (name : string) (v : num) (inputValues : InputRecord)
    : InputRecord :=
    match readInput name inputValues with
    | ReadUndefined =>
        writeInput name (InNumber (num_add num_zero v)) inputValues
    | ReadOwn (InNumber old) =>
        writeInput name (InNumber (num_add old v)) inputValues
    | ReadOwn (InText member appended) =>
        writeInput name (InText member (appended ++ [v])) inputValues
    | ReadInherited member =>
        writeInput name (InText member [v]) inputValues
    end.

Fixpoint gatherLoop (node : NodeDefinition) (graph : Graph)
      (currentOutputs : Results) (backEdgeValues : JSMap num)
      (executionOrder : list NodeId) (currentNodeIndex : Z)
      (incomingEdges : list Edge) (inputValues : InputRecord)
    : Completion InputRecord :=
    match incomingEdges with
    | [] => Normal inputValues
    | edge :: rest =>
        match findPort (inputs node) (toPortId edge) with
        | None =>
            gatherLoop node graph currentOutputs backEdgeValues executionOrder
                       currentNodeIndex rest inputValues
        | Some inputPort =>
            let sourceNodeIndex := indexOf executionOrder (fromNodeId edge) in
            if (sourceNodeIndex =? -1)%Z then
              Throw (SourceNotInOrder (fromNodeId edge))
            else
              let edgeValue :=
                resolveEdge graph currentOutputs backEdgeValues
                            currentNodeIndex sourceNodeIndex edge in
              gatherLoop node graph currentOutputs backEdgeValues
                         executionOrder currentNodeIndex rest
                         (accumulate (port_name inputPort) edgeValue
                                     inputValues)
        end
    end.

Definition incomingEdgesOf (graph : Graph) (nodeId : NodeId) : list Edge :=
    filter (fun edge => String.eqb (toNodeId edge) nodeId) (edges graph).

Definition gatherInputs (nodeId : NodeId) (node : NodeDefinition)
      (graph : Graph) (currentOutputs : Results) (backEdgeValues : JSMap num)
      (executionOrder : list NodeId) : Completion InputRecord :=
    let incomingEdges := incomingEdgesOf graph nodeId in
    let currentNodeIndex := indexOf executionOrder nodeId in
    if (currentNodeIndex =? -1)%Z then Throw (NodeNotInOrder nodeId)
    else
      gatherLoop node graph currentOutputs backEdgeValues executionOrder
                 currentNodeIndex incomingEdges [].

  (** What one iteration threads through the node loop. *)
Record LoopState : Type := {
    stateMap : JSMap JSValue;
    outputsMap : Results;
    currentResults : Results
  }.

  (** [ctx.getState()] *)
Definition getState (nodeId : NodeId) (sm : JSMap JSValue) : JSValue :=
    match map_get nodeId sm with Some v => v | None => VUndefined end.

  (** The body of [for (const nodeId of executionOrder)]. *)
Definition executeNode (graph : Graph) (iteration : nat)
      (backEdgeValues : JSMap num) (executionOrder : list NodeId)
      (ls : LoopState) (nodeId : NodeId) : Completion LoopState :=
    match map_get nodeId (nodes graph) with
    | None => Throw (NodeNotFoundInGraph nodeId)
    | Some node =>
        inputValues <- gatherInputs nodeId node graph (currentResults ls)
                                    backEdgeValues executionOrder ;;
        let '(nodeOutputs, nextState) :=
          calculate node inputValues nodeId iteration
                    (getState nodeId (stateMap ls)) in
        Normal {| stateMap := match nextState with
                              | Some next => map_set nodeId next (stateMap ls)
                              | None => stateMap ls
                              end;
                  outputsMap := map_set nodeId nodeOutputs (outputsMap ls);
                  currentResults :=
                    map_set nodeId nodeOutputs (currentResults ls) |}
    end.

Fixpoint executeNodes (graph : Graph) (iteration : nat)
      (backEdgeValues : JSMap num) (executionOrder : list NodeId)
      (todo : list NodeId) (ls : LoopState) : Completion LoopState :=
    match todo with
    | [] => Normal ls
    | nodeId :: rest =>
        ls' <- executeNode graph iteration backEdgeValues executionOrder
                           ls nodeId ;;
        executeNodes graph iteration backEdgeValues executionOrder rest ls'
    end.

  (** [node.state ?? {}] *)
Definition defaultState (node : NodeDefinition) : JSValue :=
    match node_state node with
    | VUndefined | VNull => VObj []
    | v => v
    end.

Definition initStateMap (graph : Graph)
      (initialState : option (JSMap JSValue)) : JSMap JSValue :=
    fold_left
      (fun sm (entry : NodeId * NodeDefinition) =>
         let '(nodeId, node) := entry in
         match initialState with
         | Some init =>
             match map_get nodeId init with
             | Some v => map_set nodeId v sm
             | None => map_set nodeId (defaultState node) sm
             end
         | None => map_set nodeId (defaultState node) sm
         end)
      (nodes graph) [].

  (** The [while (true)] loop of [execute]; one unit of [fuel] per
      iteration, [None] when the fuel runs out or the strategy's ordering
      does not return. *)
Fixpoint executeLoop (strategy : IExecutionStrategy) (fuel : nat)
      (graph : Graph) (s : strategy_state strategy) (iteration : nat)
      (sm : JSMap JSValue) (outs : Results) (previousResults : option Results)
    : option (Completion ExecutionResult) :=
    match fuel with
    | O => None
    | S fuel' =>
        let iteration := S iteration in
        match determineExecutionOrder strategy graph with
        | None => None
        | Some executionOrder =>
            let backEdgeValues :=
              getBackEdgeValues strategy iteration previousResults in
            match executeNodes graph iteration backEdgeValues executionOrder
                    executionOrder
                    {| stateMap := sm; outputsMap := outs;
                       currentResults := [] |} with
            | Throw e => Some (Throw e)
            | Normal ls =>
                match shouldContinue strategy s iteration (currentResults ls)
                with
                | Throw e => Some (Throw e)
                | Normal (true, s') =>
                    executeLoop strategy fuel' graph s' iteration
                                (stateMap ls) (outputsMap ls)
                                (Some (currentResults ls))
                | Normal (false, _) =>
                    Some (Normal {| result_state := stateMap ls;
                                    result_outputs := outputsMap ls;
                                    iterations := iteration |})
                end
            end
        end
    end.

Definition execute (strategy : IExecutionStrategy) (fuel : nat)
      (s0 : strategy_state strategy) (graph : Graph)
      (initialState : option (JSMap JSValue))
    : option (Completion ExecutionResult) :=
    executeLoop strategy fuel graph s0 0 (initStateMap graph initialState)
                [] None.

End Model.

(** Integers as a stand-in number type for running the model. *)
Definition ZNumber : JSNumber := {|
  num := Z;
  num_zero := 0%Z;
  num_add := Z.add;
  num_sub := Z.sub;
  num_abs := Z.abs;
  num_geb := Z.geb;
  num_ltb := Z.ltb;
  num_truthy := fun z => negb (Z.eqb z 0);
  num_of_nat := Z.of_nat
|}.


(** * Vocabulary of the specification *)

(** ** Component graphs and Kahn's algorithm *)

Definition nmap_keys {V : Type} (m : NMap V) : list nat := map fst m.

Definition mem_nat (x : nat) (l : list nat) : bool := existsb (Nat.eqb x) l.

(** The number of entries of the component graph that list [c] as a
    successor and whose component has not been emitted yet. *)
Definition pending (componentGraph : NMap (list nat)) (result : list nat)
    (c : nat) : nat :=
List.length
  (filter (fun entry : nat * list nat =>
             mem_nat c (snd entry) && negb (mem_nat (fst entry) result))
          componentGraph).

(** [x] stands before [y] in [l]. *)
Definition before {A : Type} (x y : A) (l : list A) : Prop :=
exists l1 l2 l3, l = l1 ++ x :: l2 ++ y :: l3.

(** What the [while] loop of Kahn's algorithm maintains. *)
Definition kahn_inv (componentGraph : NMap (list nat)) (queue : list nat)
    (inDegree : NMap Z) (result : list nat) : Prop :=
nmap_keys inDegree = nmap_keys componentGraph /\
(forall c, In c (nmap_keys componentGraph) ->
           degree_or_0 c inDegree = Z.of_nat (pending componentGraph result c))
/\ NoDup (result ++ queue)
/\ (forall c, In c (result ++ queue) -> In c (nmap_keys componentGraph))
/\ (forall c, In c (nmap_keys componentGraph) ->
              (In c (result ++ queue) <-> pending componentGraph result c = 0))
/\ (forall p succs c,
       In (p, succs) componentGraph -> In c succs -> In c result ->
       before p c result).

(** A well-formed component graph: distinct keys, successor sets without
    repetition made of keys. *)
Record cg_wf (componentGraph : NMap (list nat)) : Prop := {
  rd_keys : NoDup (nmap_keys componentGraph);
  rd_sets : forall c succs, In (c, succs) componentGraph -> NoDup succs;
  rd_closed : forall c succs s,
      In (c, succs) componentGraph -> In s succs ->
      In s (nmap_keys componentGraph)
}.

(** Every successor is numbered below its predecessor (so the component
    graph has no cycle). *)
Definition cg_ranked (componentGraph : NMap (list nat)) : Prop :=
forall c succs s, In (c, succs) componentGraph -> In s succs -> s < c.



Section SpecVocabulary.
Context {N : JSNumber}.

  (** Every object of [h] is found unchanged in [h']. *)
Definition heap_preserved (h h' : Heap) : Prop :=
    (forall l m, read_map h l = Some m -> read_map h' l = Some m) /\
    (forall l a, read_array h l = Some a -> read_array h' l = Some a).

  (** [key] is ["nodeId.fieldName"] for a node of [previous] whose output
      object holds the number [v] in field [fieldName]. *)
Definition numeric_field (previous : Results) (key : string) (v : num)
    : Prop :=
    exists nodeId fields fieldName,
      In (nodeId, VObj fields) previous /\
      In (fieldName, VNum v) fields /\
      key = (nodeId ++ "." ++ fieldName)%string.

  (** No key is produced with two different values. *)
Definition collision_free (previous : Results) : Prop :=
    forall key v v',
      numeric_field previous key v -> numeric_field previous key v' -> v = v'.

(** The value of an absent or present optional number, [x ?? 0]. *)
Definition or_zero (x : option num) : num :=
match x with Some v => v | None => num_zero end.

(** The number a node finds under an input name, [inputs.name ?? 0] on a
    name that holds a number when it holds anything. *)
Definition number_or_zero (x : option InputValue) : num :=
match x with Some (InNumber v) => v | _ => num_zero end.

(** The entry under [name] once the number [v] was added to the entry
    [entry]: what [accumulate name v] leaves under [name]. *)
Definition added (name : string) (entry : option InputValue) (v : num)
  : option InputValue :=
if proto_accessor name then entry
else
  match entry with
  | Some (InNumber old) => Some (InNumber (num_add old v))
  | Some (InText member appended) => Some (InText member (appended ++ [v]))
  | None =>
      if on_prototype name then Some (InText name [v])
      else Some (InNumber (num_add num_zero v))
  end.

(** Edge [edge] is delivered under key [name] of [node]'s input record: its
    target port id names an input port of [node] whose name is [name]. *)
Definition feeds (node : NodeDefinition) (name : string) (edge : Edge)
  : bool :=
match findPort (inputs node) (toPortId edge) with
| Some inputPort => String.eqb (port_name inputPort) name
| None => false
end.

(** The edges summed under key [name] when [nodeId] is evaluated. *)
Definition feedingEdges (graph : Graph) (nodeId : NodeId)
    (node : NodeDefinition) (name : string) : list Edge :=
filter (feeds node name) (incomingEdgesOf graph nodeId).

(** The edges of the graph that target node [nodeId] at port id
    [portId]. *)
Definition edgesInto (graph : Graph) (nodeId : NodeId) (portId : PortId)
  : list Edge :=
filter (fun edge => String.eqb (toPortId edge) portId)
       (incomingEdgesOf graph nodeId).

(** [portId] is the id of the only input port of [node] named [name]. *)
Definition sole_port (node : NodeDefinition) (name : string)
    (portId : PortId) : Prop :=
(exists inputPort,
    findPort (inputs node) portId = Some inputPort /\
    port_name inputPort = name) /\
forall p, In p (map snd (inputs node)) -> port_name p = name ->
          port_id p = portId.

(** The identifier an engine error names is really missing: a scheduled
    node absent from the graph, or an edge source absent from the order. *)
Definition names_missing_id (graph : Graph) (order : list NodeId)
    (e : JSError) : Prop :=
match e with
| NodeNotFoundInGraph i => In i order /\ map_get i (nodes graph) = None
| SourceNotInOrder i =>
    (exists edge, In edge (edges graph) /\ fromNodeId edge = i) /\
    ~ In i order
| _ => False
end.

(** Evaluating [nodeId] hits a fatal condition: it is absent from the graph,
    or one of its incoming edges into an existing input port has a source
    that is not scheduled. *)
Definition fatal_at (graph : Graph) (order : list NodeId) (nodeId : NodeId)
  : Prop :=
map_get nodeId (nodes graph) = None \/
exists node edge inputPort,
  map_get nodeId (nodes graph) = Some node /\
  In edge (edges graph) /\ toNodeId edge = nodeId /\
  findPort (inputs node) (toPortId edge) = Some inputPort /\
  ~ In (fromNodeId edge) order.

(** No scheduled node hits a fatal condition. *)
Definition consistent (graph : Graph) (order : list NodeId) : Prop :=
forall nodeId, In nodeId order -> ~ fatal_at graph order nodeId.

(** Boolean versions, for running the check on a concrete graph. *)
Definition fatal_atb (graph : Graph) (order : list NodeId) (nodeId : NodeId)
  : bool :=
match map_get nodeId (nodes graph) with
| None => true
| Some node =>
    existsb
      (fun edge =>
         String.eqb (toNodeId edge) nodeId
         && match findPort (inputs node) (toPortId edge) with
            | Some _ => true
            | None => false
            end
         && negb (existsb (String.eqb (fromNodeId edge)) order))
      (edges graph)
end.

Definition consistentb (graph : Graph) (order : list NodeId) : bool :=
forallb (fun nodeId => negb (fatal_atb graph order nodeId)) order.

(** The loop state after [k] iterations of [execute], had the loop got that
    far: the order and the back-edge defaults come from the strategy, whose
    verdict on continuing plays no part. *)
Fixpoint iterationState (strategy : IExecutionStrategy) (graph : Graph)
    (order : list NodeId) (initialState : option (JSMap JSValue)) (k : nat)
  : Completion LoopState :=
match k with
| O => Normal {| stateMap := initStateMap graph initialState;
                 outputsMap := []; currentResults := [] |}
| S k' =>
    ls <- iterationState strategy graph order initialState k' ;;
    executeNodes graph (S k')
      (getBackEdgeValues strategy (S k')
         (match k' with O => None | S _ => Some (currentResults ls) end))
      order order
      {| stateMap := stateMap ls; outputsMap := outputsMap ls;
         currentResults := [] |}
end.

(** The results map of iteration [k]. *)
Definition iterationResults (strategy : IExecutionStrategy) (graph : Graph)
    (order : list NodeId) (initialState : option (JSMap JSValue)) (k : nat)
  : Completion Results :=
ls <- iterationState strategy graph order initialState k ;;
Normal (currentResults ls).

(** Between two consecutive result maps the node set is unchanged, every
    node returned an object both times, and every numeric field of the
    current object has a numeric counterpart that differs from it by less
    than [threshold] in absolute value. *)
Definition stabilized (threshold : num) (previous current : Results) : Prop :=
map_size previous = map_size current /\
forall nodeId currentOutputs,
  In (nodeId, currentOutputs) current ->
  exists previousFields currentFields,
    map_get nodeId previous = Some (VObj previousFields) /\
    currentOutputs = VObj currentFields /\
    forall portId currentValue,
      In (portId, VNum currentValue) currentFields ->
      exists previousValue,
        js_get_number (VObj previousFields) portId = Some previousValue /\
        num_geb (num_abs (num_sub currentValue previousValue)) threshold
        = false.

(** [checkConvergence] answers [b] when comparing the results of iteration
    [k - 1] with those of iteration [k]. *)
Definition convergedAt (threshold : num) (strategy : IExecutionStrategy)
    (graph : Graph) (order : list NodeId)
    (initialState : option (JSMap JSValue)) (k : nat) (b : bool) : Prop :=
exists previous current,
  iterationResults strategy graph order initialState (k - 1) = Normal previous
  /\ iterationResults strategy graph order initialState k = Normal current
  /\ checkConvergence threshold previous current = Normal b.

(** The outputs of iteration [k] are within [threshold] of those of
    iteration [k - 1]. *)
Definition stabilizedAt (threshold : num) (strategy : IExecutionStrategy)
    (graph : Graph) (order : list NodeId)
    (initialState : option (JSMap JSValue)) (k : nat) : Prop :=
exists previous current,
  iterationResults strategy graph order initialState (k - 1) = Normal previous
  /\ iterationResults strategy graph order initialState k = Normal current
  /\ stabilized threshold previous current.

(** What the loop of [execute] holds when iteration [i] has just been
    completed: the loop state of [iterationState], and the previous results
    handed to the next round. *)
Definition previousOf (i : nat) (ls : LoopState) : option Results :=
match i with O => None | S _ => Some (currentResults ls) end.

(** *** Tarjan's bookkeeping *)

(** The bookkeeping object of node [v], its index and its low-link. *)
Definition nd (st : TarjanState) (v : NodeId) : option NodeData :=
map_get v (nodeData st).

Definition index_of (st : TarjanState) (v : NodeId) : Z :=
match nd st v with Some d => nd_index d | None => (-1)%Z end.

Definition lowLink_of (st : TarjanState) (v : NodeId) : Z :=
match nd st v with Some d => nd_lowLink d | None => (-1)%Z end.

Definition visited (st : TarjanState) (v : NodeId) : Prop :=
exists d, nd st v = Some d /\ nd_index d <> (-1)%Z.

(** The number of nodes not yet numbered: what bounds the recursion. *)
Definition unvisited_count (m : JSMap NodeData) : nat :=
List.length (filter (fun kv : string * NodeData => (nd_index (snd kv) =? -1)%Z)
                    m).

(** How the bookkeeping evolves, whatever the node ids: the counter only
    grows, the stack only grows above the old one and by nodes that were not
    numbered, components are appended, the nodes numbered before keep their
    bookkeeping, and the nodes numbered since got the values the counter went
    through. *)
Record tarjan_ext (st st' : TarjanState) : Prop := {
  te_index : (index st <= index st')%Z;
  te_stack : exists extra,
      stack st' = extra ++ stack st /\
      forall w, In w extra -> ~ visited st w;
  te_sccs : exists found, sccs st' = sccs st ++ found;
  te_keys : forall u, nd st' u = None <-> nd st u = None;
  te_old : forall u d,
      nd st u = Some d -> nd_index d <> (-1)%Z -> nd st' u = Some d;
  te_new : forall u d',
      nd st' u = Some d' -> nd_index d' <> (-1)%Z ->
      visited st u \/ (index st <= nd_index d' < index st')%Z;
  te_count : unvisited_count (nodeData st') <= unvisited_count (nodeData st)
}.

(** What a call [strongConnect(v)] does on top of that: the stack grew by
    nothing or by a segment ending in [v], and [v] is numbered with the value
    of the counter at the call. *)
Record tarjan_frame (v : NodeId) (st st' : TarjanState) : Prop := {
  tf_ext : tarjan_ext st st';
  tf_shape : exists extra,
      stack st' = extra ++ stack st /\
      (extra = [] \/ exists xs, extra = xs ++ [v] /\ ~ In v xs);
  tf_self : exists d, nd st' v = Some d /\ nd_index d = index st;
  tf_count : unvisited_count (nodeData st') < unvisited_count (nodeData st)
}.

(** What the loop over the successors of [v] maintains. *)
Record tarjan_loop (v : NodeId) (st cur : TarjanState) : Prop := {
  tl_ext : tarjan_ext st cur;
  tl_stack : exists extra,
      stack cur = extra ++ v :: stack st /\ ~ In v extra;
  tl_self : exists d, nd cur v = Some d /\ nd_index d = index st;
  tl_count : unvisited_count (nodeData cur) < unvisited_count (nodeData st)
}.

(** *** Graph-theoretic vocabulary *)

(** [x -> y] is an edge of the graph. *)
Definition edge_rel (graph : Graph) (x y : NodeId) : Prop :=
exists edge,
  In edge (edges graph) /\ fromNodeId edge = x /\ toNodeId edge = y.

(** No directed cycle, self-loops counting as cycles. *)
Definition acyclic (graph : Graph) : Prop :=
forall x, ~ clos_trans NodeId (edge_rel graph) x x.

(** An edge between two nodes of the graph, and reachability along such
    edges (the successors Tarjan's algorithm follows). *)
Definition inner_edge (graph : Graph) (x y : NodeId) : Prop :=
edge_rel graph x y /\
In x (map_keys (nodes graph)) /\ In y (map_keys (nodes graph)).

Definition reach (graph : Graph) : NodeId -> NodeId -> Prop :=
clos_refl_trans NodeId (inner_edge graph).

(** The nodes already put into a component. *)
Definition emitted (st : TarjanState) : list NodeId :=
List.concat (sccs st).

(** All the successors of [x] have been dealt with: each is in a component
    or on the stack with an index the low-link of [x] does not exceed. *)
Definition done_with (graph : Graph) (st : TarjanState) (x : NodeId) : Prop :=
forall y,
  In y (getSuccessors graph x) -> In y (map_keys (nodes graph)) ->
  In y (emitted st) \/
  (In y (stack st) /\ (lowLink_of st x <= index_of st y)%Z).

(** The state of Tarjan's algorithm is well formed. *)
Record tarjan_wf (graph : Graph) (st : TarjanState) : Prop := {
  wf_index : (0 <= index st)%Z;
  wf_keys : forall u, nd st u <> None <-> In u (map_keys (nodes graph));
  wf_unvisited : forall u d,
      nd st u = Some d -> nd_index d = (-1)%Z -> nd_onStack d = false;
  wf_range : forall u d,
      nd st u = Some d -> nd_index d <> (-1)%Z ->
      (0 <= nd_index d < index st)%Z;
  wf_stack : forall u,
      In u (stack st) <-> exists d, nd st u = Some d /\ nd_onStack d = true;
  wf_emitted : forall u,
      In u (emitted st) <->
      exists d, nd st u = Some d /\ nd_index d <> (-1)%Z /\
                nd_onStack d = false;
  wf_nodup : NoDup (emitted st);
  wf_stack_nodup : NoDup (stack st);
  wf_closed : forall i scc x y,
      nth_error (sccs st) i = Some scc -> In x scc ->
      In y (getSuccessors graph x) -> In y (map_keys (nodes graph)) ->
      exists j scc',
        j <= i /\ nth_error (sccs st) j = Some scc' /\ In y scc';
  wf_scc : forall scc x y,
      In scc (sccs st) -> In x scc -> In y scc -> reach graph x y
}.

(** Two states that differ in low-links only. *)
Record same_shape (st st' : TarjanState) : Prop := {
  ss_index : index st' = index st;
  ss_stack : stack st' = stack st;
  ss_sccs : sccs st' = sccs st;
  ss_none : forall u, nd st' u = None <-> nd st u = None;
  ss_data : forall u d d',
      nd st u = Some d -> nd st' u = Some d' ->
      nd_index d' = nd_index d /\ nd_onStack d' = nd_onStack d
}.

(** What holds when [strongConnect(v)] is called. *)
Record tarjan_pre (graph : Graph) (v : NodeId) (st : TarjanState) : Prop := {
  pre_wf : tarjan_wf graph st;
  pre_unvisited : exists d, nd st v = Some d /\ nd_index d = (-1)%Z;
  pre_reach : forall x, In x (stack st) -> reach graph x v
}.

(** What holds when it returns. *)
Record tarjan_post (graph : Graph) (v : NodeId) (st st' : TarjanState)
  : Prop := {
  post_wf : tarjan_wf graph st';
  post_reach : forall u, visited st' u -> ~ visited st u -> reach graph v u;
  post_extra : forall extra x,
      stack st' = extra ++ stack st -> In x extra ->
      done_with graph st' x /\
      (lowLink_of st' v <= lowLink_of st' x)%Z /\
      (lowLink_of st' x <= index_of st' x)%Z /\
      reach graph x v;
  post_root : stack st' = stack st -> lowLink_of st' v = index st;
  post_low : stack st' <> stack st ->
      (lowLink_of st' v < index st)%Z /\
      exists w, In w (stack st) /\ index_of st w = lowLink_of st' v /\
                reach graph v w
}.

(** What the loop over the successors of [v] maintains, [handled] being
    the successors dealt with so far. *)
Record tarjan_inv (graph : Graph) (v : NodeId) (st : TarjanState)
    (handled : list NodeId) (cur : TarjanState) : Prop := {
  inv_wf : tarjan_wf graph cur;
  inv_reach : forall u, visited cur u -> ~ visited st u -> reach graph v u;
  inv_extra : forall extra x,
      stack cur = extra ++ v :: stack st -> In x extra ->
      done_with graph cur x /\
      (lowLink_of cur v <= lowLink_of cur x)%Z /\
      (lowLink_of cur x <= index_of cur x)%Z /\
      reach graph x v;
  inv_low : (lowLink_of cur v <= index st)%Z /\
            exists w, In w (v :: stack st) /\
                      index_of cur w = lowLink_of cur v /\
                      reach graph v w;
  inv_handled : forall y,
      In y handled -> In y (map_keys (nodes graph)) ->
      In y (emitted cur) \/
      (In y (stack cur) /\ (lowLink_of cur v <= index_of cur y)%Z)
}.

(** Every edge's source stands strictly before its destination. *)
Definition topological_order (graph : Graph) (order : list NodeId) : Prop :=
forall edge,
  In edge (edges graph) ->
  exists i j,
    nth_error order i = Some (fromNodeId edge) /\
    nth_error order j = Some (toNodeId edge) /\
    i < j.

End SpecVocabulary.

(** * Concrete graphs and nodes used to run the model *)

Section Examples.
#[local] Existing Instance ZNumber.

Definition deltaPort (kind : PortKind) : PortDescriptor :=
    {| port_id := "delta"; port_name := "delta"; port_kind := kind |}.

  (** A source node without inputs returning [{ delta: value }]. *)
Definition constantNode (id : NodeId) (value : Z) : NodeDefinition :=
    {| node_id := id; node_type := "constant"; node_state := VObj [];
       inputs := [];
       outputs := [("delta", deltaPort output)];
       calculate := fun _ _ _ _ => (VObj [("delta", VNum value)], None) |}.

  (** A store holding one graph made of the node ["A"]. *)
Definition heap_A : Heap :=
    {| heap_maps := [[("A", constantNode "A" 1)]]; heap_arrays := [[]] |}.
Definition graph_A_ref : GraphRef := {| nodes_ref := 0; edges_ref := 0 |}.
Definition graph_A : Graph :=
    {| nodes := [("A", constantNode "A" 1)]; edges := [] |}.

  (** What the node of [graph_A] answers, and the results map it makes. *)
Definition graph_A_fields : list (string * JSValue) := [("delta", VNum 1%Z)].
Definition graph_A_results_map : Results := [("A", VObj graph_A_fields)].

(** Previous results in which two (node, field) pairs spell one key. *)
Definition colliding_results : Results :=
    [("a.b", VObj [("c", VNum 1%Z)]); ("a", VObj [("b.c", VNum 2%Z)])].

Definition plain_results : Results :=
    [("A", VObj [("delta", VNum 5%Z)]); ("B", VObj [("delta", VNum 10%Z)])].

(** An accumulator in the manner of the variable node of the tests: it adds
    the input [delta] (0 when the port is not fed) to the [value] of its
    state and forwards [delta]. *)
Definition accumulatorNode (id : NodeId) (initial : Z) : NodeDefinition :=
{| node_id := id; node_type := "variable";
   node_state := VObj [("value", VNum initial)];
   inputs := [("delta", deltaPort input)];
   outputs := [("delta", deltaPort output)];
   calculate := fun inputValues _ _ st =>
     let delta := number_or_zero (map_get "delta" inputValues) in
     let value := or_zero (js_get_number st "value") in
     (VObj [("delta", VNum delta)],
      Some (VObj [("value", VNum (value + delta)%Z)])) |}.

Definition deltaEdge (id : string) (from to : NodeId) : Edge :=
{| edge_id := id; fromNodeId := from; fromPortId := "delta";
   toNodeId := to; toPortId := "delta" |}.

(** INPUT(1) -> A -> B -> C -> A, the cycle of the integration tests. *)
Definition cycle_graph : Graph :=
{| nodes := [("INPUT", constantNode "INPUT" 1); ("A", accumulatorNode "A" 0);
             ("B", accumulatorNode "B" 0); ("C", accumulatorNode "C" 0)];
   edges := [deltaEdge "e0" "INPUT" "A"; deltaEdge "e1" "A" "B";
             deltaEdge "e2" "B" "C"; deltaEdge "e3" "C" "A"] |}.

(** SOURCE(1) -> A and the self-loop A -> A. *)
Definition self_loop_graph : Graph :=
{| nodes := [("SOURCE", constantNode "SOURCE" 1);
             ("A", accumulatorNode "A" 0)];
   edges := [deltaEdge "e-source-a" "SOURCE" "A"; deltaEdge "e-a-a" "A" "A"] |}.

(** Two sources feeding the one input port of T. *)
Definition fan_in_graph : Graph :=
{| nodes := [("S1", constantNode "S1" 2); ("S2", constantNode "S2" 3);
             ("T", accumulatorNode "T" 0)];
   edges := [deltaEdge "e1" "S1" "T"; deltaEdge "e2" "S2" "T"] |}.

Definition fan_in_outputs : Results :=
[("S1", VObj [("delta", VNum 2%Z)]); ("S2", VObj [("delta", VNum 3%Z)])].

(** An edge whose destination Z is no node of the graph. *)
Definition dangling_target_graph : Graph :=
{| nodes := [("A", constantNode "A" 1)];
   edges := [deltaEdge "e1" "A" "Z"] |}.

(** An edge whose source X is no node of the graph, into the port of A. *)
Definition dangling_source_graph : Graph :=
{| nodes := [("A", accumulatorNode "A" 0)];
   edges := [deltaEdge "e1" "X" "A"] |}.

(** A node with two input ports of different ids that share the name
    [x]; it forwards what it finds under [x]. *)
Definition twinPort (id : PortId) : PortDescriptor :=
{| port_id := id; port_name := "x"; port_kind := input |}.

Definition twinPortNode (id : NodeId) : NodeDefinition :=
{| node_id := id; node_type := "twin"; node_state := VObj [];
   inputs := [("p1", twinPort "p1"); ("p2", twinPort "p2")];
   outputs := [("delta", deltaPort output)];
   calculate := fun inputValues _ _ _ =>
     (VObj [("delta", VNum (number_or_zero (map_get "x" inputValues)))],
      None) |}.

Definition portEdge (id : string) (from to : NodeId) (toPort : PortId)
  : Edge :=
{| edge_id := id; fromNodeId := from; fromPortId := "delta";
   toNodeId := to; toPortId := toPort |}.

(** S1(2) into port p1 and S2(3) into port p2 of T. *)
Definition twin_graph : Graph :=
{| nodes := [("S1", constantNode "S1" 2); ("S2", constantNode "S2" 3);
             ("T", twinPortNode "T")];
   edges := [portEdge "e1" "S1" "T" "p1"; portEdge "e2" "S2" "T" "p2"] |}.

(** S1(2) into port p1 of T; no edge into port p2. *)
Definition half_fed_twin_graph : Graph :=
{| nodes := [("S1", constantNode "S1" 2); ("T", twinPortNode "T")];
   edges := [portEdge "e1" "S1" "T" "p1"] |}.

(** A node with one input port of the given id and name. *)
Definition namedPortNode (id : NodeId) (portName : string)
  : NodeDefinition :=
{| node_id := id; node_type := "named"; node_state := VObj [];
   inputs := [("in", {| port_id := "in"; port_name := portName;
                        port_kind := input |})];
   outputs := [("delta", deltaPort output)];
   calculate := fun inputValues _ _ _ =>
     (VObj [("delta",
             VNum (number_or_zero (map_get portName inputValues)))],
      None) |}.

(** S1(2) and S2(3) into the one input port of T, whose name is
    [portName]. *)
Definition named_port_graph (portName : string) : Graph :=
{| nodes := [("S1", constantNode "S1" 2); ("S2", constantNode "S2" 3);
             ("T", namedPortNode "T" portName)];
   edges := [portEdge "e1" "S1" "T" "in"; portEdge "e2" "S2" "T" "in"] |}.

(** A node with the input ports [rate] and [level]. *)
Definition twoPortNode (id : NodeId) : NodeDefinition :=
{| node_id := id; node_type := "two"; node_state := VObj [];
   inputs := [("rate", {| port_id := "rate"; port_name := "rate";
                          port_kind := input |});
              ("level", {| port_id := "level"; port_name := "level";
                           port_kind := input |})];
   outputs := [("delta", deltaPort output)];
   calculate := fun inputValues _ _ _ =>
     (VObj [("delta", VNum (number_or_zero (map_get "rate" inputValues)))],
      None) |}.

(** S1(2) into port [rate] of T; no edge into port [level]. *)
Definition one_of_two_graph : Graph :=
{| nodes := [("S1", constantNode "S1" 2); ("T", twoPortNode "T")];
   edges := [portEdge "e1" "S1" "T" "rate"] |}.

(** A node with the empty id feeding T; the graph passes validation. *)
Definition empty_id_source : Graph :=
{| nodes := [("", constantNode "" 1); ("T", accumulatorNode "T" 0)];
   edges := [deltaEdge "e1" "" "T"] |}.

(** A single node whose id is the empty string. *)
Definition empty_id_graph : Graph :=
{| nodes := [("", constantNode "" 1)]; edges := [] |}.

(** The acyclic graph A -> "" on a node with the empty id. *)
Definition empty_id_chain : Graph :=
{| nodes := [("A", constantNode "A" 1); ("", accumulatorNode "" 0)];
   edges := [deltaEdge "e1" "A" ""] |}.

End Examples.

(** * Graph validation ([Graph.ts], [validateGraph] and [validatePorts]) *)

(** The messages [validateGraph] throws, as constructors carrying the
    identifiers the message quotes. *)
Inductive ValidationError : Type :=
| PortKindMismatch (key : string) (nodeId : NodeId)
    (found expected : PortKind)
    (* Port "key" on node "nodeId" has kind "found", expected "expected" *)
| DuplicatePortId (portId : PortId) (expected : PortKind) (nodeId : NodeId)
    (* Duplicate port id "portId" in expected ports of node "nodeId" *)
| MissingFromNode (edgeId : string) (nodeId : NodeId)
    (* Edge "edgeId" references missing fromNodeId "nodeId" *)
| MissingToNode (edgeId : string) (nodeId : NodeId)
    (* Edge "edgeId" references missing toNodeId "nodeId" *)
| MissingOutputPort (edgeId : string) (portId : PortId) (nodeId : NodeId)
    (* Edge "edgeId" references missing output port "portId" on node "nodeId" *)
| MissingInputPort (edgeId : string) (portId : PortId) (nodeId : NodeId).
    (* Edge "edgeId" references missing input port "portId" on node "nodeId" *)

(** A call of the validation code returns a value or throws. *)
Inductive Validation (A : Type) : Type :=
| Valid (a : A)
| Invalid (e : ValidationError).

Arguments Valid {A} a.
Arguments Invalid {A} e.

Definition bindV {A B : Type} (c : Validation A) (k : A -> Validation B)
  : Validation B :=
  match c with
  | Valid a => k a
  | Invalid e => Invalid e
  end.

Section Validate.
Context {N : JSNumber}.

Definition PortKind_eqb (a b : PortKind) : bool :=
  match a, b with
  | input, input | output, output => true
  | _, _ => false
  end.

(** [validatePorts(nodeId, expectedKind, ports, seenIds)]: the loop over
    [Object.entries(ports)]; [seenIds] is the [Set] the caller passes, the
    result is that set as the loop leaves it. *)
Fixpoint validatePorts (nodeId : NodeId) (expectedKind : PortKind)
    (ports : list (string * PortDescriptor)) (seenIds : list string)
  : Validation (list string) :=
  match ports with
  | [] => Valid seenIds
  | (key, port) :: rest =>
      if negb (PortKind_eqb (port_kind port) expectedKind) then
        Invalid (PortKindMismatch key nodeId (port_kind port) expectedKind)
      else if existsb (String.eqb (port_id port)) seenIds then
        Invalid (DuplicatePortId (port_id port) expectedKind nodeId)
      else validatePorts nodeId expectedKind rest (seenIds ++ [port_id port])
  end.

(** The loop over [graph.nodes.entries()]: two fresh sets per node. *)
Fixpoint validateNodes (entries : list (NodeId * NodeDefinition))
  : Validation unit :=
  match entries with
  | [] => Valid tt
  | (nodeId, node) :: rest =>
      bindV (validatePorts nodeId input (inputs node) []) (fun _ =>
      bindV (validatePorts nodeId output (outputs node) []) (fun _ =>
      validateNodes rest))
  end.

(** [Object.values(ports).some((p) => p.id === portId)] *)
Definition somePort (ports : list (string * PortDescriptor))
    (portId : PortId) : bool :=
  existsb (fun p => String.eqb (port_id p) portId) (map snd ports).

(** The body of the loop over [graph.edges]. *)
Definition validateEdge (graph : Graph) (edge : Edge) : Validation unit :=
  match map_get (fromNodeId edge) (nodes graph) with
  | None => Invalid (MissingFromNode (edge_id edge) (fromNodeId edge))
  | Some fromNode =>
      match map_get (toNodeId edge) (nodes graph) with
      | None => Invalid (MissingToNode (edge_id edge) (toNodeId edge))
      | Some toNode =>
          if negb (somePort (outputs fromNode) (fromPortId edge)) then
            Invalid (MissingOutputPort (edge_id edge) (fromPortId edge)
                                       (fromNodeId edge))
          else if negb (somePort (inputs toNode) (toPortId edge)) then
            Invalid (MissingInputPort (edge_id edge) (toPortId edge)
                                      (toNodeId edge))
          else Valid tt
      end
  end.

Fixpoint validateEdges (graph : Graph) (todo : list Edge)
  : Validation unit :=
  match todo with
  | [] => Valid tt
  | edge :: rest =>
      bindV (validateEdge graph edge) (fun _ => validateEdges graph rest)
  end.

Definition validateGraph (graph : Graph) : Validation unit :=
  bindV (validateNodes (nodes graph)) (fun _ =>
  validateEdges graph (edges graph)).

(** ** What validation establishes *)

(** The ports of one role: each of the expected kind, no id twice. *)
Definition ports_ok (expectedKind : PortKind)
    (ports : list (string * PortDescriptor)) : Prop :=
  (forall key port, In (key, port) ports -> port_kind port = expectedKind) /\
  NoDup (map (fun entry => port_id (snd entry)) ports).

(** An edge joins an output port of a node of the graph to an input port
    of a node of the graph. *)
Definition edge_ok (graph : Graph) (edge : Edge) : Prop :=
  exists fromNode toNode,
    map_get (fromNodeId edge) (nodes graph) = Some fromNode /\
    map_get (toNodeId edge) (nodes graph) = Some toNode /\
    findPort (outputs fromNode) (fromPortId edge) <> None /\
    findPort (inputs toNode) (toPortId edge) <> None.

Definition valid_graph (graph : Graph) : Prop :=
  (forall nodeId node,
      In (nodeId, node) (nodes graph) ->
      ports_ok input (inputs node) /\ ports_ok output (outputs node)) /\
  (forall edge, In edge (edges graph) -> edge_ok graph edge).

(** The ports of a node in the role [kind]. *)
Definition ports_of (kind : PortKind) (node : NodeDefinition)
  : list (string * PortDescriptor) :=
  match kind with
  | input => inputs node
  | output => outputs node
  end.

(** What an error says is the case in the graph. *)
Definition describes (graph : Graph) (e : ValidationError) : Prop :=
  match e with
  | PortKindMismatch key nodeId found expected =>
      exists node port,
        In (nodeId, node) (nodes graph) /\
        In (key, port) (ports_of expected node) /\
        port_kind port = found /\ found <> expected
  | DuplicatePortId portId expected nodeId =>
      exists node earlier key port later,
        In (nodeId, node) (nodes graph) /\
        ports_of expected node = earlier ++ (key, port) :: later /\
        port_id port = portId /\
        In portId (map (fun entry => port_id (snd entry)) earlier)
  | MissingFromNode edgeId nodeId =>
      exists edge,
        In edge (edges graph) /\ edge_id edge = edgeId /\
        fromNodeId edge = nodeId /\ map_get nodeId (nodes graph) = None
  | MissingToNode edgeId nodeId =>
      exists edge,
        In edge (edges graph) /\ edge_id edge = edgeId /\
        toNodeId edge = nodeId /\ map_get nodeId (nodes graph) = None
  | MissingOutputPort edgeId portId nodeId =>
      exists edge node,
        In edge (edges graph) /\ edge_id edge = edgeId /\
        fromNodeId edge = nodeId /\ fromPortId edge = portId /\
        map_get nodeId (nodes graph) = Some node /\
        findPort (outputs node) portId = None
  | MissingInputPort edgeId portId nodeId =>
      exists edge node,
        In edge (edges graph) /\ edge_id edge = edgeId /\
        toNodeId edge = nodeId /\ toPortId edge = portId /\
        map_get nodeId (nodes graph) = Some node /\
        findPort (inputs node) portId = None
  end.

(** The errors of the second loop, the one over the edges. *)
Definition edge_error (e : ValidationError) : bool :=
  match e with
  | PortKindMismatch _ _ _ _ | DuplicatePortId _ _ _ => false
  | _ => true
  end.

End Validate.

(** * Further vocabulary *)

Section MoreVocabulary.
Context {N : JSNumber}.

(** Whatever the graph, the stack and the components of Tarjan's algorithm
    hold ids of nodes of the graph, the components none that is empty. *)
Definition members_ok (graph : Graph) (st : TarjanState) : Prop :=
  (forall u, nd st u <> None -> In u (map_keys (nodes graph))) /\
  (forall w, In w (stack st) -> nd st w <> None) /\
  (forall scc w, In scc (sccs st) -> In w scc -> w <> "" /\ nd st w <> None).

(** Every component that lists [c] as a successor has been emitted. *)
Definition predecessors_in (componentGraph : NMap (list nat))
    (result : list nat) (c : nat) : Prop :=
  forall p succs, In (p, succs) componentGraph -> In c succs -> In p result.

(** The [set] calls one round of the node loop makes on a results map. *)
Definition apply_writes (writes : list (NodeId * JSValue)) (m : Results)
  : Results :=
  fold_left (fun acc kv => map_set (fst kv) (snd kv) acc) writes m.

(** The keys of a map after [set] calls on the keys [ks], in iteration
    order. *)
Definition add_keys (ks : list string) (keys : list string) : list string :=
  fold_left
    (fun acc k => if existsb (String.eqb k) acc then acc else acc ++ [k])
    ks keys.

(** The state the engine starts node [nodeId] with: the caller's entry,
    whatever it holds, else the node's own state, [{}] standing in for
    [undefined] and [null]. *)
Definition startState (initialState : option (JSMap JSValue))
    (nodeId : NodeId) (node : NodeDefinition) : JSValue :=
  match initialState with
  | Some init =>
      match map_get nodeId init with
      | Some v => v
      | None => defaultState node
      end
  | None => defaultState node
  end.

(** The strategies of the sources.  Each computes its order as
    [modifiedTopologicalSort(graph)] and its back-edge values from the
    arguments of the call, whenever the engine asks. *)
Inductive built_in : IExecutionStrategy -> Prop :=
| built_in_single : built_in SinglePassStrategy
| built_in_multi (maxIterations : nat) :
    built_in (MultiPassStrategy maxIterations)
| built_in_convergence (threshold : num) (maxIterations : nat) :
    built_in (ConvergenceStrategy threshold maxIterations).

End MoreVocabulary.

(** * Properties *)

(** ** Insertion-ordered maps *)

Section JSMapFacts.
Context {V : Type}.
Implicit Types (m : JSMap V) (k : string) (v : V).

Lemma map_get_set_same m k v : map_get k (map_set k v m) = Some v.
Proof.
    induction m as [|[k' v'] m IH]; simpl.
    - now rewrite String.eqb_refl.
    - destruct (String.eqb k' k) eqn:E; simpl; rewrite E; auto.
Qed.

Lemma map_get_set_other m k k' v :
    k <> k' -> map_get k' (map_set k v m) = map_get k' m.
Proof.
    intros Hne. induction m as [|[k0 v0] m IH]; simpl.
    - destruct (String.eqb k k') eqn:E; auto.
      apply String.eqb_eq in E. contradiction.
    - destruct (String.eqb k0 k) eqn:E; simpl.
      + apply String.eqb_eq in E. subst k0.
        destruct (String.eqb k k') eqn:E'; auto.
        apply String.eqb_eq in E'. contradiction.
      + destruct (String.eqb k0 k'); auto.
Qed.

Lemma map_set_size_absent m k v :
    map_get k m = None -> map_size (map_set k v m) = S (map_size m).
Proof.
    unfold map_size. induction m as [|[k' v'] m IH]; simpl; intros H; auto.
    destruct (String.eqb k' k); [discriminate|]. simpl. now rewrite IH.
Qed.

Lemma map_set_size_present m k v :
    map_get k m <> None -> map_size (map_set k v m) = map_size m.
Proof.
    unfold map_size. induction m as [|[k' v'] m IH]; simpl; intros H.
    - contradiction.
    - destruct (String.eqb k' k); simpl; auto.
Qed.

Lemma map_get_In_keys m k v : map_get k m = Some v -> In k (map_keys m).
Proof.
    unfold map_keys. induction m as [|[k' v'] m IH]; simpl; [discriminate|].
    destruct (String.eqb k' k) eqn:E; intros H.
    - left. now apply String.eqb_eq.
    - right. auto.
Qed.

Lemma map_get_None_iff m k : map_get k m = None <-> ~ In k (map_keys m).
Proof.
    unfold map_keys. induction m as [|[k' v'] m IH]; simpl.
    - tauto.
    - destruct (String.eqb k' k) eqn:E.
      + apply String.eqb_eq in E. split; [discriminate|]. intros H. tauto.
      + apply String.eqb_neq in E. rewrite IH. tauto.
Qed.

Lemma map_keys_set m k v :
    map_keys (map_set k v m) =
    if map_has k m then map_keys m else map_keys m ++ [k].
Proof.
    unfold map_has, map_keys. induction m as [|[k' v'] m IH]; simpl; auto.
    destruct (String.eqb k' k) eqn:E; simpl; auto.
    rewrite IH. destruct (map_get k m); auto.
Qed.

Lemma map_has_true_iff m k : map_has k m = true <-> In k (map_keys m).
Proof.
    unfold map_has. destruct (map_get k m) eqn:E.
    - split; auto. intros _. eapply map_get_In_keys; eauto.
    - apply map_get_None_iff in E. split; [discriminate|tauto].
Qed.
End JSMapFacts.

Lemma nth_error_list_update_same {A : Type} (l : list A) i a :
  i < List.length l -> nth_error (list_update l i a) i = Some a.
Proof.
  revert i. induction l as [|x l IH]; intros [|i] H; simpl in *; try lia; auto.
  apply IH. lia.
Qed.

Lemma nth_error_list_update_other {A : Type} (l : list A) i j a :
  i <> j -> nth_error (list_update l i a) j = nth_error l j.
Proof.
  revert i j. induction l as [|x l IH]; intros [|i] [|j] H; simpl; auto;
    try congruence.
Qed.

Lemma nth_error_snoc_old {A : Type} (l : list A) a i x :
  nth_error l i = Some x -> nth_error (l ++ [a]) i = Some x.
Proof.
  intros H. rewrite nth_error_app1; auto.
  apply nth_error_Some. congruence.
Qed.

Lemma nth_error_snoc_new {A : Type} (l : list A) a :
  nth_error (l ++ [a]) (List.length l) = Some a.
Proof.
  rewrite nth_error_app2 by lia. now rewrite Nat.sub_diag.
Qed.

(** ** The graph store: [addNode] *)

Section GraphStore.
Context {N : JSNumber}.

Lemma heap_preserved_refl h : heap_preserved h h.
Proof. split; auto. Qed.

Lemma heap_preserved_trans h1 h2 h3 :
    heap_preserved h1 h2 -> heap_preserved h2 h3 -> heap_preserved h1 h3.
Proof. intros [A B] [C D]. split; auto. Qed.

Lemma alloc_map_preserved h m :
    heap_preserved h (fst (alloc_map h m)) /\
    read_map (fst (alloc_map h m)) (snd (alloc_map h m)) = Some m.
Proof.
    unfold heap_preserved, alloc_map, read_map, read_array; simpl.
    repeat split; auto.
    - intros l x H. now apply nth_error_snoc_old.
    - apply nth_error_snoc_new.
Qed.

Lemma alloc_array_preserved h a :
    heap_preserved h (fst (alloc_array h a)) /\
    read_array (fst (alloc_array h a)) (snd (alloc_array h a)) = Some a.
Proof.
    unfold heap_preserved, alloc_array, read_map, read_array; simpl.
    repeat split; auto.
    - intros l x H. now apply nth_error_snoc_old.
    - apply nth_error_snoc_new.
Qed.

Lemma list_update_snoc {A : Type} (l : list A) (a b : A) :
    list_update (l ++ [a]) (List.length l) b = l ++ [b].
Proof. induction l as [|x l IH]; simpl; auto. now rewrite IH. Qed.

  (** The store and the reference [addNode] returns, spelled out. *)
Lemma addNode_fresh h g n gm ga :
    read_map h (nodes_ref g) = Some gm ->
    read_array h (edges_ref g) = Some ga ->
    map_has (node_id n) gm = false ->
    addNode h g n =
    ({| heap_maps := heap_maps h ++ [map_set (node_id n) n gm];
        heap_arrays := heap_arrays h ++ [ga] |},
     Normal {| nodes_ref := List.length (heap_maps h);
               edges_ref := List.length (heap_arrays h) |}).
Proof.
    intros Hm Ha Hhas. unfold addNode. rewrite Hm, Ha. simpl. rewrite Hhas.
    unfold store_map_set, read_map. simpl.
    rewrite nth_error_snoc_new. simpl. now rewrite list_update_snoc.
Qed.

Lemma addNode_duplicate h g n gm ga :
    read_map h (nodes_ref g) = Some gm ->
    read_array h (edges_ref g) = Some ga ->
    map_has (node_id n) gm = true ->
    addNode h g n =
    ({| heap_maps := heap_maps h ++ [gm]; heap_arrays := heap_arrays h |},
     Throw (DuplicateNodeId (node_id n))).
Proof.
    intros Hm Ha Hhas. unfold addNode. rewrite Hm, Ha. simpl.
    now rewrite Hhas.
Qed.

Lemma heap_preserved_grow h ms ars :
    heap_preserved h {| heap_maps := heap_maps h ++ ms;
                        heap_arrays := heap_arrays h ++ ars |}.
Proof.
    split; unfold read_map, read_array; simpl; intros l x H;
      (rewrite nth_error_app1; [exact H|]);
      apply nth_error_Some; congruence.
Qed.

  (** C9: [addNode(g, n)] leaves every map and array of the store, hence
      [g] and the size of [g.nodes], unchanged; when [n.id] is not a key of
      [g.nodes] it returns a new graph whose node map has exactly one entry
      more (the node under its id, the edges copied), and when [n.id] is
      already a key it throws the duplicate-id error. *)
Theorem addNode_frame_and_size (h : Heap) (g : GraphRef)
      (n : NodeDefinition) (v : Graph) :
    deref h g = Some v ->
    heap_preserved h (fst (addNode h g n)) /\
    deref (fst (addNode h g n)) g = Some v /\
    (map_has (node_id n) (nodes v) = false ->
       exists g' v',
         snd (addNode h g n) = Normal g' /\
         deref (fst (addNode h g n)) g' = Some v' /\
         map_size (nodes v') = S (map_size (nodes v)) /\
         map_get (node_id n) (nodes v') = Some n /\
         edges v' = edges v) /\
    (map_has (node_id n) (nodes v) = true ->
       snd (addNode h g n) = Throw (DuplicateNodeId (node_id n))).
Proof.
    intros Hd. unfold deref in Hd.
    destruct (read_map h (nodes_ref g)) as [gm|] eqn:Hm; [|discriminate].
    destruct (read_array h (edges_ref g)) as [ga|] eqn:Ha; [|discriminate].
    inversion Hd; subst v; clear Hd. simpl.
    assert (Hpres : heap_preserved h (fst (addNode h g n))).
    { destruct (map_has (node_id n) gm) eqn:Hhas.
      - rewrite (addNode_duplicate _ _ _ Hm Ha Hhas). simpl.
        pose proof (heap_preserved_grow h [gm] []) as P.
        now rewrite app_nil_r in P.
      - rewrite (addNode_fresh _ _ _ Hm Ha Hhas). simpl.
        apply heap_preserved_grow. }
    split; [exact Hpres|]. split.
    { destruct Hpres as [PM PA]. unfold deref.
      now rewrite (PM _ _ Hm), (PA _ _ Ha). }
    split; intros Hhas.
    - rewrite (addNode_fresh _ _ _ Hm Ha Hhas). simpl.
      eexists. exists {| nodes := map_set (node_id n) n gm; edges := ga |}.
      split; [reflexivity|]. unfold deref, read_map, read_array. simpl.
      rewrite !nth_error_snoc_new. split; [reflexivity|].
      split; [|split; [apply map_get_set_same|reflexivity]].
      apply map_set_size_absent. unfold map_has in Hhas.
      destruct (map_get (node_id n) gm); congruence.
    - now rewrite (addNode_duplicate _ _ _ Hm Ha Hhas).
Qed.

End GraphStore.

Lemma addNode_frame_and_size_witness :
  deref heap_A graph_A_ref = Some graph_A /\
  deref (fst (addNode heap_A graph_A_ref (constantNode "B" 2))) graph_A_ref
  = Some graph_A.
Proof.
  split; [reflexivity|].
  exact (proj1 (proj2 (addNode_frame_and_size heap_A graph_A_ref
                         (constantNode "B" 2) eq_refl))).
Defined.

(** ** Back-edge defaults: [getBackEdgeValues] *)

Section BackEdgeValues.
Context {N : JSNumber}.

Lemma map_set_keeps_bound {V : Type} (m : JSMap V) k k' v :
    map_get k' m <> None -> map_get k' (map_set k v m) <> None.
Proof.
    intros H. destruct (String.eqb k k') eqn:E.
    - apply String.eqb_eq in E. subst. rewrite map_get_set_same. discriminate.
    - apply String.eqb_neq in E. now rewrite map_get_set_other.
Qed.

Section Scan.
Variable previous : Results.

    (** Every binding of the accumulator stems from a numeric field. *)
Let sound (acc : JSMap num) : Prop :=
      forall k v, map_get k acc = Some v -> numeric_field previous k v.

Lemma scanFields_sound nodeId fields acc :
      (forall f v, In (f, VNum v) fields ->
                   numeric_field previous (nodeId ++ "." ++ f)%string v) ->
      sound acc -> sound (scanFields nodeId fields acc).
Proof.
      unfold scanFields. revert acc.
      induction fields as [|[f x] fields IH]; intros acc Hin Hacc; simpl; auto.
      apply IH.
      - intros; apply Hin; now right.
      - destruct x; auto. intros k v Hk.
        destruct (String.eqb (nodeId ++ "." ++ f) k) eqn:E.
        + apply String.eqb_eq in E. subst k.
          rewrite map_get_set_same in Hk. inversion Hk; subst.
          apply Hin. now left.
        + apply String.eqb_neq in E.
          rewrite map_get_set_other in Hk by assumption. auto.
Qed.

Lemma scanEntries_sound entries acc :
      incl entries previous -> sound acc ->
      sound (fold_left
               (fun acc (entry : NodeId * JSValue) =>
                  match snd entry with
                  | VObj fields => scanFields (fst entry) fields acc
                  | _ => acc
                  end) entries acc).
Proof.
      revert acc.
      induction entries as [|[nodeId out] entries IH]; intros acc Hin Hacc;
        simpl; auto.
      apply IH.
      - intros e He. apply Hin. now right.
      - destruct out; auto. apply scanFields_sound; auto.
        intros f v Hf. exists nodeId, fields, f. repeat split; auto.
        apply Hin. now left.
Qed.

Lemma scanFields_keeps nodeId fields acc k :
      map_get k acc <> None ->
      map_get k (scanFields nodeId fields acc) <> None.
Proof.
      unfold scanFields. revert acc.
      induction fields as [|[f x] fields IH]; intros acc H; simpl; auto.
      apply IH. destruct x; auto. now apply map_set_keeps_bound.
Qed.

Lemma scanFields_binds nodeId fields acc f v :
      In (f, VNum v) fields ->
      map_get (nodeId ++ "." ++ f)%string (scanFields nodeId fields acc)
      <> None.
Proof.
      revert acc.
      induction fields as [|[f' x] fields IH]; intros acc Hin; [contradiction|].
      destruct Hin as [Heq|Hin].
      - inversion Heq; subst.
        change (scanFields nodeId ((f, VNum v) :: fields) acc)
          with (scanFields nodeId fields
                  (map_set (nodeId ++ "." ++ f)%string v acc)).
        apply scanFields_keeps. rewrite map_get_set_same. discriminate.
      - change (scanFields nodeId ((f', x) :: fields) acc)
          with (scanFields nodeId fields
                  (match x with
                   | VNum value =>
                       map_set (nodeId ++ "." ++ f')%string value acc
                   | _ => acc
                   end)).
        now apply IH.
Qed.

Lemma scanEntries_keeps (entries : Results) acc k :
      map_get k acc <> None ->
      map_get k (fold_left
                   (fun acc (entry : NodeId * JSValue) =>
                      match snd entry with
                      | VObj fields => scanFields (fst entry) fields acc
                      | _ => acc
                      end) entries acc) <> None.
Proof.
      revert acc.
      induction entries as [|[nodeId out] entries IH]; intros acc H; simpl;
        auto.
      apply IH. destruct out; auto. now apply scanFields_keeps.
Qed.

Lemma scanEntries_binds (entries : Results) acc nodeId fields f v :
      In (nodeId, VObj fields) entries -> In (f, VNum v) fields ->
      map_get (nodeId ++ "." ++ f)%string
              (fold_left
                 (fun acc (entry : NodeId * JSValue) =>
                    match snd entry with
                    | VObj fields => scanFields (fst entry) fields acc
                    | _ => acc
                    end) entries acc) <> None.
Proof.
      revert acc.
      induction entries as [|[n' out] entries IH]; intros acc Hin Hf;
        [contradiction|].
      destruct Hin as [Heq|Hin]; simpl.
      - inversion Heq; subst. apply scanEntries_keeps.
        eapply scanFields_binds; eauto.
      - now apply IH.
Qed.

Lemma scanResults_sound k v :
      map_get k (scanResults previous) = Some v -> numeric_field previous k v.
Proof.
      unfold scanResults. apply scanEntries_sound.
      - apply incl_refl.
      - intros k' v' H. discriminate.
Qed.

Lemma scanResults_bound k v :
      numeric_field previous k v ->
      exists v', map_get k (scanResults previous) = Some v'.
Proof.
      intros (nodeId & fields & f & Hn & Hf & ->).
      pose proof (scanEntries_binds previous [] _ _ _ _ Hn Hf) as H.
      unfold scanResults.
      destruct (map_get _ _) as [v'|]; [eauto|contradiction].
Qed.
End Scan.

  (** C8 (as amended): both strategies compute the same back-edge defaults;
      the mapping is empty on iteration 1 or without previous outputs; from
      iteration 2 on every binding ["nodeId.fieldName" -> v] of the result
      stems from a numeric field [v] of a previous output object, every such
      key is bound, and it is bound to that very value whenever no two
      (node, field) pairs spell the same key with different values. *)
Theorem getBackEdgeValues_scan (iteration : nat)
      (previousResults : option Results) :
    ConvergenceStrategy_getBackEdgeValues iteration previousResults
    = MultiPassStrategy_getBackEdgeValues iteration previousResults /\
    (iteration = 1 \/ previousResults = None ->
     MultiPassStrategy_getBackEdgeValues iteration previousResults = []) /\
    (forall previous,
        2 <= iteration -> previousResults = Some previous ->
        (forall key v,
            map_get key
              (MultiPassStrategy_getBackEdgeValues iteration previousResults)
            = Some v ->
            numeric_field previous key v) /\
        (forall key v,
            numeric_field previous key v ->
            exists v',
              map_get key
                (MultiPassStrategy_getBackEdgeValues iteration previousResults)
              = Some v') /\
        (collision_free previous ->
         forall key v,
           numeric_field previous key v <->
           map_get key
             (MultiPassStrategy_getBackEdgeValues iteration previousResults)
           = Some v)).
Proof.
    split; [reflexivity|]. split.
    - unfold MultiPassStrategy_getBackEdgeValues.
      intros [->| ->]; [reflexivity|]. now destruct (iteration =? 1).
    - intros previous Hit ->. unfold MultiPassStrategy_getBackEdgeValues.
      destruct (iteration =? 1) eqn:E; [apply Nat.eqb_eq in E; lia|].
      split; [apply scanResults_sound|]. split; [apply scanResults_bound|].
      intros Hfree key v. split.
      + intros Hnf. destruct (scanResults_bound Hnf) as [v' Hv'].
        rewrite Hv'. f_equal. symmetry.
        eapply Hfree; eauto. now apply scanResults_sound.
      + apply scanResults_sound.
Qed.

End BackEdgeValues.

Section BackEdgeRuns.
#[local] Existing Instance ZNumber.

Lemma getBackEdgeValues_scan_witness :
  2 <= 2 /\
  map_get "B.delta" (MultiPassStrategy_getBackEdgeValues 2 (Some plain_results))
  = Some 10%Z.
Proof.
  split; [lia|].
  assert (Hfree : collision_free plain_results).
  { intros key v v' (n1 & f1 & x1 & Hn1 & Hf1 & ->) (n2 & f2 & x2 & Hn2 & Hf2 & E).
    simpl in Hn1, Hn2.
    destruct Hn1 as [H1|[H1|[]]]; inversion H1; subst; clear H1;
      (destruct Hf1 as [H1|[]]; inversion H1; subst; clear H1);
      (destruct Hn2 as [H2|[H2|[]]]; inversion H2; subst; clear H2);
      (destruct Hf2 as [H2|[]]; inversion H2; subst; clear H2);
      try reflexivity; discriminate E. }
  apply (proj1 (proj2 (proj2 (proj2 (proj2
           (getBackEdgeValues_scan 2 (Some plain_results)))
           plain_results (le_n 2) eq_refl)) Hfree _ _)).
  exists "B", [("delta", @VNum ZNumber 10%Z)], "delta".
  simpl. auto.
Defined.

Lemma getBackEdgeValues_key_collision :
  ~ (forall key v,
        numeric_field colliding_results key v ->
        map_get key
          (MultiPassStrategy_getBackEdgeValues 2 (Some colliding_results))
        = Some v).
Proof.
  intros H.
  assert (Hnf : numeric_field colliding_results "a.b.c" 1%Z).
  { exists "a.b", [("c", @VNum ZNumber 1%Z)], "c". simpl. auto. }
  specialize (H _ _ Hnf). vm_compute in H. discriminate H.
Qed.

End BackEdgeRuns.

(** ** Input gathering: [gatherInputs] *)

Section GatherInputs.
Context {N : JSNumber}.

Lemma map_get_writeInput_other name name' v (r : InputRecord) :
  name' <> name -> map_get name (writeInput name' v r) = map_get name r.
Proof.
  intros H. unfold writeInput.
  destruct (proto_accessor name'); [reflexivity|].
  now apply map_get_set_other.
Qed.

Lemma map_get_writeInput_same name v (r : InputRecord) :
  map_get name (writeInput name v r) =
  if proto_accessor name then map_get name r else Some v.
Proof.
  unfold writeInput. destruct (proto_accessor name); [reflexivity|].
  apply map_get_set_same.
Qed.

Lemma map_get_accumulate name name' v (r : InputRecord) :
  map_get name (accumulate name' v r) =
  if String.eqb name' name then added name (map_get name r) v
  else map_get name r.
Proof.
  unfold accumulate, readInput, added.
  destruct (String.eqb name' name) eqn:E.
  - apply String.eqb_eq in E. subst name'.
    destruct (map_get name r) as [[old|member appended]|] eqn:G.
    + rewrite map_get_writeInput_same, G. reflexivity.
    + rewrite map_get_writeInput_same, G. reflexivity.
    + destruct (on_prototype name);
        rewrite map_get_writeInput_same, G; reflexivity.
  - apply String.eqb_neq in E.
    destruct (map_get name' r) as [[old|member appended]|];
      [| |destruct (on_prototype name')];
      now apply map_get_writeInput_other.
Qed.

Lemma on_prototype_accessor name :
  on_prototype name = false -> proto_accessor name = false.
Proof.
  unfold proto_accessor. intros H.
  destruct (String.eqb name "__proto__") eqn:E; [|reflexivity].
  apply String.eqb_eq in E. subst name. vm_compute in H. discriminate H.
Qed.

Lemma proto_accessor_false name :
  name <> "__proto__" -> proto_accessor name = false.
Proof. intros H. now apply String.eqb_neq. Qed.

(** Numbers added to a number give their sum. *)
Lemma added_numbers name vs :
  proto_accessor name = false ->
  forall a,
    fold_left (added name) vs (Some (InNumber a))
    = Some (InNumber (fold_left num_add vs a)).
Proof.
  intros Hp. induction vs as [|v vs IH]; intros a; simpl; [reflexivity|].
  unfold added at 2. rewrite Hp. apply IH.
Qed.

(** Numbers added to a text are appended to it. *)
Lemma added_texts name vs :
  proto_accessor name = false ->
  forall member appended,
    fold_left (added name) vs (Some (InText member appended))
    = Some (InText member (appended ++ vs)).
Proof.
  intros Hp. induction vs as [|v vs IH]; intros member appended; simpl.
  - now rewrite app_nil_r.
  - unfold added at 2. rewrite Hp, IH, <- app_assoc. reflexivity.
Qed.

(** Whatever is added under [__proto__] leaves the entry as it was. *)
Lemma added_accessor name vs entry :
  proto_accessor name = true -> fold_left (added name) vs entry = entry.
Proof.
  intros Hp. induction vs as [|v vs IH]; simpl; [reflexivity|].
  unfold added at 2. now rewrite Hp.
Qed.

(** Away from [__proto__] an entry exists once something was added. *)
Lemma added_some name vs entry :
  proto_accessor name = false ->
  (fold_left (added name) vs entry <> None <-> entry <> None \/ vs <> []).
Proof.
  intros Hp. revert entry. induction vs as [|v vs IH]; intros entry; simpl.
  - split; [auto|]. intros [H|H]; [exact H|contradiction].
  - rewrite IH. split; [intros _; right; discriminate|]. intros _. left.
    unfold added. rewrite Hp.
    destruct entry as [[old|member appended]|];
      [| |destruct (on_prototype name)]; discriminate.
Qed.

Section Loop.
Variables (node : NodeDefinition) (graph : Graph) (currentOutputs : Results)
          (backEdgeValues : JSMap num) (executionOrder : list NodeId)
          (currentNodeIndex : Z).

(** The value the loop resolves for one edge. *)
Let contribution (edge : Edge) : num :=
  resolveEdge graph currentOutputs backEdgeValues currentNodeIndex
              (indexOf executionOrder (fromNodeId edge)) edge.

(** What the loop leaves under [name]: the entry it found, to which the
    contributions of the edges delivered there were added from left to
    right. *)
Lemma gatherLoop_entry name :
  forall incoming acc r,
    gatherLoop node graph currentOutputs backEdgeValues executionOrder
               currentNodeIndex incoming acc = Normal r ->
    map_get name r =
    fold_left (added name)
              (map contribution (filter (feeds node name) incoming))
              (map_get name acc).
Proof.
  induction incoming as [|edge rest IH]; intros acc r H; simpl in H.
  - inversion H; subst. reflexivity.
  - simpl. unfold feeds at 1.
    destruct (findPort (inputs node) (toPortId edge)) as [inputPort|] eqn:P.
    + destruct (indexOf executionOrder (fromNodeId edge) =? -1)%Z;
        [discriminate|].
      specialize (IH _ _ H). rewrite IH. rewrite map_get_accumulate.
      destruct (String.eqb (port_name inputPort) name) eqn:E; reflexivity.
    + apply (IH _ _ H).
Qed.

(** The loop throws exactly when an edge into an existing input port has
    an unscheduled source, and then names that source. *)
Lemma gatherLoop_throw :
  forall incoming acc e,
    gatherLoop node graph currentOutputs backEdgeValues executionOrder
               currentNodeIndex incoming acc = Throw e ->
    exists edge inputPort,
      In edge incoming /\
      findPort (inputs node) (toPortId edge) = Some inputPort /\
      indexOf executionOrder (fromNodeId edge) = (-1)%Z /\
      e = SourceNotInOrder (fromNodeId edge).
Proof.
  induction incoming as [|edge rest IH]; intros acc e H; simpl in H;
    [discriminate|].
  destruct (findPort (inputs node) (toPortId edge)) as [inputPort|] eqn:P.
  - destruct (indexOf executionOrder (fromNodeId edge) =? -1)%Z eqn:E.
    + inversion H; subst. apply Z.eqb_eq in E.
      exists edge, inputPort. simpl; auto.
    + destruct (IH _ _ H) as (ed & ip & Hin & rest').
      exists ed, ip. simpl; auto.
  - destruct (IH _ _ H) as (ed & ip & Hin & rest').
    exists ed, ip. simpl; auto.
Qed.

Lemma gatherLoop_normal :
  forall incoming acc,
    (forall edge inputPort,
        In edge incoming ->
        findPort (inputs node) (toPortId edge) = Some inputPort ->
        indexOf executionOrder (fromNodeId edge) <> (-1)%Z) ->
    exists r,
      gatherLoop node graph currentOutputs backEdgeValues executionOrder
                 currentNodeIndex incoming acc = Normal r.
Proof.
  induction incoming as [|edge rest IH]; intros acc H; simpl; [eauto|].
  destruct (findPort (inputs node) (toPortId edge)) as [inputPort|] eqn:P.
  - destruct (indexOf executionOrder (fromNodeId edge) =? -1)%Z eqn:E.
    + apply Z.eqb_eq in E. exfalso. eapply H; eauto. now left.
    + apply IH. intros; eapply H; eauto. now right.
  - apply IH. intros; eapply H; eauto. now right.
Qed.
End Loop.

Lemma indexOf_from_ge order x i :
  indexOf_from order x i = (-1)%Z \/ (i <= indexOf_from order x i)%Z.
Proof.
  revert i. induction order as [|y rest IH]; intros i; simpl; auto.
  destruct (String.eqb y x); [right; lia|].
  destruct (IH (i + 1)%Z); [auto|right; lia].
Qed.

Lemma indexOf_from_absent order x i :
  (0 <= i)%Z -> (indexOf_from order x i = (-1)%Z <-> ~ In x order).
Proof.
  revert i. induction order as [|y rest IH]; intros i Hi; simpl.
  - tauto.
  - destruct (String.eqb y x) eqn:E.
    + apply String.eqb_eq in E. subst. split; [lia|tauto].
    + apply String.eqb_neq in E. rewrite IH by lia. tauto.
Qed.

Lemma indexOf_absent order x : indexOf order x = (-1)%Z <-> ~ In x order.
Proof. apply indexOf_from_absent. lia. Qed.

Lemma In_incomingEdgesOf graph nodeId edge :
  In edge (incomingEdgesOf graph nodeId) <->
  In edge (edges graph) /\ toNodeId edge = nodeId.
Proof.
  unfold incomingEdgesOf. rewrite filter_In.
  now rewrite String.eqb_eq.
Qed.

Lemma feedingEdges_nonempty graph nodeId node name :
  feedingEdges graph nodeId node name <> [] <->
  exists edge inputPort,
    In edge (edges graph) /\ toNodeId edge = nodeId /\
    findPort (inputs node) (toPortId edge) = Some inputPort /\
    port_name inputPort = name.
Proof.
  unfold feedingEdges. split.
  - intros H.
    destruct (filter (feeds node name) (incomingEdgesOf graph nodeId))
      as [|edge l] eqn:F; [contradiction|].
    assert (Hin : In edge (filter (feeds node name)
                             (incomingEdgesOf graph nodeId)))
      by (rewrite F; now left).
    apply filter_In in Hin. destruct Hin as [Hin Hf].
    apply In_incomingEdgesOf in Hin. destruct Hin as [Hin Hto].
    unfold feeds in Hf.
    destruct (findPort (inputs node) (toPortId edge)) as [p|] eqn:P;
      [|discriminate].
    apply String.eqb_eq in Hf. exists edge, p. auto.
  - intros (edge & p & Hin & Hto & P & Hn) F.
    assert (Hin' : In edge (filter (feeds node name)
                              (incomingEdgesOf graph nodeId))).
    { apply filter_In. split; [now apply In_incomingEdgesOf|].
      unfold feeds. rewrite P. now apply String.eqb_eq. }
    rewrite F in Hin'. contradiction.
Qed.

(** When a single input port carries a name, the edges delivered under
    the name are the edges that target that port. *)
Lemma feedingEdges_sole_port graph nodeId node name portId :
  sole_port node name portId ->
  feedingEdges graph nodeId node name = edgesInto graph nodeId portId.
Proof.
  intros [(inputPort & Hfind & Hname) Hsole].
  unfold feedingEdges, edgesInto. apply filter_ext. intros edge.
  unfold feeds.
  destruct (String.eqb (toPortId edge) portId) eqn:E.
  - apply String.eqb_eq in E. rewrite E, Hfind. now apply String.eqb_eq.
  - destruct (findPort (inputs node) (toPortId edge)) as [p|] eqn:P;
      [|reflexivity].
    unfold findPort in P. apply find_some in P. destruct P as [Hin Hid].
    apply String.eqb_eq in Hid.
    destruct (String.eqb (port_name p) name) eqn:En; [|reflexivity].
    apply String.eqb_eq in En. apply String.eqb_neq in E.
    exfalso. apply E. rewrite <- Hid. now apply Hsole.
Qed.

(** C7 (as amended): when [gatherInputs] returns, under a name that
    [Object.prototype] does not define and under which at least one edge is
    delivered, the input record holds the number summed, from 0 and in edge
    order, from the values individually resolved for the edges delivered
    under that name (each by the forward/back-edge rule of [resolveEdge]);
    these are the edges that target any input port of the node carrying
    the name, hence the edges into the port when a single input port
    carries it. *)
Theorem gatherInputs_fan_in_sum (nodeId : NodeId) (node : NodeDefinition)
    (graph : Graph) (currentOutputs : Results) (backEdgeValues : JSMap num)
    (executionOrder : list NodeId) (inputValues : InputRecord)
    (name : string) :
  gatherInputs nodeId node graph currentOutputs backEdgeValues executionOrder
  = Normal inputValues ->
  on_prototype name = false ->
  1 <= List.length (feedingEdges graph nodeId node name) ->
  map_get name inputValues =
  Some (InNumber
          (fold_left num_add
             (map (fun edge =>
                     resolveEdge graph currentOutputs backEdgeValues
                       (indexOf executionOrder nodeId)
                       (indexOf executionOrder (fromNodeId edge)) edge)
                  (feedingEdges graph nodeId node name))
             num_zero)) /\
  (forall portId,
      sole_port node name portId ->
      feedingEdges graph nodeId node name = edgesInto graph nodeId portId).
Proof.
  unfold gatherInputs. intros H Hname Hk.
  split; [|intros portId; apply feedingEdges_sole_port].
  destruct (indexOf executionOrder nodeId =? -1)%Z; [discriminate|].
  rewrite (gatherLoop_entry _ _ _ _ _ _ name _ _ H).
  fold (feedingEdges graph nodeId node name).
  destruct (feedingEdges graph nodeId node name) as [|edge fed];
    [simpl in Hk; lia|].
  pose proof (on_prototype_accessor name Hname) as Hp.
  cbn [map fold_left map_get]. unfold added at 2. rewrite Hp, Hname.
  apply (added_numbers name _ Hp).
Qed.

(** C10 (as amended): when [gatherInputs] returns, the input record has an
    entry under a name other than [__proto__] exactly when some edge of the
    graph targets the node at the id of one of its input ports carrying
    that name; a name no edge is delivered under gets no entry, and unless
    [Object.prototype] defines the name the node reads [undefined] there,
    not a 0. *)
Theorem gatherInputs_keys (nodeId : NodeId) (node : NodeDefinition)
    (graph : Graph) (currentOutputs : Results) (backEdgeValues : JSMap num)
    (executionOrder : list NodeId) (inputValues : InputRecord)
    (name : string) :
  gatherInputs nodeId node graph currentOutputs backEdgeValues executionOrder
  = Normal inputValues ->
  (name <> "__proto__" ->
   (map_get name inputValues <> None <->
    exists edge inputPort,
      In edge (edges graph) /\ toNodeId edge = nodeId /\
      findPort (inputs node) (toPortId edge) = Some inputPort /\
      port_name inputPort = name)) /\
  ((forall edge, In edge (edges graph) -> toNodeId edge = nodeId ->
                 feeds node name edge = false) ->
   map_get name inputValues = None /\
   (on_prototype name = false ->
    readInput name inputValues = ReadUndefined)).
Proof.
  unfold gatherInputs. intros H.
  destruct (indexOf executionOrder nodeId =? -1)%Z; [discriminate|].
  pose proof (gatherLoop_entry _ _ _ _ _ _ name _ _ H) as E.
  fold (feedingEdges graph nodeId node name) in E. cbn [map_get] in E.
  split.
  - intros Hname. rewrite <- feedingEdges_nonempty. rewrite E.
    rewrite (@added_some name _ None (@proto_accessor_false name Hname)).
    split.
    + intros [F|F]; [congruence|].
      intros F'. rewrite F' in F. now apply F.
    + intros F. right. intros F'. apply F.
      destruct (feedingEdges graph nodeId node name); [reflexivity|].
      discriminate F'.
  - intros Hno.
    assert (F : feedingEdges graph nodeId node name = []).
    { destruct (feedingEdges graph nodeId node name) as [|edge l] eqn:F;
        [reflexivity|].
      assert (Hin : In edge (feedingEdges graph nodeId node name))
        by (rewrite F; now left).
      unfold feedingEdges in Hin. apply filter_In in Hin.
      destruct Hin as [Hin Hf]. apply In_incomingEdgesOf in Hin.
      destruct Hin as [Hin Hto]. rewrite (Hno _ Hin Hto) in Hf.
      discriminate. }
    rewrite F in E. simpl in E. split; [exact E|].
    intros Hname. unfold readInput. now rewrite E, Hname.
Qed.

(** C1 (as amended): an edge whose source is scheduled strictly after the
    node under evaluation is a back edge and resolves to
    [backEdgeValues["from.port"] ?? 0]; an edge whose source is scheduled at
    the node's own position (a self-loop) or before it follows the forward
    rule, which yields 0 whenever the source has no entry yet in the current
    iteration's results. *)
Theorem resolveEdge_back_and_self (graph : Graph) (currentOutputs : Results)
    (backEdgeValues : JSMap num) (idx srcIdx : Z) (edge : Edge) :
  ((srcIdx > idx)%Z ->
   resolveEdge graph currentOutputs backEdgeValues idx srcIdx edge
   = or_zero (map_get (backEdgeKey edge) backEdgeValues)) /\
  ((srcIdx <= idx)%Z ->
   map_get (fromNodeId edge) currentOutputs = None ->
   resolveEdge graph currentOutputs backEdgeValues idx srcIdx edge
   = num_zero).
Proof.
  unfold resolveEdge. split.
  - intros H. apply Z.gt_lt, Z.gtb_lt in H. now rewrite H.
  - intros H Hcur.
    destruct (srcIdx >? idx)%Z eqn:E; [apply Z.gtb_lt in E; lia|].
    now rewrite Hcur.
Qed.

End GatherInputs.

(** ** Deciding consistency on a concrete graph *)

Section ConsistentCheck.
Context {N : JSNumber}.

Lemma existsb_eqb_In (x : string) (l : list string) :
  existsb (String.eqb x) l = true <-> In x l.
Proof.
  rewrite existsb_exists. split.
  - intros (y & Hy & E). apply String.eqb_eq in E. now subst.
  - intros H. exists x. split; auto. apply String.eqb_refl.
Qed.

Lemma fatal_atb_sound graph order nodeId :
  fatal_at graph order nodeId -> fatal_atb graph order nodeId = true.
Proof.
  unfold fatal_at, fatal_atb.
  intros [H|(node & edge & p & G & Hedge & Hto & Hp & Hsrc)].
  - now rewrite H.
  - rewrite G. apply existsb_exists. exists edge. split; auto.
    rewrite Hp. rewrite (proj2 (String.eqb_eq _ _) Hto). simpl.
    destruct (existsb (String.eqb (fromNodeId edge)) order) eqn:E; auto.
    apply existsb_eqb_In in E. contradiction.
Qed.

Lemma consistentb_sound graph order :
  consistentb graph order = true -> consistent graph order.
Proof.
  unfold consistentb, consistent. intros H nodeId Hin F.
  rewrite forallb_forall in H. specialize (H _ Hin).
  now rewrite (fatal_atb_sound F) in H.
Qed.

End ConsistentCheck.

(** ** The node loop of [execute] and its fatal conditions *)

Section NodeLoop.
Context {N : JSNumber}.

Variables (graph : Graph) (order : list NodeId).

Lemma gatherLoop_normal_inv node currentOutputs backEdgeValues idx :
  forall incoming acc r,
    gatherLoop node graph currentOutputs backEdgeValues order idx incoming acc
    = Normal r ->
    forall edge inputPort,
      In edge incoming ->
      findPort (inputs node) (toPortId edge) = Some inputPort ->
      In (fromNodeId edge) order.
Proof.
  induction incoming as [|e rest IH]; intros acc r H edge p Hin Hp;
    [contradiction|].
  simpl in H. destruct Hin as [->|Hin].
  - rewrite Hp in H.
    destruct (indexOf order (fromNodeId edge) =? -1)%Z eqn:E; [discriminate|].
    apply Z.eqb_neq in E.
    destruct (in_dec string_dec (fromNodeId edge) order) as [|Hn]; auto.
    apply indexOf_absent in Hn. contradiction.
  - destruct (findPort (inputs node) (toPortId e)).
    + destruct (indexOf order (fromNodeId e) =? -1)%Z; [discriminate|].
      eapply IH; eauto.
    + eapply IH; eauto.
Qed.

Lemma executeNode_throw iteration backEdgeValues ls nodeId e :
  In nodeId order ->
  executeNode graph iteration backEdgeValues order ls nodeId = Throw e ->
  names_missing_id graph order e.
Proof.
  intros Hin H. unfold executeNode in H.
  destruct (map_get nodeId (nodes graph)) as [node|] eqn:G.
  - unfold gatherInputs in H.
    destruct (indexOf order nodeId =? -1)%Z eqn:E.
    { apply Z.eqb_eq, indexOf_absent in E. contradiction. }
    destruct (gatherLoop _ _ _ _ _ _ _ _) as [r|e'] eqn:L; simpl in H.
    + destruct (calculate _ _ _ _ _). discriminate.
    + inversion H; subst e'.
      destruct (gatherLoop_throw _ _ _ _ _ _ _ _ L)
        as (edge & p & Hedge & Hp & Hidx & ->).
      apply In_incomingEdgesOf in Hedge. destruct Hedge as [Hedge _].
      simpl. split; [eauto|]. now apply indexOf_absent.
  - inversion H; subst. simpl. auto.
Qed.

Lemma executeNode_normal_inv iteration backEdgeValues ls nodeId ls' :
  executeNode graph iteration backEdgeValues order ls nodeId = Normal ls' ->
  ~ fatal_at graph order nodeId.
Proof.
  intros H F. unfold executeNode in H.
  destruct F as [F|(node & edge & p & G & Hedge & Hto & Hp & Hsrc)].
  - rewrite F in H. discriminate.
  - rewrite G in H. unfold gatherInputs in H.
    destruct (indexOf order nodeId =? -1)%Z; [discriminate|].
    destruct (gatherLoop _ _ _ _ _ _ _ _) as [r|e'] eqn:L; [|discriminate].
    apply Hsrc. eapply gatherLoop_normal_inv; eauto.
    now apply In_incomingEdgesOf.
Qed.

Lemma executeNode_normal iteration backEdgeValues ls nodeId :
  In nodeId order -> ~ fatal_at graph order nodeId ->
  exists ls',
    executeNode graph iteration backEdgeValues order ls nodeId = Normal ls'.
Proof.
  intros Hin F. unfold executeNode, fatal_at in *.
  destruct (map_get nodeId (nodes graph)) as [node|] eqn:G; [|tauto].
  unfold gatherInputs.
  destruct (indexOf order nodeId =? -1)%Z eqn:E.
  { apply Z.eqb_eq, indexOf_absent in E. contradiction. }
  destruct (gatherLoop_normal node graph (currentResults ls) backEdgeValues
              order (indexOf order nodeId) (incomingEdgesOf graph nodeId) [])
    as [r Hr].
  - intros edge p Hedge Hp Hidx. apply In_incomingEdgesOf in Hedge.
    destruct Hedge as [Hedge Hto]. apply indexOf_absent in Hidx.
    apply F. right. exists node, edge, p. auto.
  - rewrite Hr. simpl. destruct (calculate _ _ _ _ _). eauto.
Qed.

Lemma executeNodes_throw iteration backEdgeValues :
  forall todo ls e,
    incl todo order ->
    executeNodes graph iteration backEdgeValues order todo ls = Throw e ->
    names_missing_id graph order e.
Proof.
  induction todo as [|nodeId rest IH]; intros ls e Hincl H; simpl in H;
    [discriminate|].
  destruct (executeNode graph iteration backEdgeValues order ls nodeId)
    as [ls'|e'] eqn:E; simpl in H.
  - eapply IH; eauto. intros x Hx. apply Hincl. now right.
  - inversion H; subst. eapply executeNode_throw; eauto.
    apply Hincl. now left.
Qed.

Lemma executeNodes_normal_inv iteration backEdgeValues :
  forall todo ls ls',
    executeNodes graph iteration backEdgeValues order todo ls = Normal ls' ->
    forall nodeId, In nodeId todo -> ~ fatal_at graph order nodeId.
Proof.
  induction todo as [|n rest IH]; intros ls ls' H nodeId Hin;
    [contradiction|].
  simpl in H.
  destruct (executeNode graph iteration backEdgeValues order ls n)
    as [ls1|e'] eqn:E; simpl in H; [|discriminate].
  destruct Hin as [->|Hin].
  - eapply executeNode_normal_inv; eauto.
  - eapply IH; eauto.
Qed.

Lemma executeNodes_normal iteration backEdgeValues :
  forall todo ls,
    incl todo order ->
    (forall nodeId, In nodeId todo -> ~ fatal_at graph order nodeId) ->
    exists ls',
      executeNodes graph iteration backEdgeValues order todo ls = Normal ls'.
Proof.
  induction todo as [|n rest IH]; intros ls Hincl Hok; simpl; [eauto|].
  destruct (@executeNode_normal iteration backEdgeValues ls n) as [ls1 E].
  - apply Hincl. now left.
  - apply Hok. now left.
  - rewrite E. simpl. apply IH.
    + intros x Hx. apply Hincl. now right.
    + intros x Hx. apply Hok. now right.
Qed.

(** The node loop over the whole order aborts exactly when some scheduled
    node hits a fatal condition, and the error names a missing id. *)
Lemma executeNodes_fatal iteration backEdgeValues ls nodeId :
  In nodeId order -> fatal_at graph order nodeId ->
  exists e,
    executeNodes graph iteration backEdgeValues order order ls = Throw e /\
    names_missing_id graph order e.
Proof.
  intros Hin F.
  destruct (executeNodes graph iteration backEdgeValues order order ls)
    as [ls'|e] eqn:E.
  - exfalso. eapply executeNodes_normal_inv; eauto.
  - exists e. split; [reflexivity|].
    eapply executeNodes_throw; eauto. apply incl_refl.
Qed.

Lemma executeNodes_consistent iteration backEdgeValues ls :
  consistent graph order ->
  exists ls',
    executeNodes graph iteration backEdgeValues order order ls = Normal ls'.
Proof.
  intros C. apply executeNodes_normal; [apply incl_refl|exact C].
Qed.

End NodeLoop.

Section Execute.
Context {N : JSNumber}.

(** C2 (as amended): when a node id of the computed order is absent from
    the graph, or an edge into an existing input port of a scheduled node of
    the graph has a source absent from the computed order, [execute] aborts
    during its first iteration with an error naming an id that is missing
    (a scheduled id absent from the graph, or an edge source absent from the
    order). *)
Theorem execute_aborts_on_fatal_condition (strategy : IExecutionStrategy)
    (fuel : nat) (s0 : strategy_state strategy) (graph : Graph)
    (initialState : option (JSMap JSValue)) (order : list NodeId)
    (nodeId : NodeId) :
  determineExecutionOrder strategy graph = Some order ->
  1 <= fuel ->
  In nodeId order ->
  fatal_at graph order nodeId ->
  exists e,
    execute strategy fuel s0 graph initialState = Some (Throw e) /\
    names_missing_id graph order e.
Proof.
  intros Ho Hf Hin F. unfold execute.
  destruct fuel as [|fuel]; [lia|]. simpl. rewrite Ho.
  destruct (executeNodes_fatal
              1 (getBackEdgeValues strategy 1 None)
              {| stateMap := initStateMap graph initialState;
                 outputsMap := []; currentResults := [] |} Hin F)
    as (e & He & Hm).
  rewrite He. eauto.
Qed.

(** The multi-pass loop from any iteration below the bound. *)
Lemma executeLoop_multipass n graph order :
  modifiedTopologicalSort graph = Some order ->
  consistent graph order ->
  forall fuel iteration sm outs prev,
    iteration < n -> n - iteration <= fuel ->
    exists r,
      executeLoop (MultiPassStrategy n) fuel graph tt iteration sm outs prev
      = Some (Normal r) /\ iterations r = n.
Proof.
  intros Ho C. induction fuel as [|fuel IH]; intros iteration sm outs prev Hlt Hf;
    [lia|].
  simpl. rewrite Ho.
  destruct (executeNodes_consistent (S iteration)
              (MultiPassStrategy_getBackEdgeValues (S iteration) prev)
              {| stateMap := sm; outputsMap := outs; currentResults := [] |} C)
    as [ls E].
  rewrite E. unfold MultiPassStrategy_shouldContinue.
  destruct (S iteration <? n) eqn:T.
  - apply Nat.ltb_lt in T. apply IH; lia.
  - apply Nat.ltb_ge in T. eexists. split; [reflexivity|]. simpl. lia.
Qed.

(** C5 (as amended): on a graph whose computed order meets no fatal
    condition (every scheduled node is in the graph, and every edge into an
    existing input port of a scheduled node has a scheduled source),
    [execute] under [MultiPassStrategy(n)], [n >= 1], returns after exactly
    [n] iterations (once [n] rounds of the loop are allowed to run). *)
Theorem multipass_runs_exactly_n (n fuel : nat) (graph : Graph)
    (initialState : option (JSMap JSValue)) (order : list NodeId) :
  1 <= n -> n <= fuel ->
  modifiedTopologicalSort graph = Some order ->
  consistent graph order ->
  exists r,
    execute (MultiPassStrategy n) fuel tt graph initialState
    = Some (Normal r) /\ iterations r = n.
Proof.
  intros Hn Hf Ho C. unfold execute.
  apply executeLoop_multipass with (order := order); auto; lia.
Qed.

End Execute.

(** ** The convergence strategy *)

Section Convergence.
Context {N : JSNumber}.

Lemma fieldsConverged_true threshold previousOutputs :
  forall entries,
    (forall portId currentValue,
        In (portId, VNum currentValue) entries ->
        exists previousValue,
          js_get_number previousOutputs portId = Some previousValue /\
          num_geb (num_abs (num_sub currentValue previousValue)) threshold
          = false) ->
    fieldsConverged threshold entries previousOutputs = true.
Proof.
  induction entries as [|[portId value] rest IH]; intros H; [reflexivity|].
  assert (Hrest : fieldsConverged threshold rest previousOutputs = true).
  { apply IH. intros p c Hin. apply H. now right. }
  destruct value; simpl; auto.
  destruct (H portId n) as (pv & Hget & Hlt); [now left|].
  now rewrite Hget, Hlt.
Qed.

Lemma nodesConverged_true threshold previous :
  forall entries,
    (forall nodeId currentOutputs,
        In (nodeId, currentOutputs) entries ->
        exists previousFields currentFields,
          map_get nodeId previous = Some (VObj previousFields) /\
          currentOutputs = VObj currentFields /\
          forall portId currentValue,
            In (portId, VNum currentValue) currentFields ->
            exists previousValue,
              js_get_number (VObj previousFields) portId = Some previousValue
              /\ num_geb (num_abs (num_sub currentValue previousValue))
                         threshold = false) ->
    nodesConverged threshold previous entries = Normal true.
Proof.
  induction entries as [|[nodeId cur] rest IH]; intros H; [reflexivity|].
  destruct (H nodeId cur) as (pf & cf & Hp & -> & Hf); [now left|].
  simpl. rewrite Hp. simpl.
  rewrite (fieldsConverged_true _ _ _ Hf).
  apply IH. intros n c Hin. apply H. now right.
Qed.

(** Outputs that are stable in the sense of the specification are found
    converged by [checkConvergence]. *)
Lemma stabilized_converged threshold previous current :
  stabilized threshold previous current ->
  checkConvergence threshold previous current = Normal true.
Proof.
  intros [Hsize Hnodes]. unfold checkConvergence.
  rewrite (nodesConverged_true _ _ _ Hnodes). simpl.
  rewrite Hsize, Nat.eqb_refl. reflexivity.
Qed.

Lemma convergedAt_functional threshold strategy graph order init k b b' :
  convergedAt threshold strategy graph order init k b ->
  convergedAt threshold strategy graph order init k b' -> b = b'.
Proof.
  intros (p & c & Hp & Hc & H) (p' & c' & Hp' & Hc' & H').
  congruence.
Qed.

Lemma stabilizedAt_convergedAt threshold strategy graph order init k :
  stabilizedAt threshold strategy graph order init k ->
  convergedAt threshold strategy graph order init k true.
Proof.
  intros (p & c & Hp & Hc & H). exists p, c.
  repeat split; auto. now apply stabilized_converged.
Qed.

Section Loop.
Variables (threshold : num) (maxIterations : nat) (graph : Graph)
          (order : list NodeId) (initialState : option (JSMap JSValue)).

Let strategy := ConvergenceStrategy threshold maxIterations.
Let conv := convergedAt threshold strategy graph order initialState.

Hypothesis Horder : modifiedTopologicalSort graph = Some order.
Hypothesis Hconsistent : consistent graph order.

Lemma iterationState_step i ls :
  iterationState strategy graph order initialState i = Normal ls ->
  iterationState strategy graph order initialState (S i) =
  executeNodes graph (S i)
    (ConvergenceStrategy_getBackEdgeValues (S i) (previousOf i ls))
    order order
    {| stateMap := stateMap ls; outputsMap := outputsMap ls;
       currentResults := [] |}.
Proof. intros H. simpl. rewrite H. reflexivity. Qed.

Lemma iterationResults_of_state i ls :
  iterationState strategy graph order initialState i = Normal ls ->
  iterationResults strategy graph order initialState i
  = Normal (currentResults ls).
Proof. intros H. unfold iterationResults. now rewrite H. Qed.

(** The loop, resumed after iteration [i], stops at the first later
    iteration found converged, or at [maxIterations]; [bound] is an
    iteration at which it is known to stop at the latest. *)
Lemma executeLoop_convergence bound :
  bound <= maxIterations ->
  bound = maxIterations \/ (2 <= bound /\ conv bound true) ->
  forall fuel i ls,
    i < bound -> bound - i <= fuel ->
    iterationState strategy graph order initialState i = Normal ls ->
    (forall j, i < j -> j < bound -> 2 <= j -> exists b, conv j b) ->
    exists r,
      executeLoop strategy fuel graph (previousOf i ls) i
                  (stateMap ls) (outputsMap ls) (previousOf i ls)
      = Some (Normal r) /\
      i < iterations r <= bound /\
      (iterations r < maxIterations ->
       2 <= iterations r /\ conv (iterations r) true) /\
      (forall j, i < j -> j < iterations r -> 2 <= j -> conv j false).
Proof.
  intros Hbound Hstopat.
  induction fuel as [|fuel IH]; intros i ls Hlt Hfuel Hst Hconv; [lia|].
  pose proof (iterationState_step _ Hst) as Hstep.
  destruct (executeNodes_consistent (S i)
              (ConvergenceStrategy_getBackEdgeValues (S i) (previousOf i ls))
              {| stateMap := stateMap ls; outputsMap := outputsMap ls;
                 currentResults := [] |} Hconsistent) as [ls' E].
  rewrite E in Hstep.
  unfold strategy in *.
  cbn [executeLoop determineExecutionOrder getBackEdgeValues shouldContinue
       ConvergenceStrategy].
  rewrite Horder.
  rewrite E.
  unfold ConvergenceStrategy_shouldContinue.
  destruct (maxIterations <=? S i) eqn:M.
  - apply Nat.leb_le in M. eexists. split; [reflexivity|]. simpl.
    repeat split; try lia.
  - apply Nat.leb_gt in M.
    assert (Hnext : exists b, conv (S i) b \/ i = 0).
    { destruct i as [|i']; [exists true; now right|].
      destruct (Nat.eq_dec (S (S i')) bound) as [Hb|Hb].
      - destruct Hstopat as [->|[_ Hc]]; [lia|].
        exists true. left. now rewrite Hb.
      - destruct (Hconv (S (S i'))) as [b Hb']; try lia. eauto. }
    destruct i as [|i'].
    + (* the first call stores the baseline *)
      cbn [previousOf].
      assert (1 < bound).
      { destruct Hstopat as [->|[? ?]]; lia. }
      destruct (IH 1 ls') as (r & Hr & Hb & Hstop & Hbefore); auto; try lia.
      { intros j Hj1 Hj2 Hj3. apply Hconv; lia. }
      cbn [previousOf] in Hr. exists r. split; [exact Hr|].
      split; [lia|]. split; [exact Hstop|].
      intros j Hj1 Hj2 Hj3. apply Hbefore; lia.
    + cbn [previousOf].
      destruct Hnext as (b & [Hconvb|Hz]); [|discriminate].
      pose proof Hconvb as (p & c & Hp & Hc & Hb).
      replace (S (S i') - 1) with (S i') in Hp by lia.
      pose proof (iterationResults_of_state _ Hst) as R1.
      pose proof (iterationResults_of_state _ Hstep) as R2.
      unfold strategy in R1, R2. rewrite R1 in Hp. rewrite R2 in Hc.
      inversion Hp; subst p. inversion Hc; subst c. clear Hp Hc.
      rewrite Hb. cbn [bindC].
      destruct b; cbn [negb].
      * eexists. split; [reflexivity|]. simpl.
        split; [|split; [intros _; split; [lia|exact Hconvb]|]].
        -- destruct (Nat.eq_dec (S (S i')) bound); lia.
        -- intros j Hj1 Hj2 Hj3. lia.
      * assert (S (S i') < bound).
        { destruct (Nat.eq_dec (S (S i')) bound) as [Hb'|Hb']; [|lia].
          destruct Hstopat as [->|[_ Hc]]; [lia|].
          rewrite <- Hb' in Hc.
          pose proof (convergedAt_functional Hconvb Hc). discriminate. }
        destruct (IH (S (S i')) ls') as (r & Hr & Hbd & Hstop & Hbefore);
          auto; try lia.
        { intros j Hj1 Hj2 Hj3. apply Hconv; lia. }
        cbn [previousOf] in Hr. exists r. split; [exact Hr|].
        split; [lia|]. split; [exact Hstop|].
        intros j Hj1 Hj2 Hj3.
        destruct (Nat.eq_dec j (S (S i'))) as [->|Hne]; [exact Hconvb|].
        apply Hbefore; lia.
Qed.
End Loop.

(** C6 (as amended): on a graph whose computed order meets no fatal
    condition, [execute] under a fresh [ConvergenceStrategy(threshold, max)]
    returns after at most [max] iterations; if the outputs of some iteration
    [k] with [2 <= k < max] are within [threshold] of those of iteration
    [k - 1] (and no earlier comparison throws), it returns with
    [iterations < max], namely at the first iteration found converged; if
    no comparison at an iteration [k] with [2 <= k < max] finds the outputs
    converged, it returns with [iterations = max]. *)
Theorem convergence_iterations (threshold : num) (maxIterations fuel : nat)
    (graph : Graph) (initialState : option (JSMap JSValue))
    (order : list NodeId) :
  1 <= maxIterations -> maxIterations <= fuel ->
  modifiedTopologicalSort graph = Some order ->
  consistent graph order ->
  let strategy := ConvergenceStrategy threshold maxIterations in
  let conv := convergedAt threshold strategy graph order initialState in
  (forall k,
      2 <= k -> k < maxIterations ->
      stabilizedAt threshold strategy graph order initialState k ->
      (forall j, 2 <= j -> j < k -> exists b, conv j b) ->
      exists r,
        execute strategy fuel None graph initialState = Some (Normal r) /\
        2 <= iterations r /\ iterations r <= k /\
        iterations r < maxIterations /\
        conv (iterations r) true /\
        (forall j, 2 <= j -> j < iterations r -> conv j false)) /\
  ((forall k, 2 <= k -> k < maxIterations -> conv k false) ->
   exists r,
     execute strategy fuel None graph initialState = Some (Normal r) /\
     iterations r = maxIterations).
Proof.
  intros Hmax Hfuel Horder Hcons strategy conv.
  assert (H0 : iterationState strategy graph order initialState 0
               = Normal {| stateMap := initStateMap graph initialState;
                           outputsMap := []; currentResults := [] |})
    by reflexivity.
  split.
  - intros k Hk2 Hkmax Hstab Hnothrow.
    pose proof (stabilizedAt_convergedAt Hstab) as Hck.
    destruct (@executeLoop_convergence threshold maxIterations graph order
                initialState Horder Hcons k ltac:(lia)
                (or_intror (conj Hk2 Hck)) fuel 0 _ ltac:(lia) ltac:(lia) H0)
      as (r & Hr & Hb & Hstop & Hbefore).
    { intros j Hj1 Hj2 Hj3. apply Hnothrow; lia. }
    exists r. split; [exact Hr|].
    assert (Hlt : iterations r < maxIterations) by lia.
    destruct (Hstop Hlt) as [H2 Hc].
    repeat split; auto; try lia.
    intros j Hj1 Hj2. apply Hbefore; lia.
  - intros Hnever.
    destruct (@executeLoop_convergence threshold maxIterations graph order
                initialState Horder Hcons maxIterations ltac:(lia)
                (or_introl eq_refl) fuel 0 _ ltac:(lia) ltac:(lia) H0)
      as (r & Hr & Hb & Hstop & Hbefore).
    { intros j Hj1 Hj2 Hj3. exists false. apply Hnever; lia. }
    exists r. split; [exact Hr|].
    destruct (Nat.eq_dec (iterations r) maxIterations) as [|Hne]; auto.
    assert (Hlt : iterations r < maxIterations) by lia.
    destruct (Hstop Hlt) as [H2 Hc].
    pose proof (convergedAt_functional Hc (Hnever _ H2 Hlt)). discriminate.
Qed.

End Convergence.

(** ** Runs of the model on concrete graphs *)

Section Runs.
#[local] Existing Instance ZNumber.

Lemma resolveEdge_back_and_self_witness :
  (2 > 1)%Z /\
  resolveEdge cycle_graph [] [("A.delta", 7%Z)] 1 2 (deltaEdge "e1" "A" "B")
  = 7%Z.
Proof.
  split; [lia|].
  apply (proj1 (resolveEdge_back_and_self cycle_graph [] [("A.delta", 7%Z)]
                  1 2 (deltaEdge "e1" "A" "B"))).
  lia.
Defined.

(** A self-loop is not resolved from the back-edge defaults: with the
    default 5 on offer for ["A.delta"], the edge A -> A evaluated at A's own
    position contributes 0. *)
Lemma self_loop_is_not_a_back_edge :
  ~ (forall (currentOutputs : Results) (backEdgeValues : JSMap num)
            (idx srcIdx : Z) (edge : Edge),
        (srcIdx >= idx)%Z ->
        resolveEdge self_loop_graph currentOutputs backEdgeValues idx srcIdx
                    edge
        = or_zero (map_get (backEdgeKey edge) backEdgeValues)).
Proof.
  intros H.
  specialize (H [("SOURCE", VObj [("delta", VNum 1%Z)])]
                [("SOURCE.delta", 1%Z); ("A.delta", 5%Z)]
                (indexOf ["SOURCE"; "A"] "A") (indexOf ["SOURCE"; "A"] "A")
                (deltaEdge "e-a-a" "A" "A")).
  vm_compute in H. specialize (H ltac:(discriminate)). discriminate H.
Qed.

(** The second iteration of the multi-pass run on the self-loop graph: A
    answered 1 in the first pass, yet its input is 1 (from SOURCE alone)
    again, and its state ends at 2. *)
Example self_loop_multipass_run :
  modifiedTopologicalSort self_loop_graph = Some ["SOURCE"; "A"] /\
  execute (MultiPassStrategy 2) 2 tt self_loop_graph None =
  Some (Normal
          {| result_state := [("SOURCE", VObj []);
                              ("A", VObj [("value", VNum 2%Z)])];
             result_outputs := [("SOURCE", VObj [("delta", VNum 1%Z)]);
                                ("A", VObj [("delta", VNum 1%Z)])];
             iterations := 2 |}).
Proof. split; reflexivity. Qed.

Lemma execute_aborts_on_fatal_condition_witness :
  determineExecutionOrder SinglePassStrategy dangling_source_graph
  = Some ["A"] /\
  exists e,
    execute SinglePassStrategy 1 tt dangling_source_graph None
    = Some (Throw e) /\
    names_missing_id dangling_source_graph ["A"] e.
Proof.
  split; [reflexivity|].
  apply (@execute_aborts_on_fatal_condition _ SinglePassStrategy 1 tt
           dangling_source_graph None ["A"] "A" eq_refl (le_n 1)).
  - now left.
  - right.
    exists (accumulatorNode "A" 0), (deltaEdge "e1" "X" "A"), (deltaPort input).
    repeat split; simpl; auto.
    intros [H|[]]. discriminate H.
Defined.

(** An edge to a destination that is no node of the graph is tolerated:
    the run completes. *)
Lemma dangling_target_is_tolerated :
  In "Z" (map toNodeId (edges dangling_target_graph)) /\
  map_get "Z" (nodes dangling_target_graph) = None /\
  modifiedTopologicalSort dangling_target_graph = Some ["A"] /\
  execute SinglePassStrategy 1 tt dangling_target_graph None =
  Some (Normal {| result_state := [("A", VObj [])];
                  result_outputs := [("A", VObj [("delta", VNum 1%Z)])];
                  iterations := 1 |}).
Proof. repeat split; simpl; auto. Qed.

Lemma multipass_runs_exactly_n_witness :
  1 <= 3 /\ 3 <= 3 /\
  modifiedTopologicalSort cycle_graph = Some ["INPUT"; "C"; "B"; "A"] /\
  consistent cycle_graph ["INPUT"; "C"; "B"; "A"] /\
  exists r,
    execute (MultiPassStrategy 3) 3 tt cycle_graph None = Some (Normal r) /\
    iterations r = 3.
Proof.
  split; [lia|]. split; [lia|]. split; [reflexivity|].
  split; [apply consistentb_sound; reflexivity|].
  apply (@multipass_runs_exactly_n _ 3 3 cycle_graph None
           ["INPUT"; "C"; "B"; "A"]); try lia.
  - reflexivity.
  - apply consistentb_sound. reflexivity.
Defined.

(** A source that is no node of the graph is met in the first pass: the
    multi-pass run aborts and returns no iteration count. *)
Lemma multipass_aborts_on_dangling_source :
  modifiedTopologicalSort dangling_source_graph = Some ["A"] /\
  execute (MultiPassStrategy 3) 3 tt dangling_source_graph None
  = Some (Throw (SourceNotInOrder "X")) /\
  ~ (exists r,
        execute (MultiPassStrategy 3) 3 tt dangling_source_graph None
        = Some (Normal r) /\
        iterations r = 3).
Proof.
  split; [reflexivity|]. split; [reflexivity|].
  intros (r & H & _). discriminate H.
Qed.

(** The same abort is reached on a graph that passes validation when a
    source has the empty id: the order leaves that node out. *)
Example empty_id_source_aborts :
  validateGraph empty_id_source = Valid tt /\
  modifiedTopologicalSort empty_id_source = Some ["T"] /\
  execute (MultiPassStrategy 3) 3 tt empty_id_source None
  = Some (Throw (SourceNotInOrder "")).
Proof. repeat split. Qed.

Lemma gatherInputs_fan_in_sum_witness :
  gatherInputs "T" (accumulatorNode "T" 0) fan_in_graph fan_in_outputs []
               ["S1"; "S2"; "T"]
  = Normal [("delta", InNumber 5%Z)] /\
  on_prototype "delta" = false /\
  1 <= List.length (feedingEdges fan_in_graph "T" (accumulatorNode "T" 0)
                                 "delta") /\
  map_get "delta" [("delta", InNumber 5%Z)] =
  Some (InNumber
          (fold_left Z.add
             (map (fun edge =>
                     resolveEdge fan_in_graph fan_in_outputs []
                       (indexOf ["S1"; "S2"; "T"] "T")
                       (indexOf ["S1"; "S2"; "T"] (fromNodeId edge)) edge)
                  (feedingEdges fan_in_graph "T" (accumulatorNode "T" 0)
                                "delta"))
             0%Z)) /\
  feedingEdges fan_in_graph "T" (accumulatorNode "T" 0) "delta"
  = edgesInto fan_in_graph "T" "delta".
Proof.
  split; [reflexivity|]. split; [reflexivity|]. split; [simpl; lia|].
  destruct (@gatherInputs_fan_in_sum ZNumber "T" (accumulatorNode "T" 0)
              fan_in_graph fan_in_outputs [] ["S1"; "S2"; "T"]
              [("delta", @InNumber ZNumber 5%Z)] "delta" eq_refl eq_refl)
    as [Hsum Hport].
  - simpl. lia.
  - split; [exact Hsum|]. apply Hport. split.
    + exists (deltaPort input). split; reflexivity.
    + intros p [<-|[]] _. reflexivity.
Defined.

(** Two input ports that share a name share one entry: with 2 delivered to
    port [p1] and 3 to port [p2] of T, both named [x], the record holds 5
    under [x], while the one edge into [p1] resolves to 2. *)
Lemma fan_in_sum_merges_ports_of_one_name :
  findPort (inputs (twinPortNode "T")) "p1" = Some (twinPort "p1") /\
  edgesInto twin_graph "T" "p1" = [portEdge "e1" "S1" "T" "p1"] /\
  gatherInputs "T" (twinPortNode "T") twin_graph fan_in_outputs []
               ["S1"; "S2"; "T"]
  = Normal [("x", InNumber 5%Z)] /\
  map_get (port_name (twinPort "p1")) [("x", InNumber 5%Z)]
  = Some (InNumber 5%Z) /\
  fold_left Z.add
    (map (fun edge =>
            resolveEdge twin_graph fan_in_outputs []
              (indexOf ["S1"; "S2"; "T"] "T")
              (indexOf ["S1"; "S2"; "T"] (fromNodeId edge)) edge)
         (edgesInto twin_graph "T" "p1"))
    0%Z
  = 2%Z /\
  5%Z <> 2%Z.
Proof. repeat split. discriminate. Qed.

Lemma gatherInputs_keys_witness :
  gatherInputs "T" (twoPortNode "T") one_of_two_graph fan_in_outputs []
               ["S1"; "T"]
  = Normal [("rate", InNumber 2%Z)] /\
  "rate" <> "__proto__" /\
  map_get "rate" [("rate", InNumber 2%Z)] <> None /\
  (forall edge, In edge (edges one_of_two_graph) -> toNodeId edge = "T" ->
                feeds (twoPortNode "T") "level" edge = false) /\
  map_get "level" [("rate", InNumber 2%Z)] = None /\
  readInput "level" [("rate", InNumber 2%Z)] = ReadUndefined.
Proof.
  assert (Hrate : "rate" <> "__proto__") by discriminate.
  assert (Hlevel :
            forall edge, In edge (edges one_of_two_graph) ->
                         toNodeId edge = "T" ->
                         feeds (twoPortNode "T") "level" edge = false).
  { intros edge [<-|[]] _. reflexivity. }
  split; [reflexivity|]. split; [exact Hrate|]. split.
  - apply (proj1 (@gatherInputs_keys ZNumber "T" (twoPortNode "T")
                    one_of_two_graph fan_in_outputs [] ["S1"; "T"]
                    [("rate", @InNumber ZNumber 2%Z)] "rate" eq_refl)
                 Hrate).
    exists (portEdge "e1" "S1" "T" "rate"),
           {| port_id := "rate"; port_name := "rate"; port_kind := input |}.
    repeat split. now left.
  - split; [exact Hlevel|].
    destruct (proj2 (@gatherInputs_keys ZNumber "T" (twoPortNode "T")
                       one_of_two_graph fan_in_outputs [] ["S1"; "T"]
                       [("rate", @InNumber ZNumber 2%Z)] "level" eq_refl)
                    Hlevel)
      as [Hnone Hread].
    split; [exact Hnone|]. apply Hread. reflexivity.
Defined.

(** An input port no edge targets has a key all the same when another
    port of its name is fed: port [p2] of T exists and has no incoming
    edge, yet the record has the key [x] that is its name. *)
Lemma unfed_port_has_the_key_of_its_namesake :
  findPort (inputs (twinPortNode "T")) "p2" = Some (twinPort "p2") /\
  edgesInto half_fed_twin_graph "T" "p2" = [] /\
  gatherInputs "T" (twinPortNode "T") half_fed_twin_graph fan_in_outputs []
               ["S1"; "T"]
  = Normal [("x", InNumber 2%Z)] /\
  map_get (port_name (twinPort "p2")) [("x", InNumber 2%Z)] <> None.
Proof. repeat split. discriminate. Qed.

(** An input port named after a function of [Object.prototype] receives a
    text: that of the function followed by those of the values, here 2
    and 3; the node does not find their sum 5. *)
Example toString_port_receives_text :
  gatherInputs "T" (namedPortNode "T" "toString")
               (named_port_graph "toString") fan_in_outputs []
               ["S1"; "S2"; "T"]
  = Normal [("toString", InText "toString" [2%Z; 3%Z])].
Proof. reflexivity. Qed.

(** An input port named [__proto__] receives nothing: the record stays
    without own key, and a read gives the prototype. *)
Example proto_port_receives_nothing :
  gatherInputs "T" (namedPortNode "T" "__proto__")
               (named_port_graph "__proto__") fan_in_outputs []
               ["S1"; "S2"; "T"]
  = Normal [] /\
  readInput "__proto__" (@nil (string * InputValue))
  = ReadInherited "__proto__".
Proof. split; reflexivity. Qed.

(** The single constant node answers the same object in every iteration. *)
Lemma graph_A_results threshold maxIterations k :
  iterationResults (ConvergenceStrategy threshold maxIterations) graph_A
                   ["A"] None (S k)
  = Normal [("A", VObj [("delta", VNum 1%Z)])].
Proof.
  unfold iterationResults.
  assert (H : exists ls,
             iterationState (ConvergenceStrategy threshold maxIterations)
                            graph_A ["A"] None (S k) = Normal ls /\
             currentResults ls = [("A", VObj [("delta", VNum 1%Z)])]).
  { induction k as [|k (ls & Hls & Hc)].
    - eexists. split; reflexivity.
    - change (iterationState (ConvergenceStrategy threshold maxIterations)
                             graph_A ["A"] None (S (S k)))
        with (ls <- iterationState
                      (ConvergenceStrategy threshold maxIterations)
                      graph_A ["A"] None (S k) ;;
              executeNodes graph_A (S (S k))
                (ConvergenceStrategy_getBackEdgeValues (S (S k))
                   (Some (currentResults ls)))
                ["A"] ["A"]
                {| stateMap := stateMap ls; outputsMap := outputsMap ls;
                   currentResults := [] |}).
      rewrite Hls. eexists. split; reflexivity. }
  destruct H as (ls & -> & Hc). simpl. now rewrite Hc.
Qed.

Lemma graph_A_stabilized threshold maxIterations k :
  (0 < threshold)%Z -> 2 <= k ->
  stabilizedAt threshold (ConvergenceStrategy threshold maxIterations)
               graph_A ["A"] None k.
Proof.
  intros Hth Hk. destruct k as [|[|k]]; try lia.
  exists graph_A_results_map, graph_A_results_map.
  replace (S (S k) - 1) with (S k) by lia.
  rewrite !graph_A_results. repeat split.
  intros nodeId cur [H|[]]. inversion H; subst.
  exists graph_A_fields, graph_A_fields.
  repeat split.
  intros portId v [H'|[]]. inversion H'; subst.
  exists 1%Z. split; [reflexivity|]. simpl.
  destruct (Z.geb_spec 0 threshold); [lia|reflexivity].
Qed.

(** With [maxIterations = 2] the outputs are stable from the first
    iteration on and the run still takes [maxIterations] iterations: the
    iteration cap is tested before convergence. *)
Lemma convergence_stable_yet_max_iterations :
  (forall k, 2 <= k ->
             stabilizedAt 1%Z (ConvergenceStrategy 1%Z 2) graph_A ["A"]
                          None k) /\
  modifiedTopologicalSort graph_A = Some ["A"] /\
  execute (ConvergenceStrategy 1%Z 2) 2 None graph_A None =
  Some (Normal {| result_state := [("A", VObj [])];
                  result_outputs := [("A", VObj [("delta", VNum 1%Z)])];
                  iterations := 2 |}) /\
  ~ (2 < 2).
Proof.
  split; [|repeat split; lia].
  intros k Hk. apply graph_A_stabilized; lia.
Qed.

Lemma convergence_iterations_witness :
  1 <= 5 /\ 5 <= 5 /\
  exists r,
    execute (ConvergenceStrategy 1%Z 5) 5 None graph_A None
    = Some (Normal r) /\
    iterations r < 5.
Proof.
  split; [lia|]. split; [lia|].
  destruct (proj1 (@convergence_iterations ZNumber 1%Z 5 5 graph_A None ["A"]
                     ltac:(lia) ltac:(lia) eq_refl
                     (@consistentb_sound ZNumber graph_A ["A"] eq_refl))
                  2 ltac:(lia) ltac:(lia)
                  (@graph_A_stabilized 1%Z 5 2 ltac:(lia) ltac:(lia)))
    as (r & Hr & _ & _ & Hlt & _).
  - intros j Hj1 Hj2. lia.
  - exists r. auto.
Defined.

End Runs.

(** ** The topology analyzer on node ids that are empty strings *)

Section EmptyIdRuns.
#[local] Existing Instance ZNumber.

Lemma acyclic_by_rank (graph : Graph) (rank : NodeId -> nat) :
  (forall edge, In edge (edges graph) ->
                rank (fromNodeId edge) < rank (toNodeId edge)) ->
  acyclic graph.
Proof.
  intros Hrank x Hx.
  assert (H : forall a b, clos_trans NodeId (edge_rel graph) a b ->
                          rank a < rank b).
  { induction 1 as [a b (edge & Hin & <- & <-)|a b c _ IH1 _ IH2].
    - now apply Hrank.
    - lia. }
  specialize (H _ _ Hx). lia.
Qed.

(** C3 at a failing input: the graph A -> "" is acyclic, yet the order
    computed for it is [A]: the node with the empty id is dropped by the
    [if (w)] test of the pop loop, so the edge's destination has no position
    after its source. *)
Theorem empty_id_breaks_topological_order :
  acyclic empty_id_chain /\
  modifiedTopologicalSort empty_id_chain = Some ["A"] /\
  ~ topological_order empty_id_chain ["A"].
Proof.
  split; [|split; [reflexivity|]].
  - apply acyclic_by_rank with (rank := fun x => if String.eqb x "A" then 0 else 1).
    intros edge [<-|[]]. simpl. lia.
  - intros H. destruct (H (deltaEdge "e1" "A" "")) as (i & j & _ & Hj & _).
    + now left.
    + simpl in Hj. destruct j as [|[|j]]; discriminate Hj.
Qed.

(** C4 at a failing input: for the graph whose single node has the empty
    id the computed order is empty, so it does not contain every node id. *)
Theorem empty_id_is_dropped_from_order :
  In "" (map_keys (nodes empty_id_graph)) /\
  modifiedTopologicalSort empty_id_graph = Some [] /\
  ~ In "" (@nil NodeId).
Proof. repeat split; simpl; auto. Qed.

(** The damage is not confined to the empty id: its [onStack] flag is never
    cleared, and a node with an edge to it is never emitted either. *)
Example empty_id_strands_predecessor :
  modifiedTopologicalSort
    {| nodes := [("", constantNode "" 1); ("B", constantNode "B" 1)];
       edges := [deltaEdge "e1" "B" ""] |}
  = Some [].
Proof. reflexivity. Qed.

End EmptyIdRuns.

(** ** Kahn's algorithm on the component graph *)

Unset Implicit Arguments.

Section NMapFacts.
Context {V : Type}.
Implicit Types (m : NMap V) (k : nat) (v : V).

Lemma nmap_get_set_same m k v : nmap_get k (nmap_set k v m) = Some v.
Proof.
  induction m as [|[k' v'] m IH]; simpl.
  - now rewrite Nat.eqb_refl.
  - destruct (Nat.eqb k' k) eqn:E; simpl; rewrite E; auto.
Qed.

Lemma nmap_get_set_other m k k' v :
  k <> k' -> nmap_get k' (nmap_set k v m) = nmap_get k' m.
Proof.
  intros Hne. induction m as [|[k0 v0] m IH]; simpl.
  - destruct (Nat.eqb k k') eqn:E; auto.
    apply Nat.eqb_eq in E. contradiction.
  - destruct (Nat.eqb k0 k) eqn:E; simpl.
    + apply Nat.eqb_eq in E. subst k0.
      destruct (Nat.eqb k k') eqn:E'; auto.
      apply Nat.eqb_eq in E'. contradiction.
    + destruct (Nat.eqb k0 k'); auto.
Qed.

Lemma nmap_keys_set_present m k v :
  In k (nmap_keys m) -> nmap_keys (nmap_set k v m) = nmap_keys m.
Proof.
  unfold nmap_keys. induction m as [|[k' v'] m IH]; simpl; [tauto|].
  intros H. destruct (Nat.eqb k' k) eqn:E; simpl; auto.
  apply Nat.eqb_neq in E. destruct H as [H|H]; [contradiction|].
  now rewrite IH.
Qed.

Lemma nmap_set_absent m k v :
  ~ In k (nmap_keys m) -> nmap_set k v m = m ++ [(k, v)].
Proof.
  unfold nmap_keys. induction m as [|[k' v'] m IH]; simpl; auto.
  intros H. destruct (Nat.eqb k' k) eqn:E.
  - apply Nat.eqb_eq in E. tauto.
  - rewrite IH; tauto.
Qed.

Lemma nmap_get_In m k v : nmap_get k m = Some v -> In (k, v) m.
Proof.
  induction m as [|[k' v'] m IH]; simpl; [discriminate|].
  destruct (Nat.eqb k' k) eqn:E; intros H.
  - apply Nat.eqb_eq in E. inversion H; subst. now left.
  - right. auto.
Qed.

Lemma nmap_In_get m k v :
  NoDup (nmap_keys m) -> In (k, v) m -> nmap_get k m = Some v.
Proof.
  unfold nmap_keys. induction m as [|[k' v'] m IH]; simpl; [tauto|].
  intros Hnd [H|H].
  - inversion H; subst. now rewrite Nat.eqb_refl.
  - inversion Hnd; subst. destruct (Nat.eqb k' k) eqn:E.
    + apply Nat.eqb_eq in E. subst. exfalso. apply H2.
      change k with (fst (k, v)). now apply in_map.
    + auto.
Qed.

Lemma nmap_get_None m k : nmap_get k m = None <-> ~ In k (nmap_keys m).
Proof.
  unfold nmap_keys. induction m as [|[k' v'] m IH]; simpl; [tauto|].
  destruct (Nat.eqb k' k) eqn:E.
  - apply Nat.eqb_eq in E. split; [discriminate|tauto].
  - apply Nat.eqb_neq in E. rewrite IH. tauto.
Qed.

Lemma nmap_keys_get m k : In k (nmap_keys m) -> exists v, nmap_get k m = Some v.
Proof.
  intros H. destruct (nmap_get k m) eqn:E; eauto.
  apply nmap_get_None in E. contradiction.
Qed.
End NMapFacts.

Lemma mem_nat_In x l : mem_nat x l = true <-> In x l.
Proof.
  unfold mem_nat. rewrite existsb_exists. split.
  - intros (y & Hy & E). apply Nat.eqb_eq in E. now subst.
  - intros H. exists x. split; auto. apply Nat.eqb_refl.
Qed.

Lemma mem_nat_false x l : mem_nat x l = false <-> ~ In x l.
Proof.
  rewrite <- mem_nat_In. destruct (mem_nat x l); split; congruence.
Qed.

Section InDegrees.

Lemma degree_set_same c d (m : NMap Z) :
  degree_or_0 c (nmap_set c d m) = d.
Proof. unfold degree_or_0. now rewrite nmap_get_set_same. Qed.

Lemma degree_set_other c c' d (m : NMap Z) :
  c <> c' -> degree_or_0 c' (nmap_set c d m) = degree_or_0 c' m.
Proof. intros H. unfold degree_or_0. now rewrite nmap_get_set_other. Qed.

Lemma zeros_fold (cg : NMap (list nat)) :
  forall acc : NMap Z,
    NoDup (nmap_keys acc ++ nmap_keys cg) ->
    fold_left (fun m (entry : nat * list nat) => nmap_set (fst entry) 0%Z m)
              cg acc
    = acc ++ map (fun entry => (fst entry, 0%Z)) cg.
Proof.
  induction cg as [|[c succs] cg IH]; intros acc Hnd; simpl.
  - now rewrite app_nil_r.
  - simpl in Hnd. rewrite nmap_set_absent.
    + rewrite IH.
      * now rewrite <- app_assoc.
      * unfold nmap_keys in *. rewrite map_app. simpl.
        rewrite <- app_assoc. exact Hnd.
    + apply NoDup_remove_2 in Hnd. intros H. apply Hnd.
      apply in_or_app. now left.
Qed.

Lemma count_fold_inner (succs : list nat) :
  forall m : NMap Z,
    (forall s, In s succs -> In s (nmap_keys m)) ->
    nmap_keys (fold_left
                 (fun m' successor =>
                    nmap_set successor (degree_or_0 successor m' + 1)%Z m')
                 succs m) = nmap_keys m /\
    forall c,
      degree_or_0 c (fold_left
                       (fun m' successor =>
                          nmap_set successor
                                   (degree_or_0 successor m' + 1)%Z m')
                       succs m)
      = (degree_or_0 c m + Z.of_nat (count_occ Nat.eq_dec succs c))%Z.
Proof.
  induction succs as [|s succs IH]; intros m Hin; simpl.
  - split; auto. intros c. lia.
  - assert (Hs : In s (nmap_keys m)) by (apply Hin; now left).
    destruct (IH (nmap_set s (degree_or_0 s m + 1)%Z m)) as [Hk Hd].
    { intros s' Hs'. rewrite nmap_keys_set_present by assumption.
      apply Hin. now right. }
    split.
    + rewrite Hk. now apply nmap_keys_set_present.
    + intros c. rewrite Hd.
      destruct (Nat.eq_dec s c) as [->|Hne].
      * rewrite degree_set_same. lia.
      * rewrite degree_set_other by assumption. lia.
Qed.

Lemma count_fold_outer (entries : NMap (list nat)) :
  forall m : NMap Z,
    (forall c succs s, In (c, succs) entries -> In s succs ->
                       In s (nmap_keys m)) ->
    let m' :=
      fold_left
        (fun m0 (entry : nat * list nat) =>
           fold_left
             (fun m' successor =>
                nmap_set successor (degree_or_0 successor m' + 1)%Z m')
             (snd entry) m0)
        entries m in
    nmap_keys m' = nmap_keys m /\
    forall c,
      degree_or_0 c m'
      = (degree_or_0 c m
         + Z.of_nat (list_sum (map (fun entry : nat * list nat =>
                                      count_occ Nat.eq_dec (snd entry) c)
                                   entries)))%Z.
Proof.
  induction entries as [|[p succs] entries IH]; intros m Hin; simpl.
  - split; auto. intros c. lia.
  - destruct (count_fold_inner succs m) as [Hk Hd].
    { intros s Hs. eapply Hin; [now left|exact Hs]. }
    destruct (IH (fold_left
                    (fun m' successor =>
                       nmap_set successor (degree_or_0 successor m' + 1)%Z m')
                    succs m)) as [Hk' Hd'].
    { intros c ss s Hc Hs. rewrite Hk. eapply Hin; [right; exact Hc|exact Hs]. }
    split.
    + now rewrite Hk', Hk.
    + intros c. rewrite Hd', Hd. lia.
Qed.

Lemma count_occ_NoDup (l : list nat) c :
  NoDup l -> count_occ Nat.eq_dec l c = if mem_nat c l then 1 else 0.
Proof.
  intros Hnd. destruct (mem_nat c l) eqn:E.
  - apply mem_nat_In in E. apply NoDup_count_occ' with (decA := Nat.eq_dec) in E; auto.
  - apply mem_nat_false in E. now apply count_occ_not_In.
Qed.

Lemma length_filter_sum {A : Type} (f : A -> bool) (l : list A) :
  List.length (filter f l) = list_sum (map (fun a => if f a then 1 else 0) l).
Proof.
  induction l as [|a l IH]; simpl; auto.
  destruct (f a); simpl; now rewrite IH.
Qed.

Lemma pending_nil_sum (cg : NMap (list nat)) c :
  (forall p succs, In (p, succs) cg -> NoDup succs) ->
  pending cg [] c
  = list_sum (map (fun entry : nat * list nat =>
                     count_occ Nat.eq_dec (snd entry) c) cg).
Proof.
  intros Hnd. unfold pending. rewrite length_filter_sum. f_equal.
  apply map_ext_in. intros [p succs] Hin. simpl.
  rewrite (count_occ_NoDup _ c (Hnd _ _ Hin)).
  now rewrite andb_true_r.
Qed.

Lemma countInDegrees_spec (cg : NMap (list nat)) :
  cg_wf cg ->
  nmap_keys (countInDegrees cg) = nmap_keys cg /\
  forall c, degree_or_0 c (countInDegrees cg) = Z.of_nat (pending cg [] c).
Proof.
  intros R. unfold countInDegrees.
  rewrite zeros_fold by (simpl; apply (rd_keys R)). simpl.
  assert (Hkeys : nmap_keys (map (fun entry : nat * list nat =>
                                    (fst entry, 0%Z)) cg) = nmap_keys cg).
  { unfold nmap_keys. rewrite map_map. reflexivity. }
  destruct (count_fold_outer cg
              (map (fun entry : nat * list nat => (fst entry, 0%Z)) cg))
    as [Hk Hd].
  { intros c succs s Hc Hs. rewrite Hkeys. eapply (rd_closed R); eauto. }
  split; [now rewrite Hk|].
  intros c. rewrite Hd, (pending_nil_sum cg c (rd_sets R)).
  assert (Hz : degree_or_0 c (map (fun entry : nat * list nat =>
                                     (fst entry, 0%Z)) cg) = 0%Z).
  { unfold degree_or_0. clear. induction cg as [|[k v] cg IH]; simpl; auto.
    destruct (Nat.eqb k c); auto. }
  rewrite Hz. lia.
Qed.

End InDegrees.

Section KahnLoop.

(** The inner loop on the successors of the component just emitted. *)
Lemma relax_fold (succs : list nat) :
  forall (deg : NMap Z) (queue : list nat),
    NoDup succs ->
    (forall s, In s succs -> In s (nmap_keys deg)) ->
    exists deg',
      fold_left relaxSuccessor succs (deg, queue)
      = (deg',
         queue ++ filter (fun s => (degree_or_0 s deg - 1 =? 0)%Z) succs) /\
      nmap_keys deg' = nmap_keys deg /\
      forall c,
        degree_or_0 c deg'
        = (degree_or_0 c deg - (if mem_nat c succs then 1 else 0))%Z.
Proof.
  induction succs as [|s succs IH]; intros deg queue Hnd Hin; simpl.
  - exists deg. rewrite app_nil_r. repeat split; auto. intros c. lia.
  - inversion Hnd as [|? ? Hs Hnd']; subst.
    assert (Hsk : In s (nmap_keys deg)) by (apply Hin; now left).
    destruct (IH (nmap_set s (degree_or_0 s deg - 1)%Z deg)
                 (if (degree_or_0 s deg - 1 =? 0)%Z then queue ++ [s]
                  else queue) Hnd') as (deg' & Hf & Hk & Hd).
    { intros s' Hs'. rewrite nmap_keys_set_present by assumption.
      apply Hin. now right. }
    exists deg'. split; [|split].
    + rewrite Hf. f_equal.
      assert (Hfilter :
                filter (fun s0 =>
                          (degree_or_0 s0
                             (nmap_set s (degree_or_0 s deg - 1)%Z deg) - 1
                           =? 0)%Z) succs
                = filter (fun s0 => (degree_or_0 s0 deg - 1 =? 0)%Z) succs).
      { apply filter_ext_in. intros s' Hs'.
        rewrite degree_set_other; auto. intros ->. contradiction. }
      rewrite Hfilter.
      destruct (degree_or_0 s deg - 1 =? 0)%Z; simpl; auto.
      now rewrite <- app_assoc.
    + rewrite Hk. now apply nmap_keys_set_present.
    + intros c. rewrite Hd. unfold mem_nat. simpl.
      destruct (Nat.eqb c s) eqn:E.
      * apply Nat.eqb_eq in E. subst c. rewrite degree_set_same.
        fold (mem_nat s succs).
        destruct (mem_nat s succs) eqn:M;
          [apply mem_nat_In in M; contradiction|]. simpl. lia.
      * apply Nat.eqb_neq in E. rewrite degree_set_other by congruence.
        simpl. reflexivity.
Qed.

Lemma mem_nat_snoc_other k p result :
  k <> p -> mem_nat k (result ++ [p]) = mem_nat k result.
Proof.
  intros H. unfold mem_nat. rewrite existsb_app. simpl.
  rewrite (proj2 (Nat.eqb_neq k p) H). now rewrite !orb_false_r.
Qed.

Lemma pending_cons k ss (cg : NMap (list nat)) result c :
  pending ((k, ss) :: cg) result c
  = (if mem_nat c ss && negb (mem_nat k result) then 1 else 0)
    + pending cg result c.
Proof.
  unfold pending. simpl.
  destruct (mem_nat c ss && negb (mem_nat k result)); reflexivity.
Qed.

Lemma pending_absent_key (cg : NMap (list nat)) p result c :
  ~ In p (nmap_keys cg) ->
  pending cg (result ++ [p]) c = pending cg result c.
Proof.
  unfold nmap_keys. induction cg as [|[k ss] cg IH]; simpl; auto.
  intros H. rewrite !pending_cons.
  rewrite mem_nat_snoc_other by tauto. rewrite IH; tauto.
Qed.

(** Emitting [p] takes one pending predecessor off each of its
    successors. *)
Lemma pending_emit (cg : NMap (list nat)) p succs result c :
  NoDup (nmap_keys cg) -> In (p, succs) cg -> ~ In p result ->
  pending cg result c
  = pending cg (result ++ [p]) c + (if mem_nat c succs then 1 else 0).
Proof.
  unfold nmap_keys. induction cg as [|[k ss] cg IH]; simpl; [tauto|].
  intros Hnd Hin Hp. inversion Hnd as [|? ? Hk Hnd']; subst.
  rewrite !pending_cons.
  destruct Hin as [Heq|Hin].
  - inversion Heq; subst k ss.
    rewrite (pending_absent_key cg p result c Hk).
    assert (M1 : mem_nat p result = false) by now apply mem_nat_false.
    assert (M2 : mem_nat p (result ++ [p]) = true).
    { apply mem_nat_In. apply in_or_app. right. now left. }
    rewrite M1, M2. simpl. rewrite andb_true_r, andb_false_r.
    destruct (mem_nat c succs); simpl; lia.
  - assert (Hne : k <> p).
    { intros ->. apply Hk. change p with (fst (p, succs)). now apply in_map. }
    rewrite mem_nat_snoc_other by assumption.
    rewrite (IH Hnd' Hin Hp).
    destruct (mem_nat c ss && negb (mem_nat k result)); simpl; lia.
Qed.

Lemma pending_zero_pred_emitted (cg : NMap (list nat)) result c p succs :
  pending cg result c = 0 -> In (p, succs) cg -> In c succs -> In p result.
Proof.
  unfold pending. intros H Hin Hc.
  destruct (in_dec Nat.eq_dec p result) as [|Hn]; auto.
  assert (Hf : In (p, succs)
                  (filter (fun entry : nat * list nat =>
                             mem_nat c (snd entry)
                             && negb (mem_nat (fst entry) result)) cg)).
  { apply filter_In. split; auto. simpl.
    rewrite (proj2 (mem_nat_In c succs) Hc).
    now rewrite (proj2 (mem_nat_false p result) Hn). }
  destruct (filter _ cg); [contradiction|discriminate].
Qed.

Lemma before_snoc {A : Type} (x y z : A) l :
  before x y l -> before x y (l ++ [z]).
Proof.
  intros (l1 & l2 & l3 & ->). exists l1, l2, (l3 ++ [z]).
  rewrite <- app_assoc. simpl. rewrite <- app_assoc. reflexivity.
Qed.

Lemma before_last {A : Type} (x y : A) l : In x l -> before x y (l ++ [y]).
Proof.
  intros H. apply in_split in H. destruct H as (l1 & l2 & ->).
  exists l1, l2, []. rewrite <- app_assoc. reflexivity.
Qed.

(** One round of the loop keeps the invariant. *)
Lemma kahn_step (cg : NMap (list nat)) p queue deg result :
  cg_wf cg ->
  kahn_inv cg (p :: queue) deg result ->
  exists succs deg' queue',
    nmap_get p cg = Some succs /\
    fold_left relaxSuccessor succs (deg, queue) = (deg', queue') /\
    kahn_inv cg queue' deg' (result ++ [p]).
Proof.
  intros R (Hk & Hd & Hnd & Hincl & Hq & Hb).
  assert (Hpk : In p (nmap_keys cg)).
  { apply Hincl. apply in_or_app. right. now left. }
  destruct (nmap_keys_get cg p Hpk) as [succs Hget].
  pose proof (nmap_get_In _ _ _ Hget) as Hentry.
  assert (Hp_notin : ~ In p result).
  { intros H. apply NoDup_remove_2 in Hnd. apply Hnd.
    apply in_or_app. now left. }
  destruct (relax_fold succs deg queue (rd_sets R _ _ Hentry))
    as (deg' & Hf & Hk' & Hd').
  { intros s Hs. rewrite Hk. eapply (rd_closed R); eauto. }
  exists succs, deg', (queue ++ filter (fun s => (degree_or_0 s deg - 1 =? 0)%Z) succs).
  split; [exact Hget|]. split; [exact Hf|].
  assert (Hpend : forall c,
             pending cg result c
             = pending cg (result ++ [p]) c
               + (if mem_nat c succs then 1 else 0)).
  { intros c. apply pending_emit; auto. apply (rd_keys R). }
  assert (Hnew : forall s,
             In s (filter (fun s => (degree_or_0 s deg - 1 =? 0)%Z) succs) <->
             In s succs /\ pending cg result s = 1).
  { intros s. rewrite filter_In. split; intros [Hs H]; split; auto.
    - apply Z.eqb_eq in H.
      rewrite Hd in H by (eapply (rd_closed R); eauto). lia.
    - apply Z.eqb_eq.
      rewrite Hd by (eapply (rd_closed R); eauto). lia. }
  assert (Hsame : forall c,
             In c ((result ++ [p]) ++ queue
                   ++ filter (fun s => (degree_or_0 s deg - 1 =? 0)%Z) succs)
             <-> In c (result ++ p :: queue)
                 \/ In c (filter (fun s => (degree_or_0 s deg - 1 =? 0)%Z)
                                 succs)).
  { intros c. rewrite <- app_assoc. simpl. rewrite !in_app_iff. simpl.
    rewrite in_app_iff. tauto. }
  repeat split.
  - now rewrite Hk'.
  - intros c Hc. rewrite Hd', (Hd c Hc), (Hpend c).
    destruct (mem_nat c succs); lia.
  - (* no repetition *)
    replace ((result ++ [p]) ++ queue
             ++ filter (fun s => (degree_or_0 s deg - 1 =? 0)%Z) succs)
      with ((result ++ p :: queue)
            ++ filter (fun s => (degree_or_0 s deg - 1 =? 0)%Z) succs)
      by (rewrite <- !app_assoc; reflexivity).
    apply NoDup_app.
    + exact Hnd.
    + apply NoDup_filter. eapply (rd_sets R); eauto.
    + intros c Hc Hc'. apply Hnew in Hc'. destruct Hc' as [Hs H1].
      apply (Hq c (Hincl c Hc)) in Hc. lia.
  - intros c Hc. apply Hsame in Hc. destruct Hc as [Hc|Hc].
    + now apply Hincl.
    + apply Hnew in Hc. destruct Hc as [Hs _]. eapply (rd_closed R); eauto.
  - intros Hc. apply Hsame in Hc. destruct Hc as [Hc|Hc].
    + apply (Hq c H) in Hc. specialize (Hpend c). lia.
    + apply Hnew in Hc. destruct Hc as [Hs H1]. specialize (Hpend c).
      rewrite (proj2 (mem_nat_In c succs) Hs) in Hpend. lia.
  - intros Hz. apply Hsame. specialize (Hpend c).
    destruct (mem_nat c succs) eqn:M.
    + right. apply Hnew. apply mem_nat_In in M. split; auto. lia.
    + left. apply (Hq c H). lia.
  - intros p0 succs0 c Hin0 Hc0 Hres.
    apply in_app_or in Hres. destruct Hres as [Hres|[Heq|[]]].
    + apply before_snoc. eapply Hb; eauto.
    + subst c. apply before_last.
      eapply pending_zero_pred_emitted; eauto.
      apply (Hq p Hpk). apply in_or_app. right. now left.
Qed.

End KahnLoop.

Section KahnTotal.

Lemma kahn_inv_length (cg : NMap (list nat)) queue deg result :
  kahn_inv cg queue deg result ->
  List.length (result ++ queue) <= List.length cg.
Proof.
  intros (_ & _ & Hnd & Hincl & _).
  replace (List.length cg) with (List.length (nmap_keys cg))
    by (unfold nmap_keys; apply length_map).
  apply NoDup_incl_length; auto.
Qed.

(** With one unit of fuel per component not yet emitted the loop returns,
    and the invariant holds of what it returns. *)
Lemma kahnLoop_total (cg : NMap (list nat)) :
  cg_wf cg ->
  forall fuel queue deg result,
    kahn_inv cg queue deg result ->
    List.length cg <= fuel + List.length result ->
    exists final deg',
      kahnLoop fuel cg queue deg result = Some final /\
      kahn_inv cg [] deg' final.
Proof.
  intros R. induction fuel as [|fuel IH]; intros queue deg result Hinv Hfuel.
  - destruct queue as [|p queue].
    + exists result, deg. split; [reflexivity|exact Hinv].
    + pose proof (kahn_inv_length _ _ _ _ Hinv) as Hlen.
      rewrite length_app in Hlen. simpl in Hlen. lia.
  - destruct queue as [|p queue].
    + exists result, deg. split; [reflexivity|exact Hinv].
    + pose proof (kahn_inv_length _ _ _ _ Hinv) as Hlen.
      destruct (kahn_step cg p queue deg result R Hinv)
        as (succs & deg' & queue' & Hget & Hfold & Hinv').
      simpl. rewrite Hget, Hfold.
      apply IH; auto. rewrite length_app. simpl. lia.
Qed.

Lemma pending_nonzero_pred (cg : NMap (list nat)) result c :
  pending cg result c <> 0 ->
  exists p succs, In (p, succs) cg /\ In c succs /\ ~ In p result.
Proof.
  unfold pending. intros H.
  destruct (filter (fun entry : nat * list nat =>
                      mem_nat c (snd entry)
                      && negb (mem_nat (fst entry) result)) cg)
    as [|[p succs] l] eqn:F; [contradiction|].
  assert (Hin : In (p, succs)
                   (filter (fun entry : nat * list nat =>
                              mem_nat c (snd entry)
                              && negb (mem_nat (fst entry) result)) cg))
    by (rewrite F; now left).
  apply filter_In in Hin. destruct Hin as [Hin Hf]. simpl in Hf.
  apply andb_true_iff in Hf. destruct Hf as [Hc Hp].
  exists p, succs. split; auto. split.
  - now apply mem_nat_In.
  - apply mem_nat_false. now destruct (mem_nat p result).
Qed.

(** When the queue has run empty every component has been emitted: an
    unemitted one would have an unemitted predecessor of higher number. *)
Lemma kahn_complete (cg : NMap (list nat)) deg result :
  cg_ranked cg -> kahn_inv cg [] deg result ->
  forall c, In c (nmap_keys cg) -> In c result.
Proof.
  intros R (_ & _ & _ & _ & Hq & _).
  set (M := S (list_max (nmap_keys cg))).
  assert (Hbound : forall c, In c (nmap_keys cg) -> c < M).
  { intros c Hc. unfold M.
    assert (Hle : list_max (nmap_keys cg) <= list_max (nmap_keys cg)) by lia.
    apply list_max_le in Hle. rewrite Forall_forall in Hle.
    specialize (Hle _ Hc). lia. }
  assert (H : forall d c, M - c <= d -> In c (nmap_keys cg) -> In c result).
  { induction d as [|d IH]; intros c Hd Hc.
    - specialize (Hbound _ Hc). lia.
    - destruct (in_dec Nat.eq_dec c result) as [|Hn]; auto.
      exfalso.
      assert (Hp : pending cg result c <> 0).
      { intros Hz. apply Hn. specialize (Hq c Hc).
        rewrite app_nil_r in Hq. now apply Hq. }
      destruct (pending_nonzero_pred _ _ _ Hp) as (p & succs & Hin & Hcs & Hpn).
      apply Hpn. apply IH.
      + pose proof (R _ _ _ Hin Hcs). lia.
      + unfold nmap_keys. change p with (fst (p, succs)). now apply in_map. }
  intros c Hc. apply (H (M - c)); auto.
Qed.

Lemma NoDup_map_fst_filter {A B : Type} (f : A * B -> bool) (l : list (A * B)) :
  NoDup (map fst l) -> NoDup (map fst (filter f l)).
Proof.
  induction l as [|a l IH]; simpl; intros H; [constructor|].
  inversion H as [|? ? Hn Hnd]; subst.
  destruct (f a); simpl; auto. constructor; auto.
  intros Hin. apply Hn. apply in_map_iff in Hin.
  destruct Hin as (x & Hx & Hf). apply filter_In in Hf.
  rewrite <- Hx. apply in_map. tauto.
Qed.

(** The invariant holds when the loop is entered. *)
Lemma kahn_init (cg : NMap (list nat)) :
  cg_wf cg ->
  kahn_inv cg
    (map fst (filter (fun entry : nat * Z => (snd entry =? 0)%Z)
                     (countInDegrees cg)))
    (countInDegrees cg) [].
Proof.
  intros R.
  destruct (countInDegrees_spec cg R) as [Hk Hd].
  set (deg := countInDegrees cg) in *.
  set (queue := map fst (filter (fun entry : nat * Z => (snd entry =? 0)%Z)
                                deg)).
  assert (Hndk : NoDup (nmap_keys deg)) by (rewrite Hk; apply (rd_keys R)).
  assert (Hqueue : forall c, In c queue <->
                             In c (nmap_keys cg) /\ pending cg [] c = 0).
  { intros c. unfold queue. rewrite in_map_iff. split.
    - intros ([c' d] & <- & Hf). apply filter_In in Hf. simpl in *.
      destruct Hf as [Hin Hz]. apply Z.eqb_eq in Hz. subst d.
      assert (Hc : In c' (nmap_keys cg)).
      { rewrite <- Hk. unfold nmap_keys. change c' with (fst (c', 0%Z)).
        now apply in_map. }
      split; auto.
      specialize (Hd c'). unfold degree_or_0 in Hd.
      rewrite (nmap_In_get _ _ _ Hndk Hin) in Hd. lia.
    - intros [Hc Hz]. rewrite <- Hk in Hc.
      destruct (nmap_keys_get _ _ Hc) as [d Hget].
      exists (c, d). split; auto. apply filter_In. split.
      + now apply nmap_get_In.
      + simpl. specialize (Hd c). unfold degree_or_0 in Hd.
        rewrite Hget in Hd. apply Z.eqb_eq. lia. }
  repeat split; simpl.
  - exact Hk.
  - intros c _. apply Hd.
  - unfold queue. now apply NoDup_map_fst_filter.
  - intros c Hc. now apply Hqueue.
  - intros Hc. now apply Hqueue.
  - intros Hz. apply Hqueue. auto.
  - intros p succs c _ _ [].
Qed.

(** Kahn's algorithm returns on every well-formed component graph. *)
Theorem topologicalSortComponents_total (cg : NMap (list nat)) :
  cg_wf cg ->
  exists result deg,
    topologicalSortComponents cg = Some result /\ kahn_inv cg [] deg result.
Proof.
  intros R. unfold topologicalSortComponents.
  destruct (kahnLoop_total cg R (List.length cg) _ _ [] (kahn_init cg R))
    as (final & deg' & Hrun & Hfinal); [simpl; lia|].
  eauto.
Qed.

(** On a ranked component graph its result lists every component once,
    each before the components it points to. *)
Theorem topologicalSortComponents_spec (cg : NMap (list nat)) :
  cg_wf cg -> cg_ranked cg ->
  exists result,
    topologicalSortComponents cg = Some result /\
    Permutation result (nmap_keys cg) /\
    forall p succs c,
      In (p, succs) cg -> In c succs -> before p c result.
Proof.
  intros R Hrank.
  destruct (topologicalSortComponents_total cg R)
    as (final & deg' & Hrun & Hfinal).
  exists final. split; [exact Hrun|].
  pose proof (kahn_complete cg deg' final Hrank Hfinal) as Hall.
  destruct Hfinal as (_ & _ & Hnd & Hincl & _ & Hb).
  rewrite app_nil_r in Hnd. split.
  - apply NoDup_Permutation; auto.
    + apply (rd_keys R).
    + intros c. split; auto. intros Hc. apply Hincl.
      rewrite app_nil_r. exact Hc.
  - intros p succs c Hin Hc. eapply Hb; eauto. apply Hall.
    eapply (rd_closed R); eauto.
Qed.

End KahnTotal.

(** ** Tarjan's algorithm: what holds whatever the node ids *)

Section TarjanBasics.
Context {N : JSNumber}.

Lemma nd_modify_get id f (m : JSMap NodeData) u :
  map_get u (nd_modify id f m) =
  if String.eqb id u then option_map f (map_get u m) else map_get u m.
Proof.
  unfold nd_modify. destruct (String.eqb id u) eqn:E.
  - apply String.eqb_eq in E. subst u.
    destruct (map_get id m) eqn:G; simpl.
    + apply map_get_set_same.
    + exact G.
  - apply String.eqb_neq in E.
    destruct (map_get id m); auto. now apply map_get_set_other.
Qed.

Lemma unvisited_count_set (m : JSMap NodeData) k d d' :
  map_get k m = Some d ->
  unvisited_count (map_set k d' m) + (if (nd_index d =? -1)%Z then 1 else 0)
  = unvisited_count m + (if (nd_index d' =? -1)%Z then 1 else 0).
Proof.
  unfold unvisited_count.
  induction m as [|[k0 d0] m IH]; simpl; [discriminate|].
  destruct (String.eqb k0 k) eqn:E; intros H.
  - inversion H; subst d0. simpl.
    destruct (nd_index d =? -1)%Z, (nd_index d' =? -1)%Z; simpl; lia.
  - simpl. specialize (IH H).
    destruct (nd_index d0 =? -1)%Z; simpl; lia.
Qed.

Lemma unvisited_count_modify (m : JSMap NodeData) k f :
  (forall d, nd_index (f d) = nd_index d) ->
  unvisited_count (nd_modify k f m) = unvisited_count m.
Proof.
  intros Hf. unfold nd_modify. destruct (map_get k m) as [d|] eqn:G; auto.
  pose proof (unvisited_count_set m k d (f d) G) as H.
  rewrite Hf in H. lia.
Qed.

(** The pop loop: it returns exactly when [nodeId] is on the stack, takes
    off the segment down to its first occurrence, clears [onStack] on the
    popped ids that are truthy and collects those into the component. *)
Lemma popScc_spec nodeId :
  forall stk (m : JSMap NodeData) scc rest m' scc',
    popScc nodeId stk m scc = Some (rest, m', scc') ->
    exists popped,
      stk = popped ++ nodeId :: rest /\
      ~ In nodeId popped /\
      scc' = scc ++ filter string_truthy (popped ++ [nodeId]) /\
      (forall u,
          map_get u m' =
          if existsb (String.eqb u) (popped ++ [nodeId]) && string_truthy u
          then option_map (set_onStack false) (map_get u m)
          else map_get u m) /\
      unvisited_count m' = unvisited_count m.
Proof.
  induction stk as [|w stk IH]; intros m scc rest m' scc' H; simpl in H;
    [discriminate|].
  destruct (String.eqb w nodeId) eqn:E.
  - apply String.eqb_eq in E. subst w. inversion H; subst. clear H.
    exists []. simpl. repeat split; auto.
    + destruct (string_truthy nodeId); auto. now rewrite app_nil_r.
    + intros u. rewrite orb_false_r.
      destruct (string_truthy nodeId) eqn:T.
      * rewrite nd_modify_get. rewrite String.eqb_sym.
        destruct (String.eqb u nodeId) eqn:E; simpl; auto.
        apply String.eqb_eq in E. subst. now rewrite T.
      * destruct (String.eqb u nodeId) eqn:E; simpl; auto.
        apply String.eqb_eq in E. subst. now rewrite T.
    + destruct (string_truthy nodeId); auto.
      now apply unvisited_count_modify.
  - apply IH in H. destruct H as (popped & -> & Hn & -> & Hm & Hcount).
    exists (w :: popped). simpl. repeat split; auto.
    + apply String.eqb_neq in E. intros [H|H]; [congruence|contradiction].
    + destruct (string_truthy w); simpl; auto. now rewrite <- app_assoc.
    + intros u. rewrite Hm.
      destruct (String.eqb u w) eqn:Euw.
      * apply String.eqb_eq in Euw. subst u. simpl.
        destruct (string_truthy w) eqn:T.
        -- rewrite nd_modify_get, String.eqb_refl.
           rewrite andb_true_r.
           destruct (existsb (String.eqb w) (popped ++ [nodeId])); auto.
           destruct (map_get w m); simpl; auto.
        -- now rewrite andb_false_r.
      * simpl. destruct (string_truthy w).
        -- rewrite nd_modify_get. rewrite String.eqb_sym, Euw. reflexivity.
        -- reflexivity.
    + rewrite Hcount. destruct (string_truthy w); auto.
      now apply unvisited_count_modify.
Qed.

Lemma popScc_total nodeId :
  forall stk (m : JSMap NodeData) scc,
    In nodeId stk -> exists r, popScc nodeId stk m scc = Some r.
Proof.
  induction stk as [|w stk IH]; intros m scc H; [contradiction|].
  simpl. destruct (String.eqb w nodeId) eqn:E; [eauto|].
  apply IH. destruct H as [->|H]; auto.
  rewrite String.eqb_refl in E. discriminate.
Qed.

End TarjanBasics.

Section TarjanFrame.
Context {N : JSNumber}.
Variable graph : Graph.

Lemma tarjan_ext_refl st : tarjan_ext st st.
Proof.
  constructor.
  - lia.
  - exists []. split; [reflexivity|intros w []].
  - exists []. now rewrite app_nil_r.
  - tauto.
  - auto.
  - intros u d' H Hi. left. exists d'. auto.
  - lia.
Qed.

Lemma visited_ext st st' u : tarjan_ext st st' -> visited st u -> visited st' u.
Proof.
  intros E (d & Hd & Hi). exists d. split; auto. eapply te_old; eauto.
Qed.

Lemma tarjan_ext_trans st1 st2 st3 :
  tarjan_ext st1 st2 -> tarjan_ext st2 st3 -> tarjan_ext st1 st3.
Proof.
  intros A B. constructor.
  - pose proof (te_index A). pose proof (te_index B). lia.
  - destruct (te_stack A) as (e1 & H1 & N1).
    destruct (te_stack B) as (e2 & H2 & N2).
    exists (e2 ++ e1). split.
    + now rewrite H2, H1, app_assoc.
    + intros w Hw Hv. apply in_app_or in Hw. destruct Hw as [Hw|Hw].
      * apply (N2 w Hw). eapply visited_ext; eauto.
      * now apply (N1 w Hw).
  - destruct (te_sccs A) as (f1 & H1). destruct (te_sccs B) as (f2 & H2).
    exists (f1 ++ f2). now rewrite H2, H1, app_assoc.
  - intros u. rewrite (te_keys B), (te_keys A). tauto.
  - intros u d H Hi. eapply (te_old B); eauto. eapply (te_old A); eauto.
  - intros u d' H Hi.
    destruct (te_new B _ H Hi) as [(d & Hd & Hdi)|Hr].
    + destruct (te_new A _ Hd Hdi) as [Hv|Hr].
      * now left.
      * right. rewrite (te_old B _ Hd Hdi) in H. inversion H; subst.
        pose proof (te_index B). lia.
    + right. pose proof (te_index A). lia.
  - pose proof (te_count A). pose proof (te_count B). lia.
Qed.

(** Changing the low-link of a node that was not numbered at [st]. *)
Lemma tarjan_ext_lower st cur v x :
  tarjan_ext st cur -> ~ visited st v ->
  tarjan_ext st
    (with_nodeData cur (nd_modify v (lower_lowLink x) (nodeData cur))).
Proof.
  intros E Hv. constructor; simpl.
  - apply (te_index E).
  - apply (te_stack E).
  - apply (te_sccs E).
  - intros u. unfold nd. simpl. rewrite nd_modify_get.
    destruct (String.eqb v u) eqn:Q.
    + apply String.eqb_eq in Q. subst u.
      rewrite <- (te_keys E v). unfold nd.
      destruct (map_get v (nodeData cur)); simpl; split; congruence.
    + apply (te_keys E).
  - intros u d H Hi. unfold nd. simpl. rewrite nd_modify_get.
    destruct (String.eqb v u) eqn:Q.
    + apply String.eqb_eq in Q. subst u. exfalso. apply Hv. exists d. auto.
    + eapply (te_old E); eauto.
  - intros u d' H Hi. unfold nd in H. simpl in H. rewrite nd_modify_get in H.
    destruct (String.eqb v u) eqn:Q.
    + destruct (map_get u (nodeData cur)) as [d|] eqn:G; [|discriminate].
      simpl in H. inversion H; subst d'. simpl in *.
      eapply (te_new E); eauto.
    + eapply (te_new E); eauto.
  - rewrite unvisited_count_modify; [apply (te_count E)|reflexivity].
Qed.

Lemma tarjan_loop_lower st cur v x :
  tarjan_loop v st cur -> ~ visited st v ->
  tarjan_loop v st
    (with_nodeData cur (nd_modify v (lower_lowLink x) (nodeData cur))).
Proof.
  intros L Hv. constructor; simpl.
  - apply tarjan_ext_lower; auto. apply (tl_ext L).
  - apply (tl_stack L).
  - destruct (tl_self L) as (d & Hd & Hi).
    exists (lower_lowLink x d). unfold nd in *. simpl.
    rewrite nd_modify_get, String.eqb_refl, Hd. auto.
  - rewrite unvisited_count_modify; [apply (tl_count L)|reflexivity].
Qed.



Lemma split_at_first {A : Type} (x : A) l1 r1 l2 r2 :
  l1 ++ x :: r1 = l2 ++ x :: r2 -> ~ In x l1 -> ~ In x l2 ->
  l1 = l2 /\ r1 = r2.
Proof.
  revert l2. induction l1 as [|a l1 IH]; intros [|b l2] H N1 N2; simpl in *.
  - inversion H. auto.
  - inversion H; subst. tauto.
  - inversion H; subst. tauto.
  - inversion H; subst. destruct (IH l2 H2) as [-> ->]; tauto.
Qed.

(** Numbering [v] and pushing it. *)
Lemma tarjan_loop_mark st v d0 :
  (0 <= index st)%Z ->
  nd st v = Some d0 -> nd_index d0 = (-1)%Z ->
  tarjan_loop v st
    {| index := (index st + 1)%Z;
       stack := v :: stack st;
       nodeData :=
         map_set v {| nd_index := index st; nd_lowLink := index st;
                      nd_onStack := true |} (nodeData st);
       sccs := sccs st |}.
Proof.
  intros Hi Hd H0.
  assert (Hnv : ~ visited st v).
  { intros (d & Hd' & Hn). rewrite Hd in Hd'. inversion Hd'; subst. tauto. }
  constructor; [constructor|..]; simpl.
  - lia.
  - exists [v]. split; auto. intros w [<-|[]]. exact Hnv.
  - exists []. now rewrite app_nil_r.
  - intros u. unfold nd. simpl.
    destruct (string_dec v u) as [<-|Hne].
    + rewrite map_get_set_same. unfold nd in Hd. rewrite Hd.
      split; discriminate.
    + now rewrite map_get_set_other.
  - intros u d H Hn. unfold nd. simpl.
    destruct (string_dec v u) as [<-|Hne].
    + exfalso. apply Hnv. exists d. auto.
    + now rewrite map_get_set_other.
  - intros u d' H Hn. unfold nd in H. simpl in H.
    destruct (string_dec v u) as [<-|Hne].
    + rewrite map_get_set_same in H. inversion H; subst. simpl. right. lia.
    + rewrite map_get_set_other in H by assumption. left. exists d'. auto.
  - pose proof (unvisited_count_set (nodeData st) v d0
                  {| nd_index := index st; nd_lowLink := index st;
                     nd_onStack := true |} Hd) as Hc.
    simpl in Hc. rewrite H0 in Hc. simpl in Hc.
    destruct (index st =? -1)%Z eqn:E; [apply Z.eqb_eq in E; lia|]. lia.
  - exists []. auto.
  - unfold nd. simpl. rewrite map_get_set_same. eexists. split; eauto.
  - pose proof (unvisited_count_set (nodeData st) v d0
                  {| nd_index := index st; nd_lowLink := index st;
                     nd_onStack := true |} Hd) as Hc.
    simpl in Hc. rewrite H0 in Hc. simpl in Hc.
    destruct (index st =? -1)%Z eqn:E; [apply Z.eqb_eq in E; lia|]. lia.
Qed.

(** A recursive call made from the loop of [v] keeps the loop relation. *)
Lemma tarjan_loop_call st v cur s cur' :
  (0 <= index st)%Z ->
  tarjan_loop v st cur -> tarjan_frame s cur cur' ->
  tarjan_loop v st cur'.
Proof.
  intros Hi L F.
  destruct (tl_self L) as (d & Hd & Hdi).
  assert (Hv : visited cur v) by (exists d; split; auto; lia).
  constructor.
  - eapply tarjan_ext_trans; [apply (tl_ext L)|apply (tf_ext F)].
  - destruct (tl_stack L) as (extra & Hs & Hn).
    destruct (te_stack (tf_ext F)) as (e' & Hs' & Hn').
    exists (e' ++ extra). split.
    + now rewrite Hs', Hs, app_assoc.
    + intros H. apply in_app_or in H. destruct H as [H|H]; auto.
      now apply (Hn' v H).
  - exists d. split; auto. eapply (te_old (tf_ext F)); eauto. lia.
  - pose proof (tl_count L). pose proof (tf_count F). lia.
Qed.

Section Loop.
Variable rec : NodeId -> TarjanState -> option TarjanState.
Hypothesis rec_frame : forall s cur cur',
    rec s cur = Some cur' -> (0 <= index cur)%Z ->
    (exists d, nd cur s = Some d /\ nd_index d = (-1)%Z) ->
    tarjan_frame s cur cur'.

Lemma visitSuccessors_frame v st :
  (0 <= index st)%Z -> ~ visited st v ->
  forall succs cur st2,
    visitSuccessors rec v succs cur = Some st2 ->
    tarjan_loop v st cur -> tarjan_loop v st st2.
Proof.
  intros Hi Hnv. induction succs as [|s succs IH]; intros cur st2 H L;
    simpl in H.
  - inversion H; subst. exact L.
  - destruct (map_get s (nodeData cur)) as [successor|] eqn:G;
      [|eapply IH; eauto].
    destruct (nd_index successor =? -1)%Z eqn:E.
    + destruct (rec s cur) as [cur'|] eqn:R; [|discriminate].
      apply Z.eqb_eq in E.
      assert (F : tarjan_frame s cur cur').
      { apply rec_frame; auto.
        - pose proof (te_index (tl_ext L)). lia.
        - exists successor. auto. }
      eapply IH; [exact H|].
      apply tarjan_loop_lower; auto. eapply tarjan_loop_call; eauto.
    + destruct (nd_onStack successor).
      * eapply IH; [exact H|]. now apply tarjan_loop_lower.
      * eapply IH; eauto.
Qed.

End Loop.

(** After the loop: the root test and the pop. *)
Lemma strongConnect_finish v st st2 node st' :
  (0 <= index st)%Z -> ~ visited st v ->
  tarjan_loop v st st2 ->
  nd st2 v = Some node ->
  (if (nd_lowLink node =? nd_index node)%Z
   then match popScc v (stack st2) (nodeData st2) [] with
        | None => None
        | Some (stk, m, scc) =>
            Some {| index := index st2; stack := stk; nodeData := m;
                    sccs := sccs st2 ++ [scc] |}
        end
   else Some st2) = Some st' ->
  tarjan_frame v st st'.
Proof.
  intros Hi Hnv L Hnode H.
  destruct (tl_stack L) as (extra & Hs & Hn).
  destruct (te_stack (tl_ext L)) as (extra0 & Hs0 & Hn0).
  assert (Hextra0 : extra0 = extra ++ [v]).
  { apply (app_inv_tail (stack st)). rewrite <- Hs0, Hs.
    now rewrite <- app_assoc. }
  subst extra0.
  destruct (nd_lowLink node =? nd_index node)%Z.
  - destruct (popScc v (stack st2) (nodeData st2) [])
      as [[[stk m] scc]|] eqn:P; [|discriminate].
    inversion H; subst st'. clear H.
    destruct (popScc_spec _ _ _ _ _ _ _ P)
      as (popped & Hstk & Hnp & Hscc & Hm & Hcount).
    rewrite Hs in Hstk.
    destruct (split_at_first _ _ _ _ _ Hstk Hn Hnp) as [<- <-].
    assert (Hidx : forall u d', map_get u m = Some d' ->
                exists d, nd st2 u = Some d /\ nd_index d' = nd_index d).
    { intros u d' Hu. rewrite Hm in Hu. unfold nd.
      destruct (existsb (String.eqb u) (extra ++ [v]) && string_truthy u).
      - destruct (map_get u (nodeData st2)) as [d|]; [|discriminate].
        simpl in Hu. inversion Hu; subst. eauto.
      - eauto. }
    constructor; [constructor|..]; simpl.
    + apply (te_index (tl_ext L)).
    + exists []. split; [reflexivity|intros w []].
    + destruct (te_sccs (tl_ext L)) as (found & Hf).
      exists (found ++ [scc]). now rewrite Hf, app_assoc.
    + intros u. rewrite <- (te_keys (tl_ext L) u). unfold nd. simpl.
      rewrite Hm.
      destruct (existsb (String.eqb u) (extra ++ [v]) && string_truthy u);
        [|tauto].
      destruct (map_get u (nodeData st2)); simpl; split; congruence.
    + intros u d Hu Hdi. unfold nd. simpl. rewrite Hm.
      assert (Hnot : existsb (String.eqb u) (extra ++ [v]) = false).
      { destruct (existsb (String.eqb u) (extra ++ [v])) eqn:X; auto.
        apply existsb_eqb_In in X. exfalso.
        apply (Hn0 u X). exists d. auto. }
      rewrite Hnot. simpl. eapply (te_old (tl_ext L)); eauto.
    + intros u d' Hu Hdi. unfold nd in Hu. simpl in Hu.
      destruct (Hidx _ _ Hu) as (d & Hd & Heq).
      rewrite Heq. apply (te_new (tl_ext L) _ Hd). congruence.
    + rewrite Hcount. apply (te_count (tl_ext L)).
    + exists []. auto.
    + destruct (tl_self L) as (d & Hd & Hdi). unfold nd. simpl. rewrite Hm.
      unfold nd in Hd. rewrite Hd.
      destruct (existsb (String.eqb v) (extra ++ [v]) && string_truthy v);
        simpl; eauto.
    + rewrite Hcount. apply (tl_count L).
  - inversion H; subst st'. constructor.
    + apply (tl_ext L).
    + exists (extra ++ [v]). split.
      * rewrite Hs. now rewrite <- app_assoc.
      * right. exists extra. auto.
    + apply (tl_self L).
    + apply (tl_count L).
Qed.

(** What [strongConnect] does, when it returns, on a node not numbered
    yet. *)
Lemma strongConnect_frame :
  forall fuel v st st',
    strongConnect fuel graph v st = Some st' ->
    (0 <= index st)%Z ->
    (exists d, nd st v = Some d /\ nd_index d = (-1)%Z) ->
    tarjan_frame v st st'.
Proof.
  induction fuel as [|fuel IH]; intros v st st' H Hi (d0 & Hd0 & H0);
    simpl in H; [discriminate|].
  unfold nd in Hd0. rewrite Hd0 in H.
  assert (Hnv : ~ visited st v).
  { intros (d & Hd' & Hn). unfold nd in Hd'. rewrite Hd0 in Hd'.
    inversion Hd'; subst. tauto. }
  match type of H with
  | match visitSuccessors _ _ _ ?s1 with _ => _ end = _ =>
      destruct (visitSuccessors (strongConnect fuel graph) v
                  (getSuccessors graph v) s1) as [st2|] eqn:V;
        [|discriminate];
      assert (L : tarjan_loop v st st2)
        by (eapply (visitSuccessors_frame (strongConnect fuel graph) IH);
            [exact Hi|exact Hnv|exact V|
             apply (tarjan_loop_mark st v d0 Hi Hd0 H0)])
  end.
  destruct (map_get v (nodeData st2)) as [node|] eqn:G; [|discriminate].
  eapply strongConnect_finish; eauto.
Qed.

(** With fuel for every node not numbered yet, the loop over the
    successors returns. *)
Lemma visitSuccessors_total fuel v st :
  (forall s cur,
      (0 <= index cur)%Z ->
      (exists d, nd cur s = Some d /\ nd_index d = (-1)%Z) ->
      unvisited_count (nodeData cur) <= fuel ->
      exists cur', strongConnect fuel graph s cur = Some cur') ->
  (0 <= index st)%Z -> ~ visited st v ->
  unvisited_count (nodeData st) <= S fuel ->
  forall succs cur,
    tarjan_loop v st cur ->
    exists st2,
      visitSuccessors (strongConnect fuel graph) v succs cur = Some st2.
Proof.
  intros Hrec Hi Hnv Hfuel.
  induction succs as [|s succs IH]; intros cur L; simpl; [eauto|].
  destruct (map_get s (nodeData cur)) as [successor|] eqn:G; [|now apply IH].
  assert (Hicur : (0 <= index cur)%Z).
  { pose proof (te_index (tl_ext L)). lia. }
  destruct (nd_index successor =? -1)%Z eqn:E.
  - apply Z.eqb_eq in E.
    destruct (Hrec s cur Hicur) as [cur' R].
    { exists successor. auto. }
    { pose proof (tl_count L). lia. }
    rewrite R. apply IH.
    apply tarjan_loop_lower; auto.
    eapply tarjan_loop_call; eauto.
    apply (strongConnect_frame _ _ _ _ R Hicur). exists successor. auto.
  - destruct (nd_onStack successor).
    + apply IH. now apply tarjan_loop_lower.
    + now apply IH.
Qed.

(** [strongConnect] returns when given one unit of fuel per node not
    numbered yet. *)
Lemma strongConnect_total :
  forall fuel v st,
    (0 <= index st)%Z ->
    (exists d, nd st v = Some d /\ nd_index d = (-1)%Z) ->
    unvisited_count (nodeData st) <= fuel ->
    exists st', strongConnect fuel graph v st = Some st'.
Proof.
  induction fuel as [|fuel IH]; intros v st Hi (d0 & Hd0 & H0) Hfuel.
  - exfalso.
    pose proof (tl_count (tarjan_loop_mark st v d0 Hi Hd0 H0)). lia.
  - assert (Hnv : ~ visited st v).
    { intros (d & Hd' & Hn). rewrite Hd0 in Hd'.
      inversion Hd'; subst. tauto. }
    pose proof (tarjan_loop_mark st v d0 Hi Hd0 H0) as L1.
    destruct (visitSuccessors_total fuel v st IH Hi Hnv Hfuel
                (getSuccessors graph v) _ L1) as [st2 V].
    pose proof (visitSuccessors_frame (strongConnect fuel graph)
                  (strongConnect_frame fuel) v st Hi Hnv _ _ _ V L1) as L.
    simpl. unfold nd in Hd0. rewrite Hd0, V.
    destruct (tl_self L) as (node & Hnode & _). unfold nd in Hnode.
    rewrite Hnode.
    destruct (nd_lowLink node =? nd_index node)%Z; [|eauto].
    destruct (tl_stack L) as (extra & Hs & _).
    destruct (popScc_total v (stack st2) (nodeData st2) [])
      as [[[stk m] scc] P].
    { rewrite Hs. apply in_or_app. right. now left. }
    rewrite P. eauto.
Qed.

End TarjanFrame.

(** ** The component graph *)

Section ComponentGraph.
Context {N : JSNumber}.

Lemma set_add_In x y l : In x (set_add y l) <-> x = y \/ In x l.
Proof.
  unfold set_add. fold (mem_nat y l).
  destruct (mem_nat y l) eqn:M.
  - apply mem_nat_In in M. split; [tauto|]. intros [->|H]; auto.
  - rewrite in_app_iff. simpl. intuition congruence.
Qed.

Lemma set_add_NoDup y l : NoDup l -> NoDup (set_add y l).
Proof.
  intros H. unfold set_add. fold (mem_nat y l).
  destruct (mem_nat y l) eqn:M; auto.
  apply mem_nat_false in M. apply NoDup_app; auto.
  - constructor; [intros []|constructor].
  - intros a Ha [<-|[]]. contradiction.
Qed.

Lemma In_combine_seq {A : Type} (l : list A) :
  forall start i x,
    In (i, x) (combine (seq start (List.length l)) l) <->
    start <= i /\ nth_error l (i - start) = Some x.
Proof.
  induction l as [|a l IH]; intros start i x; simpl.
  - split; [tauto|]. intros [_ H]. destruct (i - start); discriminate.
  - rewrite IH. split.
    + intros [H|[Hle Hn]].
      * inversion H; subst. rewrite Nat.sub_diag. simpl. split; auto.
      * split; [lia|]. replace (i - start) with (S (i - S start)) by lia.
        exact Hn.
    + intros [Hle Hn]. destruct (Nat.eq_dec i start) as [->|Hne].
      * rewrite Nat.sub_diag in Hn. simpl in Hn. inversion Hn. now left.
      * right. split; [lia|].
        replace (i - start) with (S (i - S start)) in Hn by lia. exact Hn.
Qed.

(** The first pass: one key per component, in order, with an empty
    successor set. *)
Lemma numberComponents_fst (sccs : list (list NodeId)) :
  fst (numberComponents sccs)
  = map (fun i => (i, @nil nat)) (seq 0 (List.length sccs)).
Proof.
  unfold numberComponents.
  assert (H : forall (l : list (list NodeId)) start (cg : NMap (list nat))
                     (m : JSMap nat),
             (forall k, In k (nmap_keys cg) -> k < start) ->
             fst (fold_left
                    (fun (acc : NMap (list nat) * JSMap nat)
                         (entry : nat * list NodeId) =>
                       let '(componentGraph, nodeToComponent) := acc in
                       let '(componentId, scc) := entry in
                       (nmap_set componentId [] componentGraph,
                        fold_left (fun m nodeId => map_set nodeId componentId m)
                                  scc nodeToComponent))
                    (combine (seq start (List.length l)) l) (cg, m))
             = cg ++ map (fun i => (i, @nil nat)) (seq start (List.length l))).
  { induction l as [|scc l IH]; intros start cg m Hk; simpl.
    - now rewrite app_nil_r.
    - rewrite IH.
      + rewrite nmap_set_absent.
        * now rewrite <- app_assoc.
        * intros Hin. specialize (Hk _ Hin). lia.
      + intros k Hin. rewrite nmap_set_absent in Hin.
        * unfold nmap_keys in Hin. rewrite map_app in Hin.
          apply in_app_or in Hin. destruct Hin as [Hin|[<-|[]]]; auto.
          specialize (Hk _ Hin). lia.
        * intros Hin'. specialize (Hk _ Hin'). lia. }
  apply (H sccs 0 [] []). intros k [].
Qed.

Lemma fold_set_get (scc : list NodeId) (c : nat) :
  forall (m : JSMap nat) v,
    map_get v (fold_left (fun m nodeId => map_set nodeId c m) scc m)
    = if existsb (String.eqb v) scc then Some c else map_get v m.
Proof.
  induction scc as [|w scc IH]; intros m v; simpl; auto.
  rewrite IH. destruct (existsb (String.eqb v) scc); simpl.
  - now rewrite orb_true_r.
  - rewrite orb_false_r. destruct (String.eqb v w) eqn:E.
    + apply String.eqb_eq in E. subst. apply map_get_set_same.
    + apply String.eqb_neq in E. apply map_get_set_other. congruence.
Qed.

(** The component the first pass assigns to a node: the last one that
    lists it. *)
Lemma numberComponents_snd (sccs : list (list NodeId)) v :
  (forall c, map_get v (snd (numberComponents sccs)) = Some c ->
             exists scc, nth_error sccs c = Some scc /\ In v scc) /\
  (forall c scc, nth_error sccs c = Some scc -> In v scc ->
                 exists c', map_get v (snd (numberComponents sccs)) = Some c').
Proof.
  unfold numberComponents.
  set (step := fun (acc : NMap (list nat) * JSMap nat)
                   (entry : nat * list NodeId) =>
                 let '(componentGraph, nodeToComponent) := acc in
                 let '(componentId, scc) := entry in
                 (nmap_set componentId [] componentGraph,
                  fold_left (fun m nodeId => map_set nodeId componentId m)
                            scc nodeToComponent)).
  assert (H : forall (entries : list (nat * list NodeId))
                     (acc : NMap (list nat) * JSMap nat),
             (forall c, map_get v (snd (fold_left step entries acc)) = Some c ->
                        map_get v (snd acc) = Some c \/
                        exists scc, In (c, scc) entries /\ In v scc) /\
             (forall c scc, In (c, scc) entries -> In v scc ->
                            exists c', map_get v (snd (fold_left step entries acc))
                                       = Some c') /\
             (forall c, map_get v (snd acc) = Some c ->
                        exists c', map_get v (snd (fold_left step entries acc))
                                   = Some c')).
  { induction entries as [|[c0 scc0] entries IH]; intros [cg m]; simpl.
    - repeat split; eauto. intros c scc [].
    - destruct (IH (nmap_set c0 [] cg,
                    fold_left (fun m nodeId => map_set nodeId c0 m) scc0 m))
        as (A & B & C).
      simpl in A, C. repeat split.
      + intros c Hc. destruct (A c Hc) as [Hm|(scc & Hin & Hv)].
        * rewrite fold_set_get in Hm.
          destruct (existsb (String.eqb v) scc0) eqn:X; auto.
          inversion Hm; subst. right. exists scc0. split; [now left|].
          now apply existsb_eqb_In.
        * right. exists scc. split; auto.
      + intros c scc [Heq|Hin] Hv.
        * inversion Heq; subst. apply (C c).
          rewrite fold_set_get.
          now rewrite (proj2 (existsb_eqb_In v scc) Hv).
        * eapply B; eauto.
      + intros c Hc.
        destruct (existsb (String.eqb v) scc0) eqn:X.
        * apply (C c0). rewrite fold_set_get. now rewrite X.
        * apply (C c). rewrite fold_set_get. now rewrite X. }
  destruct (H (combine (seq 0 (List.length sccs)) sccs) ([], [])) as (A & B & _).
  split.
  - intros c Hc. destruct (A c Hc) as [Hm|(scc & Hin & Hv)];
      [discriminate|].
    apply In_combine_seq in Hin. rewrite Nat.sub_0_r in Hin.
    exists scc. tauto.
  - intros c scc Hn Hv. apply (B c scc); auto.
    apply In_combine_seq. rewrite Nat.sub_0_r. split; [lia|exact Hn].
Qed.

Lemma numberComponents_pair (sccs : list (list NodeId)) :
  numberComponents sccs
  = (fst (numberComponents sccs), snd (numberComponents sccs)).
Proof. now destruct (numberComponents sccs). Qed.

(** What the pass over the edges keeps and builds. *)
Lemma addComponentEdge_fold (n2c : JSMap nat) (n : nat) :
  (forall v c, map_get v n2c = Some c -> c < n) ->
  forall (edgesTodo : list Edge) (cg : NMap (list nat)),
    nmap_keys cg = seq 0 n ->
    (forall c succs, In (c, succs) cg -> NoDup succs) ->
    let cg' := fold_left (addComponentEdge n2c) edgesTodo cg in
    nmap_keys cg' = seq 0 n /\
    (forall c succs, In (c, succs) cg' -> NoDup succs) /\
    (forall c succs s,
        In (c, succs) cg' -> In s succs ->
        (exists succs0, In (c, succs0) cg /\ In s succs0) \/
        (exists edge, In edge edgesTodo /\
                      map_get (fromNodeId edge) n2c = Some c /\
                      map_get (toNodeId edge) n2c = Some s /\ c <> s)) /\
    (forall c succs0 s,
        In (c, succs0) cg -> In s succs0 ->
        exists succs, In (c, succs) cg' /\ In s succs) /\
    (forall edge c s,
        In edge edgesTodo ->
        map_get (fromNodeId edge) n2c = Some c ->
        map_get (toNodeId edge) n2c = Some s -> c <> s ->
        exists succs, In (c, succs) cg' /\ In s succs).
Proof.
  intros Hrange.
  induction edgesTodo as [|edge rest IH]; intros cg Hk Hnd; simpl.
  - repeat split; auto.
    + intros c succs s Hin Hs. left. eauto.
    + intros c succs0 s Hin Hs. eauto.
    + intros edge c s [].
  - set (cg1 := addComponentEdge n2c cg edge).
    assert (Hndk : NoDup (nmap_keys cg)) by (rewrite Hk; apply seq_NoDup).
    assert (Hstep :
              nmap_keys cg1 = seq 0 n /\
              (forall c succs, In (c, succs) cg1 -> NoDup succs) /\
              (forall c succs s,
                  In (c, succs) cg1 -> In s succs ->
                  (exists succs0, In (c, succs0) cg /\ In s succs0) \/
                  (map_get (fromNodeId edge) n2c = Some c /\
                   map_get (toNodeId edge) n2c = Some s /\ c <> s)) /\
              (forall c succs0 s,
                  In (c, succs0) cg -> In s succs0 ->
                  exists succs, In (c, succs) cg1 /\ In s succs) /\
              (forall c s,
                  map_get (fromNodeId edge) n2c = Some c ->
                  map_get (toNodeId edge) n2c = Some s -> c <> s ->
                  exists succs, In (c, succs) cg1 /\ In s succs)).
    { unfold cg1, addComponentEdge.
      assert (Hsame :
                (forall c s, map_get (fromNodeId edge) n2c = Some c ->
                             map_get (toNodeId edge) n2c = Some s ->
                             c <> s -> False) ->
                nmap_keys cg = seq 0 n /\
                (forall c succs, In (c, succs) cg -> NoDup succs) /\
                (forall c succs s,
                    In (c, succs) cg -> In s succs ->
                    (exists succs0, In (c, succs0) cg /\ In s succs0) \/
                    (map_get (fromNodeId edge) n2c = Some c /\
                     map_get (toNodeId edge) n2c = Some s /\ c <> s)) /\
                (forall c succs0 s,
                    In (c, succs0) cg -> In s succs0 ->
                    exists succs, In (c, succs) cg /\ In s succs) /\
                (forall c s,
                    map_get (fromNodeId edge) n2c = Some c ->
                    map_get (toNodeId edge) n2c = Some s -> c <> s ->
                    exists succs, In (c, succs) cg /\ In s succs)).
      { intros Hno. split; [exact Hk|]. split; [exact Hnd|].
        split; [intros c succs s Hin Hs; left; eauto|].
        split; [intros c succs0 s Hin Hs; eauto|].
        intros c s Hc Hs Hne. exfalso. eapply Hno; eauto. }
      destruct (map_get (fromNodeId edge) n2c) as [fc|] eqn:F;
        [|apply Hsame; intros; discriminate].
      destruct (map_get (toNodeId edge) n2c) as [tc|] eqn:T;
        [|apply Hsame; intros; discriminate].
      destruct (Nat.eqb fc tc) eqn:E.
      { apply Nat.eqb_eq in E. subst tc. apply Hsame.
        intros c s Hc Hs Hne. congruence. }
      clear Hsame.
      apply Nat.eqb_neq in E.
      assert (Hfk : In fc (nmap_keys cg)).
      { rewrite Hk. apply in_seq. pose proof (Hrange _ _ F). lia. }
      destruct (nmap_keys_get _ _ Hfk) as [succs0 G]. rewrite G.
      assert (Hsplit : forall c succs,
                 In (c, succs) (nmap_set fc (set_add tc succs0) cg) <->
                 (c = fc /\ succs = set_add tc succs0) \/
                 (c <> fc /\ In (c, succs) cg)).
      { intros c succs.
        assert (Hndk' : NoDup (nmap_keys (nmap_set fc (set_add tc succs0) cg)))
          by (rewrite nmap_keys_set_present; auto).
        split.
        - intros Hin. apply (nmap_In_get _ _ _ Hndk') in Hin.
          destruct (Nat.eq_dec fc c) as [<-|Hne].
          + rewrite nmap_get_set_same in Hin. inversion Hin. auto.
          + rewrite nmap_get_set_other in Hin by assumption.
            right. split; [congruence|]. now apply nmap_get_In.
        - intros [[-> ->]|[Hne Hin]]; apply nmap_get_In.
          + apply nmap_get_set_same.
          + rewrite nmap_get_set_other by congruence.
            now apply nmap_In_get. }
      repeat split.
      - rewrite nmap_keys_set_present; auto.
      - intros c succs Hin. apply Hsplit in Hin.
        destruct Hin as [[-> ->]|[_ Hin]]; [|eauto].
        apply set_add_NoDup. eapply Hnd. apply nmap_get_In. exact G.
      - intros c succs s Hin Hs. apply Hsplit in Hin.
        destruct Hin as [[-> ->]|[_ Hin]]; [|left; eauto].
        apply set_add_In in Hs. destruct Hs as [->|Hs].
        + right. auto.
        + left. exists succs0. split; auto. now apply nmap_get_In.
      - intros c succs1 s Hin Hs.
        destruct (Nat.eq_dec c fc) as [->|Hne].
        + exists (set_add tc succs0). split.
          * apply Hsplit. auto.
          * apply set_add_In. right.
            apply (nmap_In_get _ _ _ Hndk) in Hin. congruence.
        + exists succs1. split; auto. apply Hsplit. auto.
      - intros c s Hc Hs Hne. inversion Hc; inversion Hs; subst.
        exists (set_add s succs0). split.
        + apply Hsplit. auto.
        + apply set_add_In. auto. }
    destruct Hstep as (K1 & S1 & A1 & B1 & C1).
    destruct (IH cg1 K1 S1) as (K2 & S2 & A2 & B2 & C2).
    repeat split; auto.
    + intros c succs s Hin Hs.
      destruct (A2 c succs s Hin Hs) as [(succs0 & Hin0 & Hs0)|(e & He & R)].
      * destruct (A1 c succs0 s Hin0 Hs0) as [L|R]; auto.
        right. exists edge. split; [now left|exact R].
      * right. exists e. split; [now right|exact R].
    + intros c succs0 s Hin Hs.
      destruct (B1 c succs0 s Hin Hs) as (succs & Hin1 & Hs1). eauto.
    + intros e c s [<-|He] Hc Hs Hne.
      * destruct (C1 c s Hc Hs Hne) as (succs & Hin1 & Hs1). eauto.
      * eauto.
Qed.

(** The component graph of any list of components is well formed, and its
    edges are the edges of the graph between different components. *)
Lemma buildComponentGraph_spec (sccs : list (list NodeId)) (graph : Graph) :
  let n2c := snd (numberComponents sccs) in
  let cg := buildComponentGraph sccs graph in
  nmap_keys cg = seq 0 (List.length sccs) /\
  cg_wf cg /\
  (forall c succs s,
      In (c, succs) cg -> In s succs ->
      exists edge, In edge (edges graph) /\
                   map_get (fromNodeId edge) n2c = Some c /\
                   map_get (toNodeId edge) n2c = Some s /\ c <> s) /\
  (forall edge c s,
      In edge (edges graph) ->
      map_get (fromNodeId edge) n2c = Some c ->
      map_get (toNodeId edge) n2c = Some s -> c <> s ->
      exists succs, In (c, succs) cg /\ In s succs).
Proof.
  intros n2c cg. unfold cg, buildComponentGraph.
  rewrite numberComponents_pair. fold n2c.
  rewrite numberComponents_fst.
  assert (Hrange : forall v c, map_get v n2c = Some c -> c < List.length sccs).
  { intros v c Hc. destruct (proj1 (numberComponents_snd sccs v) c Hc)
      as (scc & Hn & _).
    apply nth_error_Some. congruence. }
  destruct (addComponentEdge_fold n2c (List.length sccs) Hrange (edges graph)
              (map (fun i => (i, @nil nat)) (seq 0 (List.length sccs))))
    as (K & S & A & _ & C).
  { unfold nmap_keys. rewrite map_map. simpl. apply map_id. }
  { intros c succs Hin. apply in_map_iff in Hin.
    destruct Hin as (i & Heq & _). inversion Heq. constructor. }
  assert (A' : forall c succs s,
             In (c, succs)
                (fold_left (addComponentEdge n2c) (edges graph)
                   (map (fun i => (i, @nil nat)) (seq 0 (List.length sccs)))) ->
             In s succs ->
             exists edge, In edge (edges graph) /\
                          map_get (fromNodeId edge) n2c = Some c /\
                          map_get (toNodeId edge) n2c = Some s /\ c <> s).
  { intros c succs s Hin Hs.
    destruct (A c succs s Hin Hs) as [(succs0 & Hin0 & Hs0)|R]; auto.
    apply in_map_iff in Hin0. destruct Hin0 as (i & Heq & _).
    inversion Heq; subst. contradiction. }
  repeat split; auto.
  - rewrite K. apply seq_NoDup.
  - intros c succs s Hin Hs. rewrite K.
    destruct (A' c succs s Hin Hs) as (edge & _ & _ & Ht & _).
    apply in_seq. pose proof (Hrange _ _ Ht). lia.
Qed.

End ComponentGraph.

(** ** [modifiedTopologicalSort] returns on every graph *)

Section Totality.
Context {N : JSNumber}.
Variable graph : Graph.

Lemma initNodeData_fold (ids : list NodeId) :
  forall m : JSMap NodeData,
    (forall u d, map_get u m = Some d ->
                 d = {| nd_index := -1; nd_lowLink := -1;
                        nd_onStack := false |}) ->
    let m' := fold_left
                (fun nd nodeId =>
                   map_set nodeId
                     {| nd_index := -1; nd_lowLink := -1;
                        nd_onStack := false |} nd) ids m in
    (forall u d, map_get u m' = Some d ->
                 d = {| nd_index := -1; nd_lowLink := -1;
                        nd_onStack := false |}) /\
    (forall u, map_get u m' <> None <-> In u ids \/ map_get u m <> None) /\
    List.length m' <= List.length m + List.length ids.
Proof.
  induction ids as [|id ids IH]; intros m Hm; simpl.
  - repeat split; auto; try tauto. lia.
  - destruct (IH (map_set id {| nd_index := -1; nd_lowLink := -1;
                                nd_onStack := false |} m)) as (A & B & C).
    { intros u d. destruct (string_dec id u) as [<-|Hne].
      - rewrite map_get_set_same. congruence.
      - rewrite map_get_set_other by assumption. apply Hm. }
    repeat split; auto.
    + intros H. apply B in H. destruct H as [H|H]; auto.
      destruct (string_dec id u) as [<-|Hne]; auto.
      rewrite map_get_set_other in H by assumption. auto.
    + intros H. apply B. destruct H as [[<-|H]|H]; auto.
      * right. rewrite map_get_set_same. discriminate.
      * right. now apply map_set_keeps_bound.
    + assert (List.length (map_set id {| nd_index := -1; nd_lowLink := -1;
                                         nd_onStack := false |} m)
              <= S (List.length m)).
      { clear. induction m as [|[k v] m IH]; simpl; auto.
        destruct (String.eqb k id); simpl; lia. }
      lia.
Qed.

Lemma initNodeData_spec :
  (forall u d, map_get u (initNodeData graph) = Some d ->
               d = {| nd_index := -1; nd_lowLink := -1;
                      nd_onStack := false |}) /\
  (forall u, map_get u (initNodeData graph) <> None <->
             In u (map_keys (nodes graph))) /\
  List.length (initNodeData graph) <= List.length (nodes graph).
Proof.
  destruct (initNodeData_fold (map_keys (nodes graph)) [])
    as (A & B & C); [intros u d H; discriminate|].
  repeat split.
  - exact A.
  - intros H. apply B in H. destruct H as [H|H]; auto. now elim H.
  - intros H. apply B. auto.
  - unfold initNodeData. simpl in C. unfold map_keys in C.
    rewrite length_map in C. exact C.
Qed.

Lemma unvisited_count_le (m : JSMap NodeData) :
  unvisited_count m <= List.length m.
Proof. unfold unvisited_count. apply filter_length_le. Qed.

(** The outer loop returns and only extends the bookkeeping. *)
Lemma runTarjan_total fuel :
  forall ids st,
    (0 <= index st)%Z ->
    (forall id, In id ids -> nd st id <> None) ->
    unvisited_count (nodeData st) <= fuel ->
    exists st',
      runTarjan fuel graph ids st = Some st' /\ tarjan_ext st st'.
Proof.
  induction ids as [|id ids IH]; intros st Hi Hk Hfuel; simpl.
  - exists st. split; auto. apply tarjan_ext_refl.
  - destruct (map_get id (nodeData st)) as [node|] eqn:G.
    2:{ exfalso. apply (Hk id); [now left|exact G]. }
    destruct (nd_index node =? -1)%Z eqn:E.
    + apply Z.eqb_eq in E.
      assert (Hpre : exists d, nd st id = Some d /\ nd_index d = (-1)%Z)
        by (exists node; auto).
      destruct (strongConnect_total graph fuel id st Hi Hpre Hfuel)
        as [st1 S1].
      pose proof (strongConnect_frame graph _ _ _ _ S1 Hi Hpre) as F.
      rewrite S1.
      destruct (IH st1) as (st' & R & X).
      * pose proof (te_index (tf_ext F)). lia.
      * intros u Hu Hnone. apply (te_keys (tf_ext F)) in Hnone.
        apply (Hk u); [now right|exact Hnone].
      * pose proof (tf_count F). lia.
      * exists st'. split; auto.
        eapply tarjan_ext_trans; [apply (tf_ext F)|exact X].
    + apply IH; auto. intros u Hu. apply Hk. now right.
Qed.

Theorem findSCCs_total : exists sccs, findSCCs graph = Some sccs.
Proof.
  unfold findSCCs.
  destruct initNodeData_spec as (A & B & C).
  destruct (runTarjan_total (List.length (nodes graph))
              (map_keys (nodes graph))
              {| index := 0; stack := []; nodeData := initNodeData graph;
                 sccs := [] |}) as (st' & R & _); simpl.
  - lia.
  - intros id Hid. unfold nd. simpl. now apply B.
  - pose proof (unvisited_count_le (initNodeData graph)). lia.
  - rewrite R. eauto.
Qed.

(** [modifiedTopologicalSort] returns an order for every graph: the fuel
    given to the recursion of Tarjan's algorithm and to the loop of Kahn's
    algorithm always suffices. *)
Theorem modifiedTopologicalSort_total :
  exists order, modifiedTopologicalSort graph = Some order.
Proof.
  unfold modifiedTopologicalSort.
  destruct findSCCs_total as [sccs ->].
  destruct (buildComponentGraph_spec sccs graph) as (_ & W & _).
  destruct (topologicalSortComponents_total _ W) as (result & deg & -> & _).
  eauto.
Qed.

End Totality.

(** ** Tarjan's algorithm on graphs without empty node ids *)

Section TarjanCorrect.
Context {N : JSNumber}.
Variable graph : Graph.

Hypothesis ids_truthy : forall v, In v (map_keys (nodes graph)) -> v <> "".

Lemma getSuccessors_In x y :
  In y (getSuccessors graph x) <-> edge_rel graph x y.
Proof.
  unfold getSuccessors, edge_rel. rewrite in_map_iff. split.
  - intros (edge & <- & H). apply filter_In in H. destruct H as [H E].
    apply String.eqb_eq in E. eauto.
  - intros (edge & H & <- & <-). exists edge. split; auto.
    apply filter_In. split; auto. apply String.eqb_refl.
Qed.

Lemma reach_refl x : reach graph x x.
Proof. apply rt_refl. Qed.

Lemma reach_trans x y z : reach graph x y -> reach graph y z -> reach graph x z.
Proof. apply rt_trans. Qed.

Lemma reach_edge x y :
  In x (map_keys (nodes graph)) -> In y (map_keys (nodes graph)) ->
  In y (getSuccessors graph x) -> reach graph x y.
Proof.
  intros Hx Hy H. apply rt_step. split; [|split]; auto.
  now apply getSuccessors_In.
Qed.

Lemma visited_dec st u : {visited st u} + {~ visited st u}.
Proof.
  unfold visited. destruct (nd st u) as [d|] eqn:E.
  - destruct (Z.eq_dec (nd_index d) (-1)) as [H|H].
    + right. intros (d' & Hd & Hn). congruence.
    + left. eauto.
  - right. intros (d' & Hd & Hn). discriminate.
Qed.

Lemma index_of_nd st u d : nd st u = Some d -> index_of st u = nd_index d.
Proof. intros H. unfold index_of. now rewrite H. Qed.

Lemma lowLink_of_nd st u d : nd st u = Some d -> lowLink_of st u = nd_lowLink d.
Proof. intros H. unfold lowLink_of. now rewrite H. Qed.

Lemma on_stack_visited st u :
  tarjan_wf graph st -> In u (stack st) -> visited st u.
Proof.
  intros W H. apply (wf_stack W) in H. destruct H as (d & Hd & Ho).
  exists d. split; auto. intros Hi.
  rewrite (wf_unvisited W _ Hd Hi) in Ho. discriminate.
Qed.

Lemma emitted_visited st u :
  tarjan_wf graph st -> In u (emitted st) -> visited st u.
Proof.
  intros W H. apply (wf_emitted W) in H. destruct H as (d & Hd & Hi & _).
  exists d. auto.
Qed.

Lemma emitted_not_on_stack st u :
  tarjan_wf graph st -> In u (emitted st) -> ~ In u (stack st).
Proof.
  intros W H Hs. apply (wf_emitted W) in H. apply (wf_stack W) in Hs.
  destruct H as (d & Hd & _ & Ho). destruct Hs as (d' & Hd' & Ho').
  congruence.
Qed.

Lemma visited_cases st u :
  tarjan_wf graph st -> visited st u ->
  In u (stack st) \/ In u (emitted st).
Proof.
  intros W (d & Hd & Hi). destruct (nd_onStack d) eqn:O.
  - left. apply (wf_stack W). eauto.
  - right. apply (wf_emitted W). eauto.
Qed.

Lemma visited_index_range st u :
  tarjan_wf graph st -> visited st u ->
  (0 <= index_of st u < index st)%Z.
Proof.
  intros W (d & Hd & Hi). rewrite (index_of_nd _ _ _ Hd).
  eapply (wf_range W); eauto.
Qed.

Lemma not_visited_index st u : ~ visited st u -> index_of st u = (-1)%Z.
Proof.
  intros H. unfold index_of. destruct (nd st u) as [d|] eqn:E; auto.
  destruct (Z.eq_dec (nd_index d) (-1)); auto.
  exfalso. apply H. exists d. auto.
Qed.

Lemma In_concat_nth {A : Type} (l : list (list A)) x :
  In x (List.concat l) <->
  exists j s, nth_error l j = Some s /\ In x s.
Proof.
  rewrite in_concat. split.
  - intros (s & Hs & Hx). apply In_nth_error in Hs. destruct Hs as [j Hj].
    eauto.
  - intros (j & s & Hj & Hx). apply nth_error_In in Hj. eauto.
Qed.

(** Well-formedness does not look at low-links. *)
Lemma wf_same_shape st st' :
  same_shape st st' -> tarjan_wf graph st -> tarjan_wf graph st'.
Proof.
  intros S W.
  assert (Hfwd : forall u d', nd st' u = Some d' ->
             exists d, nd st u = Some d /\
                       nd_index d' = nd_index d /\
                       nd_onStack d' = nd_onStack d).
  { intros u d' H. destruct (nd st u) as [d|] eqn:E.
    - exists d. split; auto. eapply (ss_data S); eauto.
    - apply (ss_none S) in E. congruence. }
  assert (Hbwd : forall u d, nd st u = Some d ->
             exists d', nd st' u = Some d' /\
                        nd_index d' = nd_index d /\
                        nd_onStack d' = nd_onStack d).
  { intros u d H. destruct (nd st' u) as [d'|] eqn:E.
    - exists d'. split; auto. eapply (ss_data S); eauto.
    - apply (ss_none S) in E. congruence. }
  unfold emitted in *.
  constructor; unfold emitted;
    rewrite ?(ss_index S), ?(ss_stack S), ?(ss_sccs S).
  - apply (wf_index W).
  - intros u. rewrite <- (wf_keys W u).
    pose proof (ss_none S u) as Hs. split; intros H Hn; apply H; tauto.
  - intros u d' H Hi. destruct (Hfwd _ _ H) as (d & Hd & E1 & E2).
    rewrite E2. eapply (wf_unvisited W); eauto. congruence.
  - intros u d' H Hi. destruct (Hfwd _ _ H) as (d & Hd & E1 & E2).
    rewrite E1. eapply (wf_range W); eauto. congruence.
  - intros u. rewrite (wf_stack W u). split.
    + intros (d & Hd & Ho). destruct (Hbwd _ _ Hd) as (d' & Hd' & E1 & E2).
      exists d'. split; congruence.
    + intros (d' & Hd' & Ho). destruct (Hfwd _ _ Hd') as (d & Hd & E1 & E2).
      exists d. split; congruence.
  - intros u. rewrite (wf_emitted W u). split.
    + intros (d & Hd & Hi & Ho).
      destruct (Hbwd _ _ Hd) as (d' & Hd' & E1 & E2).
      exists d'. repeat split; congruence.
    + intros (d' & Hd' & Hi & Ho).
      destruct (Hfwd _ _ Hd') as (d & Hd & E1 & E2).
      exists d. repeat split; congruence.
  - apply (wf_nodup W).
  - apply (wf_stack_nodup W).
  - apply (wf_closed W).
  - apply (wf_scc W).
Qed.

(** Lowering the low-link of [v]. *)
Lemma lower_same_shape cur v x :
  same_shape cur
    (with_nodeData cur (nd_modify v (lower_lowLink x) (nodeData cur))).
Proof.
  constructor; simpl; auto.
  - intros u. unfold nd. simpl. rewrite nd_modify_get.
    destruct (String.eqb v u); [|tauto].
    destruct (map_get u (nodeData cur)); simpl; split; congruence.
  - intros u d d' H H'. unfold nd in *. simpl in H'.
    rewrite nd_modify_get in H'.
    destruct (String.eqb v u).
    + rewrite H in H'. simpl in H'. inversion H'; subst. auto.
    + rewrite H in H'. inversion H'; subst. auto.
Qed.

Lemma lower_index_of cur v x u :
  index_of (with_nodeData cur (nd_modify v (lower_lowLink x) (nodeData cur))) u
  = index_of cur u.
Proof.
  unfold index_of, nd. simpl. rewrite nd_modify_get.
  destruct (String.eqb v u); auto.
  destruct (map_get u (nodeData cur)); auto.
Qed.

Lemma lower_lowLink_of_other cur v x u :
  u <> v ->
  lowLink_of (with_nodeData cur (nd_modify v (lower_lowLink x) (nodeData cur)))
             u
  = lowLink_of cur u.
Proof.
  intros H. unfold lowLink_of, nd. simpl. rewrite nd_modify_get.
  destruct (String.eqb v u) eqn:E; auto.
  apply String.eqb_eq in E. congruence.
Qed.

Lemma lower_lowLink_of_self cur v x d :
  nd cur v = Some d ->
  lowLink_of (with_nodeData cur (nd_modify v (lower_lowLink x) (nodeData cur)))
             v
  = Z.min (lowLink_of cur v) x.
Proof.
  intros H. unfold lowLink_of, nd in *. simpl. rewrite nd_modify_get.
  rewrite String.eqb_refl, H. reflexivity.
Qed.

Lemma lower_visited cur v x u :
  visited (with_nodeData cur (nd_modify v (lower_lowLink x) (nodeData cur))) u
  <-> visited cur u.
Proof.
  unfold visited, nd. simpl. rewrite nd_modify_get.
  destruct (String.eqb v u); [|tauto].
  destruct (map_get u (nodeData cur)) as [d|]; simpl.
  - split; intros (d' & H & Hi); inversion H; subst; eexists; split; eauto.
  - split; intros (d' & H & _); discriminate.
Qed.

(** Numbering and pushing [v] sets up the loop invariant. *)
Lemma tarjan_inv_mark v st :
  tarjan_pre graph v st ->
  tarjan_inv graph v st []
    {| index := (index st + 1)%Z;
       stack := v :: stack st;
       nodeData :=
         map_set v {| nd_index := index st; nd_lowLink := index st;
                      nd_onStack := true |} (nodeData st);
       sccs := sccs st |}.
Proof.
  intros P. pose proof (pre_wf P) as W.
  destruct (pre_unvisited P) as (d0 & Hd0 & H0).
  set (st1 := {| index := (index st + 1)%Z; stack := v :: stack st;
                 nodeData := map_set v {| nd_index := index st;
                                          nd_lowLink := index st;
                                          nd_onStack := true |} (nodeData st);
                 sccs := sccs st |}).
  assert (Hself : nd st1 v = Some {| nd_index := index st;
                                     nd_lowLink := index st;
                                     nd_onStack := true |}).
  { unfold nd, st1. simpl. apply map_get_set_same. }
  assert (Hother : forall u, u <> v -> nd st1 u = nd st u).
  { intros u Hu. unfold nd, st1. simpl. apply map_get_set_other. congruence. }
  assert (Hnv : ~ visited st v).
  { intros (d & Hd & Hn). rewrite Hd0 in Hd. inversion Hd; subst. tauto. }
  pose proof (wf_index W) as Hi.
  assert (Hnstack : ~ In v (stack st)).
  { intros H. apply Hnv. eapply on_stack_visited; eauto. }
  assert (Hnemit : ~ In v (emitted st)).
  { intros H. apply Hnv. eapply emitted_visited; eauto. }
  constructor.
  - (* well-formedness *)
    constructor; simpl.
    + lia.
    + intros u. rewrite <- (wf_keys W u).
      destruct (string_dec u v) as [->|Hne].
      * rewrite Hself, Hd0. split; discriminate.
      * rewrite (Hother _ Hne). tauto.
    + intros u d Hd Hdi. destruct (string_dec u v) as [->|Hne].
      * rewrite Hself in Hd. inversion Hd; subst. simpl in Hdi. lia.
      * rewrite (Hother _ Hne) in Hd. eapply (wf_unvisited W); eauto.
    + intros u d Hd Hdi. destruct (string_dec u v) as [->|Hne].
      * rewrite Hself in Hd. inversion Hd; subst. simpl. lia.
      * rewrite (Hother _ Hne) in Hd.
        pose proof (wf_range W _ Hd Hdi). lia.
    + intros u. destruct (string_dec u v) as [->|Hne].
      * rewrite Hself. split; [eauto|]. intros _. now left.
      * rewrite (Hother _ Hne), <- (wf_stack W u).
        split; [intros [H|H]; [congruence|auto]|auto].
    + intros u. change (emitted st1) with (emitted st).
      destruct (string_dec u v) as [->|Hne].
      * rewrite Hself. split; [tauto|].
        intros (d & Hd & _ & Ho). inversion Hd; subst. discriminate.
      * rewrite (Hother _ Hne). apply (wf_emitted W).
    + apply (wf_nodup W).
    + constructor; auto. apply (wf_stack_nodup W).
    + apply (wf_closed W).
    + apply (wf_scc W).
  - intros u Hv Hnu. destruct (string_dec u v) as [->|Hne].
    + apply reach_refl.
    + exfalso. apply Hnu. destruct Hv as (d & Hd & Hdi).
      rewrite (Hother _ Hne) in Hd. exists d. auto.
  - intros extra x Hs Hx. simpl in Hs.
    assert (extra = []).
    { apply (f_equal (@List.length NodeId)) in Hs.
      rewrite length_app in Hs. simpl in Hs.
      destruct extra; auto. simpl in Hs. lia. }
    subst. contradiction.
  - rewrite (lowLink_of_nd _ _ _ Hself). simpl. split; [lia|].
    exists v. split; [now left|]. split; [|apply reach_refl].
    now rewrite (index_of_nd _ _ _ Hself).
  - intros y [].
Qed.

Lemma done_with_lower cur v x u :
  u <> v -> done_with graph cur u ->
  done_with graph
    (with_nodeData cur (nd_modify v (lower_lowLink x) (nodeData cur))) u.
Proof.
  intros Hne D y Hy Hk. unfold emitted. simpl.
  rewrite lower_lowLink_of_other by assumption. rewrite lower_index_of.
  apply (D y Hy Hk).
Qed.

(** A successor dealt with without touching the state. *)
Lemma tarjan_inv_skip v st handled cur y :
  tarjan_inv graph v st handled cur ->
  (In y (map_keys (nodes graph)) ->
   In y (emitted cur) \/
   (In y (stack cur) /\ (lowLink_of cur v <= index_of cur y)%Z)) ->
  tarjan_inv graph v st (handled ++ [y]) cur.
Proof.
  intros I Hy. constructor.
  - apply (inv_wf I).
  - apply (inv_reach I).
  - apply (inv_extra I).
  - apply (inv_low I).
  - intros y' Hin Hk. apply in_app_or in Hin.
    destruct Hin as [Hin|[<-|[]]]; auto. apply (inv_handled I); auto.
Qed.

(** A successor dealt with by lowering the low-link of [v] to
    [min(lowLink, x)]. *)
Lemma tarjan_inv_lower v st handled cur x y :
  tarjan_loop v st cur ->
  tarjan_inv graph v st handled cur ->
  ((lowLink_of cur v <= x)%Z \/
   exists w, In w (v :: stack st) /\ index_of cur w = x /\ reach graph v w) ->
  (In y (map_keys (nodes graph)) ->
   In y (emitted cur) \/
   (In y (stack cur) /\ (Z.min (lowLink_of cur v) x <= index_of cur y)%Z)) ->
  tarjan_inv graph v st (handled ++ [y])
    (with_nodeData cur (nd_modify v (lower_lowLink x) (nodeData cur))).
Proof.
  intros L I Hx Hy.
  destruct (tl_self L) as (d & Hd & Hdi).
  destruct (tl_stack L) as (extra1 & Hs1 & Hn1).
  pose proof (lower_lowLink_of_self cur v x d Hd) as Hlow.
  constructor.
  - eapply wf_same_shape; [apply lower_same_shape|apply (inv_wf I)].
  - intros u Hv Hnu. apply lower_visited in Hv. apply (inv_reach I); auto.
  - intros extra x0 Hs Hx0. simpl in Hs.
    assert (extra = extra1).
    { apply (app_inv_tail (v :: stack st)). congruence. }
    subst extra1.
    assert (Hne : x0 <> v) by (intros ->; contradiction).
    destruct (inv_extra I extra x0 Hs Hx0) as (D & Hl & Hli & Hr).
    split; [now apply done_with_lower|].
    rewrite Hlow, lower_lowLink_of_other, lower_index_of by assumption.
    repeat split; auto. lia.
  - rewrite Hlow. destruct (inv_low I) as (Hle & w & Hw & Hwi & Hwr).
    split; [lia|].
    destruct Hx as [Hx|(w' & Hw' & Hwi' & Hwr')].
    + exists w. rewrite lower_index_of. repeat split; auto. lia.
    + destruct (Z.le_gt_cases (lowLink_of cur v) x).
      * exists w. rewrite lower_index_of. repeat split; auto. lia.
      * exists w'. rewrite lower_index_of. repeat split; auto. lia.
  - intros y' Hin Hk. unfold emitted. simpl. rewrite Hlow, lower_index_of.
    apply in_app_or in Hin. destruct Hin as [Hin|[<-|[]]]; auto.
    destruct (inv_handled I y' Hin Hk) as [He|[Hst Hle]]; auto.
    right. split; auto. lia.
Qed.

Lemma emitted_ext st st' u :
  tarjan_ext st st' -> In u (emitted st) -> In u (emitted st').
Proof.
  intros E H. destruct (te_sccs E) as (found & Hf). unfold emitted in *.
  rewrite Hf, concat_app. apply in_or_app. now left.
Qed.

Lemma stack_ext st st' u :
  tarjan_ext st st' -> In u (stack st) -> In u (stack st').
Proof.
  intros E H. destruct (te_stack E) as (extra & Hs & _).
  rewrite Hs. apply in_or_app. now right.
Qed.

Lemma nd_ext st st' u :
  tarjan_ext st st' -> visited st u -> nd st' u = nd st u.
Proof.
  intros E (d & Hd & Hi). rewrite Hd. eapply (te_old E); eauto.
Qed.

Lemma index_of_ext st st' u :
  tarjan_ext st st' -> visited st u -> index_of st' u = index_of st u.
Proof. intros E H. unfold index_of. now rewrite (nd_ext _ _ _ E H). Qed.

Lemma lowLink_of_ext st st' u :
  tarjan_ext st st' -> visited st u -> lowLink_of st' u = lowLink_of st u.
Proof. intros E H. unfold lowLink_of. now rewrite (nd_ext _ _ _ E H). Qed.

(** What was settled about a node stays settled while the bookkeeping is
    extended. *)
Lemma done_with_ext st st' x :
  tarjan_wf graph st -> tarjan_ext st st' -> visited st x ->
  done_with graph st x -> done_with graph st' x.
Proof.
  intros W E Hx D y Hy Hk. destruct (D y Hy Hk) as [He|[Hs Hle]].
  - left. eapply emitted_ext; eauto.
  - right. split; [eapply stack_ext; eauto|].
    rewrite (lowLink_of_ext _ _ _ E Hx).
    rewrite (index_of_ext _ _ y E); auto.
    eapply on_stack_visited; eauto.
Qed.

(** The recursive call on an unnumbered successor [y] of [v], followed by
    [node.lowLink = Math.min(node.lowLink, successor.lowLink)]. *)
Lemma tarjan_inv_call v st handled cur y cur' :
  tarjan_pre graph v st ->
  tarjan_loop v st cur ->
  tarjan_inv graph v st handled cur ->
  In y (getSuccessors graph v) ->
  ~ visited cur y ->
  tarjan_frame y cur cur' ->
  tarjan_post graph y cur cur' ->
  tarjan_inv graph v st (handled ++ [y])
    (with_nodeData cur'
       (nd_modify v (lower_lowLink (lowLink_of cur' y)) (nodeData cur'))).
Proof.
  intros P L I Hsucc Hyvis F Po.
  pose proof (inv_wf I) as W. pose proof (post_wf Po) as W'.
  pose proof (tf_ext F) as E.
  destruct (tl_self L) as (d & Hd & Hdi).
  destruct (tl_stack L) as (e & Hs & Hne).
  destruct (te_stack E) as (ey & Hsy & Hney).
  assert (Hvis_v : visited cur v).
  { exists d. split; auto. pose proof (wf_index (pre_wf P)). lia. }
  assert (Hd' : nd cur' v = Some d).
  { rewrite (nd_ext _ _ _ E Hvis_v). exact Hd. }
  assert (HvK : In v (map_keys (nodes graph))).
  { apply (wf_keys W). rewrite Hd. discriminate. }
  destruct (tf_self F) as (dy & Hdy & Hdyi).
  assert (HyK : In y (map_keys (nodes graph))).
  { apply (wf_keys W'). rewrite Hdy. discriminate. }
  assert (Hvy : reach graph v y) by (apply reach_edge; auto).
  assert (Hstack_reach : forall w, In w (stack cur) -> reach graph w v).
  { intros w Hw. rewrite Hs in Hw. apply in_app_or in Hw.
    destruct Hw as [Hw|[<-|Hw]].
    - apply (inv_extra I e w Hs Hw).
    - apply reach_refl.
    - apply (pre_reach P). exact Hw. }
  assert (Hidx_v : index_of cur v = index st)
    by (rewrite (index_of_nd _ _ _ Hd); exact Hdi).
  assert (Hidx_cur : (index st < index cur)%Z).
  { pose proof (visited_index_range _ _ W Hvis_v). lia. }
  set (x := lowLink_of cur' y).
  pose proof (lower_lowLink_of_self cur' v x d Hd') as Hlow.
  assert (Hlowv : lowLink_of cur' v = lowLink_of cur v)
    by (apply lowLink_of_ext; auto).
  rewrite Hlowv in Hlow.
  constructor.
  - eapply wf_same_shape; [apply lower_same_shape|exact W'].
  - intros u Hv Hnu. apply lower_visited in Hv.
    destruct (visited_dec cur u) as [Hc|Hc].
    + apply (inv_reach I); auto.
    + eapply reach_trans; [exact Hvy|]. apply (post_reach Po); auto.
  - intros extra x0 Hst Hx0. simpl in Hst.
    assert (extra = ey ++ e).
    { apply (app_inv_tail (v :: stack st)).
      rewrite <- Hst, Hsy, Hs. now rewrite app_assoc. }
    subst extra. apply in_app_or in Hx0. destruct Hx0 as [Hx0|Hx0].
    + assert (Hne0 : x0 <> v).
      { intros ->. now apply (Hney v Hx0). }
      destruct (post_extra Po ey x0 Hsy Hx0) as (D & Hl & Hli & Hr).
      split; [now apply done_with_lower|].
      rewrite Hlow, lower_lowLink_of_other, lower_index_of by assumption.
      split; [unfold x; lia|]. split; [exact Hli|].
      eapply reach_trans; [exact Hr|].
      assert (Hneq : stack cur' <> stack cur).
      { intros Heq. rewrite Hsy in Heq.
        apply (f_equal (@List.length NodeId)) in Heq.
        rewrite length_app in Heq. destruct ey; [contradiction|].
        simpl in Heq. lia. }
      destruct (post_low Po Hneq) as (_ & w & Hw & _ & Hyw).
      eapply reach_trans; [exact Hyw|]. now apply Hstack_reach.
    + assert (Hne0 : x0 <> v) by (intros ->; contradiction).
      destruct (inv_extra I e x0 Hs Hx0) as (D & Hl & Hli & Hr).
      assert (Hx0v : visited cur x0).
      { eapply on_stack_visited; eauto. rewrite Hs.
        apply in_or_app. now left. }
      split.
      { apply done_with_lower; [exact Hne0|].
        apply (done_with_ext cur cur' x0 W E Hx0v D). }
      rewrite Hlow, lower_lowLink_of_other, lower_index_of by assumption.
      rewrite (lowLink_of_ext _ _ _ E Hx0v), (index_of_ext _ _ _ E Hx0v).
      repeat split; auto. lia.
  - rewrite Hlow. destruct (inv_low I) as (Hle & w & Hw & Hwi & Hwr).
    split; [lia|].
    assert (Hold : forall w0, In w0 (v :: stack st) -> visited cur w0).
    { intros w0 [<-|Hw0]; auto.
      eapply visited_ext; [apply (tl_ext L)|].
      eapply on_stack_visited; eauto. apply (pre_wf P). }
    destruct (Z.le_gt_cases (lowLink_of cur v) x) as [Hc|Hc].
    + exists w. rewrite lower_index_of.
      rewrite (index_of_ext _ _ _ E (Hold _ Hw)).
      repeat split; auto. lia.
    + assert (Hneq : stack cur' <> stack cur).
      { intros Heq. pose proof (post_root Po Heq) as Hroot.
        fold x in Hroot. lia. }
      destruct (post_low Po Hneq) as (Hlt & w' & Hw' & Hwi' & Hyw).
      fold x in Hlt, Hwi'.
      assert (Hw'old : In w' (v :: stack st)).
      { rewrite Hs in Hw'. apply in_app_or in Hw'.
        destruct Hw' as [Hw'|Hw']; auto.
        destruct (inv_extra I e w' Hs Hw') as (_ & Hl1 & Hl2 & _). lia. }
      exists w'. rewrite lower_index_of.
      rewrite (index_of_ext _ _ _ E (Hold _ Hw'old)).
      split; [exact Hw'old|]. split; [lia|].
      apply (reach_trans v y w' Hvy Hyw).
  - intros y' Hin Hk. unfold emitted. simpl. rewrite Hlow, lower_index_of.
    apply in_app_or in Hin. destruct Hin as [Hin|[<-|[]]].
    + destruct (inv_handled I y' Hin Hk) as [He|[Hst Hle]].
      * left. eapply emitted_ext; eauto.
      * right. split; [eapply stack_ext; eauto|].
        rewrite (index_of_ext _ _ _ E); [lia|].
        eapply on_stack_visited; eauto.
    + destruct (tf_shape F) as (ex & Hex & Hshape).
      assert (ex = ey) by (apply (app_inv_tail (stack cur)); congruence).
      subst ex. destruct Hshape as [->|(xs & -> & _)].
      * left. simpl in Hsy.
        assert (Hvy' : visited cur' y).
        { exists dy. split; auto. pose proof (wf_index W). lia. }
        destruct (visited_cases _ _ W' Hvy') as [Hon|Hem]; auto.
        exfalso. rewrite Hsy in Hon. apply Hyvis.
        eapply on_stack_visited; eauto.
      * right.
        assert (Hyin : In y (xs ++ [y])) by (apply in_or_app; right; now left).
        split; [rewrite Hsy; apply in_or_app; now left|].
        destruct (post_extra Po _ y Hsy Hyin) as (_ & _ & Hli & _).
        unfold x. lia.
Qed.

Section CorrectLoop.
Variable rec : NodeId -> TarjanState -> option TarjanState.
Hypothesis rec_frame : forall s cur cur',
    rec s cur = Some cur' -> (0 <= index cur)%Z ->
    (exists d, nd cur s = Some d /\ nd_index d = (-1)%Z) ->
    tarjan_frame s cur cur'.
Hypothesis rec_post : forall s cur cur',
    rec s cur = Some cur' -> tarjan_pre graph s cur ->
    tarjan_post graph s cur cur'.

Lemma visitSuccessors_correct v st :
  tarjan_pre graph v st ->
  forall succs handled cur st2,
    (forall y, In y succs -> In y (getSuccessors graph v)) ->
    visitSuccessors rec v succs cur = Some st2 ->
    tarjan_loop v st cur ->
    tarjan_inv graph v st handled cur ->
    tarjan_loop v st st2 /\ tarjan_inv graph v st (handled ++ succs) st2.
Proof.
  intros P.
  assert (Hi : (0 <= index st)%Z) by apply (wf_index (pre_wf P)).
  assert (Hnv : ~ visited st v).
  { destruct (pre_unvisited P) as (d0 & Hd0 & H0).
    intros (d & Hd & Hn). rewrite Hd0 in Hd. inversion Hd; subst. tauto. }
  induction succs as [|y succs IH]; intros handled cur st2 Hsub H L I;
    simpl in H.
  - inversion H; subst. rewrite app_nil_r. auto.
  - assert (Hy : In y (getSuccessors graph v)) by (apply Hsub; now left).
    assert (Hsub' : forall y', In y' succs -> In y' (getSuccessors graph v))
      by (intros y' Hy'; apply Hsub; now right).
    replace (handled ++ y :: succs) with ((handled ++ [y]) ++ succs)
      by (rewrite <- app_assoc; reflexivity).
    pose proof (inv_wf I) as W.
    destruct (tl_self L) as (d & Hd & Hdi).
    destruct (tl_stack L) as (e & Hs & Hne).
    assert (HvK : In v (map_keys (nodes graph))).
    { apply (wf_keys W). rewrite Hd. discriminate. }
    destruct (map_get y (nodeData cur)) as [successor|] eqn:G.
    2:{ (* not a node of the graph *)
      eapply IH; eauto. apply tarjan_inv_skip; auto.
      intros Hk. apply (wf_keys W) in Hk. unfold nd in Hk. congruence. }
    assert (HyK : In y (map_keys (nodes graph))).
    { apply (wf_keys W). unfold nd. rewrite G. discriminate. }
    destruct (nd_index successor =? -1)%Z eqn:E.
    + (* not numbered yet: recursive call *)
      apply Z.eqb_eq in E.
      destruct (rec y cur) as [cur'|] eqn:R; [|discriminate].
      assert (Hicur : (0 <= index cur)%Z) by apply (wf_index W).
      assert (Hun : exists d, nd cur y = Some d /\ nd_index d = (-1)%Z)
        by (exists successor; auto).
      assert (Hyvis : ~ visited cur y).
      { intros (d1 & Hd1 & Hd1i). unfold nd in Hd1. congruence. }
      pose proof (rec_frame _ _ _ R Hicur Hun) as F.
      assert (Pre : tarjan_pre graph y cur).
      { constructor; auto. intros w Hw.
        apply (reach_trans w v y); [|apply reach_edge; auto].
        rewrite Hs in Hw. apply in_app_or in Hw.
        destruct Hw as [Hw|[<-|Hw]].
        - apply (inv_extra I e w Hs Hw).
        - apply reach_refl.
        - apply (pre_reach P). exact Hw. }
      pose proof (rec_post _ _ _ R Pre) as Po.
      destruct (tf_self F) as (dy & Hdy & _).
      assert (Hread : match map_get y (nodeData cur') with
                      | Some s' => nd_lowLink s'
                      | None => nd_lowLink successor
                      end = lowLink_of cur' y).
      { unfold lowLink_of. unfold nd in *. now rewrite Hdy. }
      rewrite Hread in H.
      eapply IH; [exact Hsub'|exact H| |].
      * apply tarjan_loop_lower; auto. eapply tarjan_loop_call; eauto.
      * eapply tarjan_inv_call; eauto.
    + destruct (nd_onStack successor) eqn:O.
      * (* on the stack *)
        assert (Hon : In y (stack cur)).
        { apply (wf_stack W). exists successor. auto. }
        assert (Hiy : index_of cur y = nd_index successor)
          by (apply index_of_nd; exact G).
        eapply IH; [exact Hsub'|exact H| |].
        -- now apply tarjan_loop_lower.
        -- apply tarjan_inv_lower; auto.
           ++ rewrite <- Hiy. rewrite Hs in Hon. apply in_app_or in Hon.
              destruct Hon as [Hon|Hon].
              ** left. destruct (inv_extra I e y Hs Hon) as (_ & H1 & H2 & _).
                 lia.
              ** right. exists y. repeat split; auto.
                 apply reach_edge; auto.
           ++ intros _. right. split; auto. rewrite Hiy. lia.
      * (* already in a component *)
        eapply IH; eauto. apply tarjan_inv_skip; auto.
        intros _. left. apply (wf_emitted W). exists successor.
        apply Z.eqb_neq in E. auto.
Qed.
End CorrectLoop.

Lemma string_truthy_key u :
  In u (map_keys (nodes graph)) -> string_truthy u = true.
Proof.
  intros H. unfold string_truthy. apply negb_true_iff.
  apply String.eqb_neq. now apply ids_truthy.
Qed.

Lemma filter_all_true {A : Type} (f : A -> bool) (l : list A) :
  (forall a, In a l -> f a = true) -> filter f l = l.
Proof.
  induction l as [|a l IH]; intros H; simpl; auto.
  rewrite (H a) by now left. f_equal. apply IH. intros; apply H. now right.
Qed.

Lemma nth_error_snoc_cases {A : Type} (l : list A) (a x : A) i :
  nth_error (l ++ [a]) i = Some x ->
  (i < List.length l /\ nth_error l i = Some x) \/
  (i = List.length l /\ x = a).
Proof.
  intros H. destruct (Nat.lt_ge_cases i (List.length l)) as [Hlt|Hge].
  - left. split; auto. now rewrite nth_error_app1 in H.
  - right. rewrite nth_error_app2 in H by assumption.
    destruct (i - List.length l) as [|k] eqn:E.
    + simpl in H. inversion H. split; auto. lia.
    + simpl in H. destruct k; discriminate.
Qed.

(** The root test and the pop establish the post-condition. *)
Lemma strongConnect_finish_correct v st st2 node st' :
  tarjan_pre graph v st ->
  tarjan_loop v st st2 ->
  tarjan_inv graph v st (getSuccessors graph v) st2 ->
  nd st2 v = Some node ->
  (if (nd_lowLink node =? nd_index node)%Z
   then match popScc v (stack st2) (nodeData st2) [] with
        | None => None
        | Some (stk, m, scc) =>
            Some {| index := index st2; stack := stk; nodeData := m;
                    sccs := sccs st2 ++ [scc] |}
        end
   else Some st2) = Some st' ->
  tarjan_post graph v st st'.
Proof.
  intros P L I Hnode H.
  pose proof (pre_wf P) as W. pose proof (inv_wf I) as W2.
  destruct (tl_self L) as (d & Hd & Hdi).
  rewrite Hnode in Hd. inversion Hd; subst d. clear Hd.
  destruct (tl_stack L) as (e & Hs & Hne).
  assert (Hlowv : lowLink_of st2 v = nd_lowLink node)
    by (apply lowLink_of_nd; exact Hnode).
  assert (Hidxv : index_of st2 v = index st)
    by (rewrite (index_of_nd _ _ _ Hnode); exact Hdi).
  assert (Hdone_v : done_with graph st2 v).
  { intros y Hy Hk. apply (inv_handled I); auto. }
  assert (Hvis_old : forall u, In u (stack st) -> visited st u).
  { intros u Hu. eapply on_stack_visited; eauto. }
  assert (Hnew : forall u, In u (e ++ [v]) -> ~ visited st u).
  { destruct (te_stack (tl_ext L)) as (e0 & Hs0 & Hn0).
    assert (e0 = e ++ [v]).
    { apply (app_inv_tail (stack st)). rewrite <- Hs0, Hs.
      now rewrite <- app_assoc. }
    subst e0. exact Hn0. }
  assert (Hlen : stack st2 <> stack st).
  { intros Heq. rewrite Hs in Heq.
    apply (f_equal (@List.length NodeId)) in Heq.
    rewrite length_app in Heq. simpl in Heq. lia. }
  destruct (nd_lowLink node =? nd_index node)%Z eqn:Root.
  - (* [v] is the root of a component *)
    apply Z.eqb_eq in Root.
    destruct (popScc v (stack st2) (nodeData st2) [])
      as [[[stk m] scc]|] eqn:Pop; [|discriminate].
    inversion H; subst st'. clear H.
    destruct (popScc_spec _ _ _ _ _ _ _ Pop)
      as (popped & Hstk & Hnp & Hscc & Hm & _).
    rewrite Hs in Hstk.
    destruct (split_at_first _ _ _ _ _ Hstk Hne Hnp) as [<- <-].
    assert (HSstack : forall u, In u (e ++ [v]) -> In u (stack st2)).
    { intros u Hu. rewrite Hs. apply in_app_or in Hu.
      apply in_or_app. destruct Hu as [Hu|[<-|[]]]; auto.
      right. now left. }
    assert (HSkey : forall u, In u (e ++ [v]) ->
                              In u (map_keys (nodes graph))).
    { intros u Hu. apply (wf_keys W2).
      apply HSstack, (wf_stack W2) in Hu. destruct Hu as (du & Hdu & _).
      rewrite Hdu. discriminate. }
    assert (Hscc' : scc = e ++ [v]).
    { rewrite Hscc. simpl. apply filter_all_true.
      intros u Hu. apply string_truthy_key. now apply HSkey. }
    clear Hscc. subst scc.
    set (st' := {| index := index st2; stack := stack st; nodeData := m;
                   sccs := sccs st2 ++ [e ++ [v]] |}).
    assert (Hin_S : forall u d', In u (e ++ [v]) -> nd st' u = Some d' ->
                exists du, nd st2 u = Some du /\ d' = set_onStack false du).
    { intros u d' Hu Hd'. unfold nd, st' in Hd'. simpl in Hd'.
      rewrite Hm in Hd'.
      rewrite (proj2 (existsb_eqb_In u (e ++ [v])) Hu) in Hd'.
      rewrite (string_truthy_key u (HSkey u Hu)) in Hd'. simpl in Hd'.
      unfold nd. destruct (map_get u (nodeData st2)) as [du|];
        [|discriminate].
      simpl in Hd'. inversion Hd'. eauto. }
    assert (Hin_S' : forall u du, In u (e ++ [v]) -> nd st2 u = Some du ->
                nd st' u = Some (set_onStack false du)).
    { intros u du Hu Hdu. unfold nd, st'. simpl. rewrite Hm.
      rewrite (proj2 (existsb_eqb_In u (e ++ [v])) Hu).
      rewrite (string_truthy_key u (HSkey u Hu)). simpl.
      unfold nd in Hdu. now rewrite Hdu. }
    assert (Hout_S : forall u, ~ In u (e ++ [v]) -> nd st' u = nd st2 u).
    { intros u Hu. unfold nd, st'. simpl. rewrite Hm.
      destruct (existsb (String.eqb u) (e ++ [v])) eqn:X; auto.
      apply existsb_eqb_In in X. contradiction. }
    assert (Hshape : forall u d', nd st' u = Some d' ->
                exists du, nd st2 u = Some du /\
                           nd_index d' = nd_index du /\
                           nd_lowLink d' = nd_lowLink du).
    { intros u d' Hd'.
      destruct (in_dec string_dec u (e ++ [v])) as [Hu|Hu].
      - destruct (Hin_S _ _ Hu Hd') as (du & Hdu & ->). eauto.
      - rewrite (Hout_S _ Hu) in Hd'. eauto. }
    assert (Hvis_iff : forall u, visited st' u <-> visited st2 u).
    { intros u. split.
      - intros (d' & Hd' & Hi). destruct (Hshape _ _ Hd') as (du & Hdu & Ei & _).
        exists du. split; auto. congruence.
      - intros (du & Hdu & Hi).
        destruct (in_dec string_dec u (e ++ [v])) as [Hu|Hu].
        + exists (set_onStack false du). split; auto.
        + exists du. split; auto. rewrite (Hout_S _ Hu). exact Hdu. }
    assert (Hemit : emitted st' = emitted st2 ++ (e ++ [v])).
    { unfold emitted, st'. simpl. rewrite concat_app. simpl.
      now rewrite app_nil_r. }
    assert (Hlow_S : forall u, In u (e ++ [v]) ->
                               (index st <= lowLink_of st2 u)%Z).
    { intros u Hu. apply in_app_or in Hu. destruct Hu as [Hu|[<-|[]]].
      - destruct (inv_extra I e u Hs Hu) as (_ & Hl & _). lia.
      - lia. }
    assert (Hdone_S : forall u, In u (e ++ [v]) -> done_with graph st2 u).
    { intros u Hu. apply in_app_or in Hu. destruct Hu as [Hu|[<-|[]]]; auto.
      apply (inv_extra I e u Hs Hu). }
    assert (Hsucc_S : forall u y, In u (e ++ [v]) ->
                In y (getSuccessors graph u) ->
                In y (map_keys (nodes graph)) ->
                In y (emitted st2) \/ In y (e ++ [v])).
    { intros u y Hu Hy Hk.
      destruct (Hdone_S u Hu y Hy Hk) as [He|[Hst Hle]]; auto.
      right. rewrite Hs in Hst.
      replace (e ++ v :: stack st) with ((e ++ [v]) ++ stack st) in Hst
        by (rewrite <- app_assoc; reflexivity).
      apply in_app_or in Hst. destruct Hst as [Hst|Hst]; auto.
      exfalso. pose proof (Hvis_old _ Hst) as Hv.
      pose proof (visited_index_range _ _ W Hv) as Hr.
      rewrite <- (index_of_ext _ _ _ (tl_ext L) Hv) in Hr.
      pose proof (Hlow_S u Hu). lia. }
    constructor.
    + (* well-formedness of the state after the pop *)
      constructor.
      * apply (wf_index W2).
      * intros u. rewrite <- (wf_keys W2 u).
        destruct (in_dec string_dec u (e ++ [v])) as [Hu|Hu].
        -- split; intros _.
           ++ apply HSstack, (wf_stack W2) in Hu.
              destruct Hu as (du & Hdu & _). rewrite Hdu. discriminate.
           ++ pose proof (HSstack _ Hu) as Hon. apply (wf_stack W2) in Hon.
              destruct Hon as (du & Hdu & _).
              rewrite (Hin_S' _ _ Hu Hdu). discriminate.
        -- now rewrite (Hout_S _ Hu).
      * intros u d' Hd' Hi.
        destruct (in_dec string_dec u (e ++ [v])) as [Hu|Hu].
        -- destruct (Hin_S _ _ Hu Hd') as (du & _ & ->). reflexivity.
        -- rewrite (Hout_S _ Hu) in Hd'. eapply (wf_unvisited W2); eauto.
      * intros u d' Hd' Hi. destruct (Hshape _ _ Hd') as (du & Hdu & Ei & _).
        rewrite Ei. apply (wf_range W2 _ Hdu). congruence.
      * intros u. simpl. split.
        -- intros Hu.
           assert (Hnot : ~ In u (e ++ [v])).
           { intros Hin. apply (Hnew u Hin). now apply Hvis_old. }
           rewrite (Hout_S _ Hnot). apply (wf_stack W2).
           rewrite Hs. apply in_or_app. right. now right.
        -- intros (d' & Hd' & Ho).
           destruct (in_dec string_dec u (e ++ [v])) as [Hu|Hu].
           ++ destruct (Hin_S _ _ Hu Hd') as (du & _ & ->). discriminate.
           ++ rewrite (Hout_S _ Hu) in Hd'.
              assert (Hon : In u (stack st2)) by (apply (wf_stack W2); eauto).
              rewrite Hs in Hon. apply in_app_or in Hon.
              destruct Hon as [Hon|[<-|Hon]]; auto.
              ** exfalso. apply Hu. apply in_or_app. now left.
              ** exfalso. apply Hu. apply in_or_app. right. now left.
      * intros u. rewrite Hemit, in_app_iff. split.
        -- intros [Hu|Hu].
           ++ pose proof Hu as Hu'. apply (wf_emitted W2) in Hu'.
              destruct Hu' as (du & Hdu & Hi & Ho).
              assert (Hnot : ~ In u (e ++ [v])).
              { intros Hin. apply (emitted_not_on_stack _ _ W2 Hu).
                now apply HSstack. }
              exists du. rewrite (Hout_S _ Hnot). auto.
           ++ pose proof (HSstack _ Hu) as Hon.
              pose proof (on_stack_visited _ _ W2 Hon) as (du & Hdu & Hi).
              exists (set_onStack false du). split; auto.
        -- intros (d' & Hd' & Hi & Ho).
           destruct (in_dec string_dec u (e ++ [v])) as [Hu|Hu]; auto.
           left. rewrite (Hout_S _ Hu) in Hd'. apply (wf_emitted W2). eauto.
      * rewrite Hemit. apply NoDup_app.
        -- apply (wf_nodup W2).
        -- pose proof (wf_stack_nodup W2) as Hnd. rewrite Hs in Hnd.
           replace (e ++ v :: stack st) with ((e ++ [v]) ++ stack st) in Hnd
             by (rewrite <- app_assoc; reflexivity).
           now apply NoDup_app_remove_r in Hnd.
        -- intros u Hu Hin. apply (emitted_not_on_stack _ _ W2 Hu).
           now apply HSstack.
      * simpl. pose proof (wf_stack_nodup W2) as Hnd. rewrite Hs in Hnd.
        apply NoDup_app_remove_l in Hnd. now inversion Hnd.
      * intros i scc x y Hi Hx Hy Hk. simpl in Hi.
        apply nth_error_snoc_cases in Hi.
        destruct Hi as [[Hlt Hi]|[-> ->]].
        -- pose proof (wf_closed W2) as Hc.
           destruct (Hc i scc x y Hi Hx Hy Hk)
             as (j & scc' & Hj & Hnj & Hyj).
           exists j, scc'. repeat split; auto. simpl.
           rewrite nth_error_app1; auto.
           apply nth_error_Some. congruence.
        -- destruct (Hsucc_S x y Hx Hy Hk) as [He|Hin].
           ++ apply In_concat_nth in He. destruct He as (j & s' & Hj & Hyj).
              exists j, s'. simpl.
              assert (j < List.length (sccs st2))
                by (apply nth_error_Some; congruence).
              repeat split; auto; [lia|]. now rewrite nth_error_app1.
           ++ exists (List.length (sccs st2)), (e ++ [v]). simpl.
              repeat split; auto. apply nth_error_snoc_new.
      * intros scc x y Hscc Hx Hy. simpl in Hscc. apply in_app_or in Hscc.
        destruct Hscc as [Hscc|[<-|[]]].
        -- eapply (wf_scc W2); eauto.
        -- apply (reach_trans x v y).
           ++ apply in_app_or in Hx. destruct Hx as [Hx|[<-|[]]].
              ** apply (inv_extra I e x Hs Hx).
              ** apply reach_refl.
           ++ apply (inv_reach I).
              ** eapply on_stack_visited; eauto.
              ** now apply Hnew.
    + intros u Hv Hnu. apply Hvis_iff in Hv. apply (inv_reach I); auto.
    + intros extra x Hst Hx. simpl in Hst.
      assert (extra = []).
      { apply (f_equal (@List.length NodeId)) in Hst.
        rewrite length_app in Hst. destruct extra; auto. simpl in Hst. lia. }
      subst. contradiction.
    + intros _.
      assert (Hv : In v (e ++ [v])) by (apply in_or_app; right; now left).
      rewrite (lowLink_of_nd _ _ _ (Hin_S' _ _ Hv Hnode)). simpl. lia.
    + intros Hneq. simpl in Hneq. congruence.
  - (* [v] stays on the stack *)
    apply Z.eqb_neq in Root. inversion H; subst st'. clear H.
    destruct (inv_low I) as (Hle & w & Hw & Hwi & Hwr).
    assert (Hlt : (lowLink_of st2 v < index st)%Z) by lia.
    constructor.
    + exact W2.
    + apply (inv_reach I).
    + intros extra x Hst Hx.
      assert (extra = e ++ [v]).
      { apply (app_inv_tail (stack st)). rewrite <- Hst, Hs.
        now rewrite <- app_assoc. }
      subst extra. apply in_app_or in Hx. destruct Hx as [Hx|[<-|[]]].
      * apply (inv_extra I e x Hs Hx).
      * repeat split; auto; try lia. apply reach_refl.
    + intros Heq. contradiction.
    + intros _. split; [exact Hlt|].
      destruct Hw as [<-|Hw]; [lia|].
      exists w. repeat split; auto.
      rewrite <- (index_of_ext _ _ _ (tl_ext L) (Hvis_old _ Hw)). exact Hwi.
Qed.

(** [strongConnect] meets its contract, whatever the fuel it returned with. *)
Lemma strongConnect_correct :
  forall fuel v st st',
    strongConnect fuel graph v st = Some st' ->
    tarjan_pre graph v st ->
    tarjan_post graph v st st'.
Proof.
  induction fuel as [|fuel IH]; intros v st st' H P; simpl in H;
    [discriminate|].
  pose proof (pre_wf P) as W.
  destruct (pre_unvisited P) as (d0 & Hd0 & H0).
  assert (Hi : (0 <= index st)%Z) by apply (wf_index W).
  unfold nd in Hd0. rewrite Hd0 in H.
  match type of H with
  | match visitSuccessors _ _ _ ?s1 with _ => _ end = _ =>
      destruct (visitSuccessors (strongConnect fuel graph) v
                  (getSuccessors graph v) s1) as [st2|] eqn:V;
        [|discriminate]
  end.
  destruct (visitSuccessors_correct (strongConnect fuel graph)
              (strongConnect_frame graph fuel) IH v st P
              (getSuccessors graph v) [] _ st2 (fun y Hy => Hy) V
              (tarjan_loop_mark st v d0 Hi Hd0 H0)
              (tarjan_inv_mark v st P)) as [L I].
  simpl in I.
  destruct (map_get v (nodeData st2)) as [node|] eqn:Hnode; [|discriminate].
  exact (strongConnect_finish_correct v st st2 node st' P L I Hnode H).
Qed.

(** The outer loop: between two top-level calls the stack is empty. *)
Lemma runTarjan_correct fuel :
  forall ids st st',
    runTarjan fuel graph ids st = Some st' ->
    tarjan_wf graph st -> stack st = [] ->
    tarjan_wf graph st' /\ stack st' = [] /\
    (forall u, visited st u -> visited st' u) /\
    (forall id, In id ids -> visited st' id).
Proof.
  induction ids as [|id ids IH]; intros st st' H W Hst; simpl in H.
  - inversion H; subst. split; [|split; [|split]]; auto. intros id [].
  - destruct (map_get id (nodeData st)) as [node|] eqn:G; [|discriminate].
    destruct (nd_index node =? -1)%Z eqn:E.
    + apply Z.eqb_eq in E.
      destruct (strongConnect fuel graph id st) as [st1|] eqn:S1;
        [|discriminate].
      assert (Hun : exists d, nd st id = Some d /\ nd_index d = (-1)%Z)
        by (exists node; auto).
      assert (P : tarjan_pre graph id st).
      { constructor; auto. rewrite Hst. intros x []. }
      pose proof (strongConnect_correct fuel id st st1 S1 P) as Q.
      pose proof (strongConnect_frame graph fuel id st st1 S1
                    (wf_index W) Hun) as F.
      assert (Hst1 : stack st1 = []).
      { destruct (list_eq_dec string_dec (stack st1) (stack st)) as [Heq|Hne].
        - congruence.
        - destruct (post_low Q Hne) as (_ & w & Hw & _).
          rewrite Hst in Hw. destruct Hw. }
      destruct (IH st1 st' H (post_wf Q) Hst1) as (W' & Hs' & Hmono & Hall).
      split; [|split; [|split]]; auto.
      * intros u Hu. apply Hmono. eapply visited_ext; eauto. apply (tf_ext F).
      * intros u [<-|Hu]; auto. apply Hmono.
        destruct (tf_self F) as (d & Hd & Hdi). exists d. split; auto.
        pose proof (wf_index W). lia.
    + apply Z.eqb_neq in E.
      destruct (IH st st' H W Hst) as (W' & Hs' & Hmono & Hall).
      split; [|split; [|split]]; auto.
      intros u [<-|Hu]; auto. apply Hmono. exists node. auto.
Qed.

(** The state [findSCCs] starts from is well formed. *)
Lemma initial_state_wf :
  tarjan_wf graph {| index := 0; stack := []; nodeData := initNodeData graph;
                     sccs := [] |}.
Proof.
  destruct (initNodeData_spec graph) as (A & B & _).
  constructor; simpl.
  - lia.
  - intros u. apply B.
  - intros u d Hd _. apply A in Hd. now subst.
  - intros u d Hd Hi. apply A in Hd. subst. simpl in Hi. congruence.
  - intros u. split; [intros []|].
    intros (d & Hd & Ho). apply A in Hd. subst. discriminate.
  - intros u. split; [intros []|].
    intros (d & Hd & Hi & _). apply A in Hd. subst. simpl in Hi. congruence.
  - constructor.
  - constructor.
  - intros [|i] scc x y Hi; discriminate.
  - intros scc x y [].
Qed.

(** What [findSCCs] returns: components that partition the node ids, each
    strongly connected, emitted after the components their edges lead to. *)
Theorem findSCCs_correct (components : list (list NodeId)) :
  findSCCs graph = Some components ->
  NoDup (List.concat components) /\
  (forall u, In u (List.concat components) <->
             In u (map_keys (nodes graph))) /\
  (forall scc x y, In scc components -> In x scc -> In y scc ->
                   reach graph x y) /\
  (forall i scc x y,
      nth_error components i = Some scc -> In x scc ->
      In y (getSuccessors graph x) -> In y (map_keys (nodes graph)) ->
      exists j scc',
        j <= i /\ nth_error components j = Some scc' /\ In y scc').
Proof.
  unfold findSCCs. intros H.
  destruct (runTarjan (List.length (nodes graph)) graph
              (map_keys (nodes graph)) _) as [st|] eqn:R; [|discriminate].
  inversion H; subst components. clear H.
  destruct (runTarjan_correct _ _ _ _ R initial_state_wf eq_refl)
    as (W & Hs & _ & Hall).
  split; [apply (wf_nodup W)|]. split; [|split].
  - intros u. split.
    + intros Hu. apply (wf_keys W). apply (wf_emitted W) in Hu.
      destruct Hu as (d & Hd & _). rewrite Hd. discriminate.
    + intros Hu. destruct (visited_cases _ _ W (Hall u Hu)) as [Hon|He]; auto.
      rewrite Hs in Hon. destruct Hon.
  - apply (wf_scc W).
  - apply (wf_closed W).
Qed.

End TarjanCorrect.

(** ** The order of [modifiedTopologicalSort] on graphs without empty ids *)

Lemma before_nth_error {A : Type} (x y : A) (l : list A) :
  before x y l ->
  exists i j, nth_error l i = Some x /\ nth_error l j = Some y /\ i < j.
Proof.
  intros (l1 & l2 & l3 & ->).
  exists (List.length l1), (List.length l1 + S (List.length l2)).
  repeat split; [| |lia].
  - rewrite nth_error_app2 by lia. now rewrite Nat.sub_diag.
  - rewrite nth_error_app2 by lia.
    replace (List.length l1 + S (List.length l2) - List.length l1)
      with (S (List.length l2)) by lia.
    simpl. rewrite nth_error_app2 by lia. now rewrite Nat.sub_diag.
Qed.

Lemma NoDup_app_disjoint {A : Type} (l l' : list A) x :
  NoDup (l ++ l') -> In x l -> In x l' -> False.
Proof.
  induction l as [|a l IH]; intros Hnd Hl Hl'; [destruct Hl|].
  simpl in Hnd. inversion Hnd as [|? ? Hnot Hrest]; subst.
  destruct Hl as [->|Hl].
  - apply Hnot. apply in_or_app. now right.
  - now apply IH.
Qed.

Lemma component_unique {A : Type} (l : list (list A)) :
  NoDup (List.concat l) ->
  forall i j a b x,
    nth_error l i = Some a -> nth_error l j = Some b ->
    In x a -> In x b -> i = j.
Proof.
  induction l as [|s l IH]; intros Hnd i j a b x Hi Hj Ha Hb.
  - destruct i; discriminate.
  - simpl in Hnd.
    assert (Hl : NoDup (List.concat l)) by (eapply NoDup_app_remove_l; eauto).
    assert (Hsep : forall k c, nth_error l k = Some c -> In x s -> In x c ->
                               False).
    { intros k c Hk Hs Hc.
      apply (NoDup_app_disjoint _ _ x Hnd Hs). apply In_concat_nth. eauto. }
    destruct i as [|i], j as [|j]; simpl in Hi, Hj; auto.
    + inversion Hi; subst. exfalso. eapply Hsep; eauto.
    + inversion Hj; subst. exfalso. eapply Hsep; eauto.
    + f_equal. eapply IH; eauto.
Qed.

Lemma flat_map_agree {A B : Type} (f g : A -> list B) (l : list A) :
  (forall a, In a l -> f a = g a) -> flat_map f l = flat_map g l.
Proof.
  induction l as [|a l IH]; intros H; simpl; auto.
  rewrite (H a) by now left. f_equal. apply IH. intros; apply H. now right.
Qed.

Lemma flatten_all (components : list (list NodeId)) :
  flattenComponents components (seq 0 (List.length components))
  = List.concat components.
Proof.
  unfold flattenComponents.
  induction components as [|scc l IH] using rev_ind; [reflexivity|].
  rewrite length_app, Nat.add_comm. simpl List.length.
  rewrite seq_S, flat_map_app, concat_app. simpl.
  rewrite nth_error_snoc_new, !app_nil_r. f_equal.
  rewrite <- IH. apply flat_map_agree.
  intros c Hc. apply in_seq in Hc.
  now rewrite nth_error_app1 by lia.
Qed.

Lemma flatten_permutation (components : list (list NodeId)) order :
  Permutation order (seq 0 (List.length components)) ->
  Permutation (flattenComponents components order) (List.concat components).
Proof.
  intros H. rewrite <- flatten_all. unfold flattenComponents.
  now apply Permutation_flat_map.
Qed.

Lemma flatten_app (components : list (list NodeId)) l1 l2 :
  flattenComponents components (l1 ++ l2)
  = flattenComponents components l1 ++ flattenComponents components l2.
Proof. unfold flattenComponents. apply flat_map_app. Qed.

Lemma flatten_cons (components : list (list NodeId)) c scc l :
  nth_error components c = Some scc ->
  flattenComponents components (c :: l)
  = scc ++ flattenComponents components l.
Proof. intros H. unfold flattenComponents. simpl. now rewrite H. Qed.

(** The members of a component stand side by side. *)
Lemma flatten_contiguous (components : list (list NodeId)) order c scc :
  In c order -> nth_error components c = Some scc ->
  exists l1 l3, flattenComponents components order = l1 ++ scc ++ l3.
Proof.
  intros Hc Hn. apply in_split in Hc. destruct Hc as (o1 & o2 & ->).
  rewrite flatten_app, (flatten_cons _ _ _ _ Hn). eauto.
Qed.

(** The order of the components carries over to their members. *)
Lemma flatten_before (components : list (list NodeId)) order c s a b x y :
  before c s order ->
  nth_error components c = Some a -> nth_error components s = Some b ->
  In x a -> In y b ->
  before x y (flattenComponents components order).
Proof.
  intros (o1 & o2 & o3 & ->) Ha Hb Hx Hy.
  apply in_split in Hx. destruct Hx as (a1 & a2 & ->).
  apply in_split in Hy. destruct Hy as (b1 & b2 & ->).
  rewrite flatten_app, (flatten_cons _ _ _ _ Ha), flatten_app,
    (flatten_cons _ _ _ _ Hb).
  exists (flattenComponents components o1 ++ a1),
         (a2 ++ flattenComponents components o2 ++ b1),
         (b2 ++ flattenComponents components o3).
  repeat (rewrite <- app_assoc; simpl). reflexivity.
Qed.

Section SortCorrect.
Context {N : JSNumber}.
Variable graph : Graph.

Hypothesis ids_truthy : forall v, In v (map_keys (nodes graph)) -> v <> "".

(** The number [buildComponentGraph] gives a node is the position of its
    component. *)
Lemma component_number (components : list (list NodeId)) v c scc :
  NoDup (List.concat components) ->
  nth_error components c = Some scc -> In v scc ->
  map_get v (snd (numberComponents components)) = Some c.
Proof.
  intros Hnd Hn Hv.
  destruct (numberComponents_snd components v) as [Sound Complete].
  destruct (Complete c scc Hn Hv) as [c' Hc'].
  destruct (Sound c' Hc') as (scc' & Hn' & Hv').
  now rewrite (component_unique components Hnd c c' scc scc' v Hn Hn' Hv Hv').
Qed.

(** Tarjan's algorithm numbers the components in reverse topological
    order, which is what Kahn's algorithm needs. *)
Lemma components_ranked (components : list (list NodeId)) :
  findSCCs graph = Some components ->
  cg_ranked (buildComponentGraph components graph).
Proof.
  intros H.
  destruct (findSCCs_correct graph ids_truthy components H)
    as (Hnd & Hkeys & _ & Hclosed).
  destruct (buildComponentGraph_spec components graph)
    as (_ & _ & Hsound & _).
  intros c succs s Hin Hs.
  destruct (Hsound c succs s Hin Hs) as (edge & He & Hc & Hs' & Hne).
  destruct (proj1 (numberComponents_snd components _) c Hc)
    as (a & Ha & Hfrom).
  destruct (proj1 (numberComponents_snd components _) s Hs')
    as (b & Hb & Hto).
  assert (Hk : In (toNodeId edge) (map_keys (nodes graph))).
  { apply Hkeys. apply In_concat_nth. eauto. }
  assert (Hsucc : In (toNodeId edge) (getSuccessors graph (fromNodeId edge))).
  { apply getSuccessors_In. exists edge. auto. }
  destruct (Hclosed c a _ _ Ha Hfrom Hsucc Hk) as (j & b' & Hj & Hb' & Hto').
  assert (j = s)
    by (eapply (component_unique components Hnd); eauto).
  subst j. lia.
Qed.

(** Paths never lead to a component emitted later. *)
Lemma reach_descends (components : list (list NodeId)) :
  findSCCs graph = Some components ->
  forall x y, reach graph x y ->
  forall i a, nth_error components i = Some a -> In x a ->
  exists j b, j <= i /\ nth_error components j = Some b /\ In y b.
Proof.
  intros H.
  destruct (findSCCs_correct graph ids_truthy components H)
    as (_ & _ & _ & Hclosed).
  induction 1 as [x y (E & _ & Hy)|x|x y z _ IH1 _ IH2]; intros i a Hi Hx.
  - apply (Hclosed i a x y Hi Hx); auto. now apply getSuccessors_In.
  - exists i, a. auto.
  - destruct (IH1 i a Hi Hx) as (j & b & Hj & Hb & Hy).
    destruct (IH2 j b Hb Hy) as (k & c & Hk & Hc & Hz).
    exists k, c. repeat split; auto. lia.
Qed.

(** The components are the strongly connected components: each holds
    exactly the nodes that reach, and are reached from, any of its members. *)
Lemma components_strongly_connected (components : list (list NodeId)) :
  findSCCs graph = Some components ->
  forall scc x y,
    In scc components -> In x scc ->
    (In y scc <-> reach graph x y /\ reach graph y x).
Proof.
  intros H scc x y Hin Hx.
  destruct (findSCCs_correct graph ids_truthy components H)
    as (Hnd & _ & Hscc & _).
  split.
  - intros Hy. split; eapply Hscc; eauto.
  - intros [Hxy Hyx].
    apply In_nth_error in Hin. destruct Hin as [i Hi].
    destruct (reach_descends components H x y Hxy i scc Hi Hx)
      as (j & b & Hj & Hb & Hy).
    destruct (reach_descends components H y x Hyx j b Hb Hy)
      as (k & c & Hk & Hc & Hx').
    assert (k = i) by (eapply (component_unique components Hnd); eauto).
    assert (j = i) by lia. subst. congruence.
Qed.

(** The result of [modifiedTopologicalSort]: every node id once, the members
    of each strongly connected component side by side, and the source of
    every edge that joins two components before its destination. *)
Theorem modifiedTopologicalSort_correct :
  exists components order,
    findSCCs graph = Some components /\
    modifiedTopologicalSort graph = Some order /\
    NoDup order /\
    (forall u, In u order <-> In u (map_keys (nodes graph))) /\
    (forall scc x y, In scc components -> In x scc ->
                     (In y scc <-> reach graph x y /\ reach graph y x)) /\
    (forall scc, In scc components ->
                 exists l1 l3, order = l1 ++ scc ++ l3) /\
    (forall edge,
        In edge (edges graph) ->
        In (fromNodeId edge) (map_keys (nodes graph)) ->
        In (toNodeId edge) (map_keys (nodes graph)) ->
        (forall scc, In scc components ->
                     ~ (In (fromNodeId edge) scc /\ In (toNodeId edge) scc)) ->
        before (fromNodeId edge) (toNodeId edge) order).
Proof.
  destruct (findSCCs_total graph) as [components Hf].
  pose proof (components_ranked components Hf) as Hrank.
  destruct (findSCCs_correct graph ids_truthy components Hf)
    as (Hnd & Hkeys & Hscc & _).
  destruct (buildComponentGraph_spec components graph)
    as (Hk & Hwf & _ & Hcomplete).
  destruct (topologicalSortComponents_spec _ Hwf Hrank)
    as (corder & Hsort & Hperm & Hbefore).
  rewrite Hk in Hperm.
  pose proof (flatten_permutation components corder Hperm) as Hflat.
  exists components, (flattenComponents components corder).
  split; [exact Hf|]. split.
  { unfold modifiedTopologicalSort. now rewrite Hf, Hsort. }
  split; [|split; [|split; [|split]]].
  - apply (Permutation_NoDup (Permutation_sym Hflat) Hnd).
  - intros u. rewrite <- Hkeys. split; intros Hu.
    + apply (Permutation_in _ Hflat Hu).
    + apply (Permutation_in _ (Permutation_sym Hflat) Hu).
  - apply (components_strongly_connected components Hf).
  - intros scc Hin. apply In_nth_error in Hin. destruct Hin as [c Hc].
    apply (flatten_contiguous components corder c scc); auto.
    apply (Permutation_in _ (Permutation_sym Hperm)). apply in_seq.
    assert (c < List.length components)
      by (apply nth_error_Some; congruence).
    lia.
  - intros edge He Hfrom Hto Hdiff.
    apply Hkeys, In_concat_nth in Hfrom. destruct Hfrom as (c & a & Ha & Hx).
    apply Hkeys, In_concat_nth in Hto. destruct Hto as (s & b & Hb & Hy).
    assert (Hne : c <> s).
    { intros ->. rewrite Ha in Hb. inversion Hb; subst b.
      apply (Hdiff a); auto. eapply nth_error_In; eauto. }
    destruct (Hcomplete edge c s He
                (component_number components _ c a Hnd Ha Hx)
                (component_number components _ s b Hnd Hb Hy) Hne)
      as (succs & Hin & Hs).
    apply (flatten_before components corder c s a b); auto.
    apply (Hbefore c succs s Hin Hs).
Qed.

(** On an acyclic graph whose edges join nodes of the graph, the result is
    a topological order. *)
Theorem modifiedTopologicalSort_acyclic :
  acyclic graph ->
  (forall edge, In edge (edges graph) ->
                In (fromNodeId edge) (map_keys (nodes graph)) /\
                In (toNodeId edge) (map_keys (nodes graph))) ->
  exists order,
    modifiedTopologicalSort graph = Some order /\
    NoDup order /\
    (forall u, In u order <-> In u (map_keys (nodes graph))) /\
    topological_order graph order.
Proof.
  intros Hacyc Hclosed.
  destruct modifiedTopologicalSort_correct
    as (components & order & _ & Hsort & Hnd & Hkeys & Hscc & _ & Hedges).
  exists order. repeat split; auto; try apply Hkeys.
  intros edge He. destruct (Hclosed edge He) as [Hfrom Hto].
  apply before_nth_error. apply Hedges; auto.
  intros scc Hin [Hx Hy].
  apply (Hacyc (toNodeId edge)).
  apply clos_rt_t with (y := fromNodeId edge).
  - pose proof (proj1 (proj1 (Hscc scc _ _ Hin Hy) Hx)) as R.
    clear - R. induction R as [a b [E _]|a|a b c _ IH1 _ IH2].
    + now apply rt_step.
    + apply rt_refl.
    + eapply rt_trans; eauto.
  - apply t_step. exists edge. auto.
Qed.

(** On such a graph it is enough that every edge starts at a node of the
    graph for the engine to meet no fatal condition. *)
Lemma valid_graph_consistent order :
  (forall edge, In edge (edges graph) ->
                In (fromNodeId edge) (map_keys (nodes graph))) ->
  modifiedTopologicalSort graph = Some order ->
  consistent graph order.
Proof.
  intros Hsrc Ho.
  destruct modifiedTopologicalSort_correct
    as (components & order' & _ & Ho' & _ & Hkeys & _).
  rewrite Ho in Ho'. inversion Ho'; subst order'.
  intros nodeId Hin [Hnone|(node & edge & port & _ & He & _ & _ & Hnot)].
  - apply map_get_None_iff in Hnone. apply Hnone. now apply Hkeys.
  - apply Hnot. apply Hkeys. now apply Hsrc.
Qed.

(** Hence [MultiPassStrategy(n)] runs [n] iterations on every such graph. *)
Corollary multipass_on_valid_graph (n : nat)
    (initialState : option (JSMap JSValue)) :
  1 <= n ->
  (forall edge, In edge (edges graph) ->
                In (fromNodeId edge) (map_keys (nodes graph))) ->
  exists r,
    execute (MultiPassStrategy n) n tt graph initialState
    = Some (Normal r) /\ iterations r = n.
Proof.
  intros Hn Hsrc.
  destruct (modifiedTopologicalSort_total graph) as [order Ho].
  unfold execute.
  apply executeLoop_multipass with (order := order); auto; try lia.
  now apply valid_graph_consistent.
Qed.

End SortCorrect.

(** ** The general results at the graphs of the tests *)

Section OrderRuns.
#[local] Existing Instance ZNumber.

Example cycle_graph_order :
  modifiedTopologicalSort cycle_graph = Some ["INPUT"; "C"; "B"; "A"].
Proof. reflexivity. Qed.

(** The cycle A -> B -> C -> A is one component, standing side by side in
    the order, after the node that feeds it. *)
Example cycle_graph_components :
  exists components order,
    findSCCs cycle_graph = Some components /\
    modifiedTopologicalSort cycle_graph = Some order /\
    In ["C"; "B"; "A"] components /\
    (exists l1 l3, order = l1 ++ ["C"; "B"; "A"] ++ l3) /\
    before "INPUT" "A" order.
Proof.
  destruct (@modifiedTopologicalSort_correct ZNumber cycle_graph)
    as (components & order & Hf & Ho & _ & _ & _ & Hcont & Hedge).
  { simpl. intros v [<-|[<-|[<-|[<-|[]]]]]; discriminate. }
  exists components, order.
  assert (Hc : components = [["C"; "B"; "A"]; ["INPUT"]])
    by (vm_compute in Hf; congruence).
  repeat split; auto.
  - subst components. now left.
  - apply Hcont. subst components. now left.
  - apply (Hedge (deltaEdge "e0" "INPUT" "A")); simpl; auto.
    subst components.
    intros scc [<-|[<-|[]]] [H1 H2]; simpl in H1, H2;
      intuition discriminate.
Qed.

(** The fan-in graph is acyclic, so its order is a topological order. *)
Example fan_in_graph_topological_order :
  exists order,
    modifiedTopologicalSort fan_in_graph = Some order /\
    NoDup order /\
    (forall u, In u order <-> In u (map_keys (nodes fan_in_graph))) /\
    topological_order fan_in_graph order.
Proof.
  apply (@modifiedTopologicalSort_acyclic ZNumber fan_in_graph).
  - simpl. intros v [<-|[<-|[<-|[]]]]; discriminate.
  - apply acyclic_by_rank
      with (rank := fun x => if String.eqb x "T" then 1 else 0).
    intros edge [<-|[<-|[]]]; simpl; lia.
  - intros edge [<-|[<-|[]]]; simpl; auto 6.
Qed.

(** [MultiPassStrategy(3)] on the cycle of the integration tests. *)
Example cycle_graph_multipass :
  exists r,
    execute (MultiPassStrategy 3) 3 tt cycle_graph None = Some (Normal r) /\
    iterations r = 3.
Proof.
  apply (@multipass_on_valid_graph ZNumber cycle_graph).
  - simpl. intros v [<-|[<-|[<-|[<-|[]]]]]; discriminate.
  - lia.
  - intros edge [<-|[<-|[<-|[<-|[]]]]]; simpl; auto 6.
Qed.

End OrderRuns.

(** * Graph validation *)

Section ValidateFacts.
Context {N : JSNumber}.

Lemma PortKind_eqb_eq a b : PortKind_eqb a b = true <-> a = b.
Proof. destruct a, b; simpl; split; congruence. Qed.

Lemma somePort_findPort ports portId :
  somePort ports portId = true <-> findPort ports portId <> None.
Proof.
  unfold somePort, findPort.
  induction (map snd ports) as [|p l IH]; simpl.
  - split; [discriminate|congruence].
  - destruct (String.eqb (port_id p) portId); simpl; auto.
    split; [discriminate|reflexivity].
Qed.

Lemma existsb_eqb_mem (x : string) (l : list string) :
  existsb (String.eqb x) l = true <-> In x l.
Proof.
  rewrite existsb_exists. split.
  - intros (y & Hy & E). apply String.eqb_eq in E. now subst.
  - intros H. exists x. split; auto. apply String.eqb_refl.
Qed.

Let ids (ports : list (string * PortDescriptor)) : list string :=
  map (fun entry => port_id (snd entry)) ports.

(** The port loop succeeds exactly on ports of the expected kind whose ids
    are new and distinct, and then has added them to the set. *)
Lemma validatePorts_valid nodeId kind :
  forall ports seen seen',
    validatePorts nodeId kind ports seen = Valid seen' <->
    (forall key port, In (key, port) ports -> port_kind port = kind) /\
    NoDup (ids ports) /\
    (forall id, In id (ids ports) -> ~ In id seen) /\
    seen' = seen ++ ids ports.
Proof.
  induction ports as [|[key port] rest IH]; intros seen seen'; simpl.
  - rewrite app_nil_r. split.
    + intros H. inversion H; subst.
      split; [intros ? ? []|]. split; [constructor|].
      split; [intros ? []|reflexivity].
    + intros (_ & _ & _ & ->). reflexivity.
  - destruct (PortKind_eqb (port_kind port) kind) eqn:K; simpl.
    + apply PortKind_eqb_eq in K.
      destruct (existsb (String.eqb (port_id port)) seen) eqn:S.
      * apply existsb_eqb_mem in S. split; [discriminate|].
        intros (_ & _ & Hnew & _).
        exfalso. apply (Hnew (port_id port)); [now left|exact S].
      * assert (Hns : ~ In (port_id port) seen).
        { intros Hin. apply existsb_eqb_mem in Hin. congruence. }
        rewrite IH. split.
        -- intros (Hk & Hnd & Hnew & ->). split; [|split; [|split]].
           ++ intros k p [E|Hin]; [inversion E; subst; auto|eauto].
           ++ constructor; auto. intros Hin.
              apply (Hnew _ Hin). apply in_or_app. right. now left.
           ++ intros id [<-|Hin]; auto. intros Hs.
              apply (Hnew _ Hin). apply in_or_app. now left.
           ++ now rewrite <- app_assoc.
        -- intros (Hk & Hnd & Hnew & ->). inversion Hnd; subst.
           split; [|split; [|split]].
           ++ intros k p Hin. apply (Hk k p). now right.
           ++ assumption.
           ++ intros id Hin Hs. apply in_app_or in Hs.
              destruct Hs as [Hs|[<-|[]]].
              ** apply (Hnew id); [now right|exact Hs].
              ** contradiction.
           ++ now rewrite <- app_assoc.
    + split; [discriminate|].
      intros (Hk & _). rewrite (Hk key port) in K by now left.
      destruct kind; discriminate.
Qed.

(** What the port loop throws names a port of the wrong kind, or a port
    whose id an earlier port (or the set passed in) already has. *)
Lemma validatePorts_invalid nodeId kind :
  forall ports seen e,
    validatePorts nodeId kind ports seen = Invalid e ->
    (exists key port,
        e = PortKindMismatch key nodeId (port_kind port) kind /\
        In (key, port) ports /\ port_kind port <> kind) \/
    (exists earlier key port later,
        e = DuplicatePortId (port_id port) kind nodeId /\
        ports = earlier ++ (key, port) :: later /\
        In (port_id port) (seen ++ ids earlier)).
Proof.
  induction ports as [|[key port] rest IH]; intros seen e H; simpl in H;
    [discriminate|].
  destruct (PortKind_eqb (port_kind port) kind) eqn:K; simpl in H.
  - destruct (existsb (String.eqb (port_id port)) seen) eqn:S.
    + inversion H; subst. right. exists [], key, port, rest.
      repeat split; auto. rewrite app_nil_r. now apply existsb_eqb_mem.
    + destruct (IH _ _ H) as [(k & p & -> & Hin & Hne)
                             |(earlier & k & p & later & -> & -> & Hin)].
      * left. exists k, p. repeat split; auto. now right.
      * right. exists ((key, port) :: earlier), k, p, later.
        repeat split; auto. simpl. rewrite <- app_assoc in Hin. exact Hin.
  - inversion H; subst. left. exists key, port. repeat split; auto.
    + now left.
    + intros E. apply PortKind_eqb_eq in E. congruence.
Qed.

Lemma validatePorts_fresh_valid nodeId kind ports :
  (exists seen', validatePorts nodeId kind ports [] = Valid seen') <->
  ports_ok kind ports.
Proof.
  unfold ports_ok. split.
  - intros [seen' H]. apply validatePorts_valid in H.
    destruct H as (Hk & Hnd & _ & _). auto.
  - intros [Hk Hnd]. exists ([] ++ ids ports).
    apply validatePorts_valid. split; [|split; [|split]]; auto.
Qed.

Lemma validateNodes_valid :
  forall entries,
    validateNodes entries = Valid tt <->
    (forall nodeId node,
        In (nodeId, node) entries ->
        ports_ok input (inputs node) /\ ports_ok output (outputs node)).
Proof.
  induction entries as [|[nodeId node] rest IH]; simpl.
  - split; auto. intros _ ? ? [].
  - destruct (validatePorts nodeId input (inputs node) []) as [s1|e1] eqn:V1;
      simpl.
    + destruct (validatePorts nodeId output (outputs node) []) as [s2|e2]
        eqn:V2; simpl.
      * rewrite IH. split.
        -- intros H i n [E|Hin]; [|eauto]. inversion E; subst.
           split;
             [apply (proj1 (validatePorts_fresh_valid i input (inputs n)))
             |apply (proj1 (validatePorts_fresh_valid i output (outputs n)))];
             eauto.
        -- intros H i n Hin. apply (H i n). now right.
      * split; [discriminate|]. intros H.
        destruct (H nodeId node (or_introl eq_refl)) as [_ Ho].
        apply (proj2 (validatePorts_fresh_valid nodeId output _)) in Ho.
        destruct Ho as [s Ho]. congruence.
    + split; [discriminate|]. intros H.
      destruct (H nodeId node (or_introl eq_refl)) as [Hi _].
      apply (proj2 (validatePorts_fresh_valid nodeId input _)) in Hi.
      destruct Hi as [s Hi]. congruence.
Qed.

Lemma validatePorts_describes graph nodeId node kind e :
  In (nodeId, node) (nodes graph) ->
  validatePorts nodeId kind (ports_of kind node) [] = Invalid e ->
  describes graph e /\ edge_error e = false.
Proof.
  intros Hin H. apply validatePorts_invalid in H.
  destruct H as [(k & p & -> & Hp & Hne)
                |(earlier & k & p & later & -> & Hports & Hdup)];
    simpl; split; auto.
  - exists node, p. auto.
  - exists node, earlier, k, p, later. auto.
Qed.

Lemma validateNodes_invalid graph :
  forall entries e,
    (forall entry, In entry entries -> In entry (nodes graph)) ->
    validateNodes entries = Invalid e ->
    describes graph e /\ edge_error e = false.
Proof.
  induction entries as [|[nodeId node] rest IH]; intros e Hsub H; simpl in H;
    [discriminate|].
  assert (Hin : In (nodeId, node) (nodes graph)) by (apply Hsub; now left).
  destruct (validatePorts nodeId input (inputs node) []) as [s1|e1] eqn:V1;
    simpl in H.
  - destruct (validatePorts nodeId output (outputs node) []) as [s2|e2]
      eqn:V2; simpl in H.
    + apply IH; auto. intros entry He. apply Hsub. now right.
    + inversion H; subst.
      apply (validatePorts_describes graph nodeId node output); auto.
  - inversion H; subst.
    apply (validatePorts_describes graph nodeId node input); auto.
Qed.

Lemma validateEdge_valid graph edge :
  validateEdge graph edge = Valid tt <-> edge_ok graph edge.
Proof.
  unfold validateEdge, edge_ok.
  destruct (map_get (fromNodeId edge) (nodes graph)) as [fromNode|] eqn:F.
  2:{ split; [discriminate|]. intros (a & b & H & _). discriminate. }
  destruct (map_get (toNodeId edge) (nodes graph)) as [toNode|] eqn:T.
  2:{ split; [discriminate|]. intros (a & b & _ & H & _). discriminate. }
  destruct (somePort (outputs fromNode) (fromPortId edge)) eqn:O; simpl.
  - destruct (somePort (inputs toNode) (toPortId edge)) eqn:I; simpl.
    + split; auto. intros _. exists fromNode, toNode.
      repeat split; auto; now apply somePort_findPort.
    + split; [discriminate|].
      intros (a & b & Ha & Hb & _ & Hi). inversion Hb; subst b.
      apply somePort_findPort in Hi. congruence.
  - split; [discriminate|].
    intros (a & b & Ha & _ & Ho & _). inversion Ha; subst a.
    apply somePort_findPort in Ho. congruence.
Qed.

Lemma somePort_false ports portId :
  somePort ports portId = false -> findPort ports portId = None.
Proof.
  intros H. destruct (findPort ports portId) eqn:F; auto.
  assert (X : findPort ports portId <> None) by congruence.
  apply somePort_findPort in X. congruence.
Qed.

Lemma validateEdge_invalid graph edge e :
  In edge (edges graph) ->
  validateEdge graph edge = Invalid e ->
  describes graph e /\ edge_error e = true.
Proof.
  unfold validateEdge. intros Hin H.
  destruct (map_get (fromNodeId edge) (nodes graph)) as [fromNode|] eqn:F.
  2:{ inversion H; subst. simpl. split; auto. exists edge. auto. }
  destruct (map_get (toNodeId edge) (nodes graph)) as [toNode|] eqn:T.
  2:{ inversion H; subst. simpl. split; auto. exists edge. auto. }
  destruct (somePort (outputs fromNode) (fromPortId edge)) eqn:O;
    simpl in H.
  - destruct (somePort (inputs toNode) (toPortId edge)) eqn:I; simpl in H;
      [discriminate|].
    inversion H; subst. simpl. split; auto. exists edge, toNode.
    repeat split; auto. now apply somePort_false.
  - inversion H; subst. simpl. split; auto. exists edge, fromNode.
    repeat split; auto. now apply somePort_false.
Qed.

Lemma validateEdges_valid graph :
  forall todo,
    validateEdges graph todo = Valid tt <->
    (forall edge, In edge todo -> edge_ok graph edge).
Proof.
  induction todo as [|edge rest IH]; simpl.
  - split; auto. intros _ ? [].
  - destruct (validateEdge graph edge) as [[]|e] eqn:V; simpl.
    + rewrite IH. split.
      * intros H x [<-|Hx]; auto. now apply validateEdge_valid.
      * intros H x Hx. apply H. now right.
    + split; [discriminate|]. intros H.
      assert (X : validateEdge graph edge = Valid tt)
        by (apply validateEdge_valid, H; now left).
      congruence.
Qed.

Lemma validateEdges_invalid graph :
  forall todo e,
    (forall edge, In edge todo -> In edge (edges graph)) ->
    validateEdges graph todo = Invalid e ->
    describes graph e /\ edge_error e = true.
Proof.
  induction todo as [|edge rest IH]; intros e Hsub H; simpl in H;
    [discriminate|].
  destruct (validateEdge graph edge) as [[]|e'] eqn:V; simpl in H.
  - apply IH; auto. intros x Hx. apply Hsub. now right.
  - inversion H; subst. apply (validateEdge_invalid graph edge); auto.
    apply Hsub. now left.
Qed.

(** X1: [validateGraph] returns normally exactly on the graphs whose ports have
    the kind of their role and distinct ids within it, and whose edges join
    an existing output port to an existing input port of nodes of the
    graph. *)
Theorem validateGraph_accepts_exactly_valid_graphs (graph : Graph) :
  validateGraph graph = Valid tt <-> valid_graph graph.
Proof.
  unfold validateGraph, valid_graph.
  destruct (validateNodes (nodes graph)) as [[]|e] eqn:V; simpl.
  - rewrite validateEdges_valid. split.
    + intros H. split; auto. now apply validateNodes_valid.
    + intros [_ H]. exact H.
  - split; [discriminate|]. intros [H _].
    apply validateNodes_valid in H. congruence.
Qed.

(** X2: The error [validateGraph] throws is true of the graph, and the ports of
    every node are checked before any edge: an edge error means that all
    ports passed. *)
Theorem validateGraph_error_is_genuine (graph : Graph)
    (e : ValidationError) :
  validateGraph graph = Invalid e ->
  describes graph e /\
  (edge_error e = true ->
   forall nodeId node,
     In (nodeId, node) (nodes graph) ->
     ports_ok input (inputs node) /\ ports_ok output (outputs node)).
Proof.
  unfold validateGraph. intros H.
  destruct (validateNodes (nodes graph)) as [[]|e'] eqn:V; simpl in H.
  - destruct (validateEdges_invalid graph (edges graph) e (fun _ H => H) H)
      as [D _].
    split; auto. intros _. now apply validateNodes_valid.
  - inversion H; subst e'.
    destruct (validateNodes_invalid graph (nodes graph) e (fun _ H => H) V)
      as [D E].
    split; auto. intros X. congruence.
Qed.

End ValidateFacts.

(** ** Validation and the graph helpers *)

Section ValidateBuild.
Context {N : JSNumber}.

Lemma map_set_fresh {V : Type} (k : string) (v : V) (m : JSMap V) :
  map_has k m = false -> map_set k v m = m ++ [(k, v)].
Proof.
  unfold map_has. induction m as [|[k' v'] m IH]; simpl; auto.
  destruct (String.eqb k' k) eqn:E; [discriminate|].
  intros H. now rewrite IH.
Qed.

Lemma map_get_app_fresh {V : Type} (k x : string) (v : V) (m : JSMap V) :
  map_get x (m ++ [(k, v)])
  = match map_get x m with
    | Some w => Some w
    | None => if String.eqb k x then Some v else None
    end.
Proof.
  induction m as [|[k' v'] m IH]; simpl; auto.
  destruct (String.eqb k' x); auto.
Qed.

Lemma edge_ok_same_nodes (g g' : Graph) (edge : Edge) :
  (forall x nd0, map_get x (nodes g) = Some nd0 ->
                 map_get x (nodes g') = Some nd0) ->
  edge_ok g edge -> edge_ok g' edge.
Proof.
  intros Hsub (a & b & Ha & Hb & Ho & Hi). exists a, b. auto.
Qed.

(** X3: [addEdge] checks nothing, and the graph it returns passes validation
    exactly when the graph it was given does and the edge joins existing
    ports of existing nodes. *)
Theorem validateGraph_after_addEdge (graph : Graph) (edge : Edge) :
  validateGraph (addEdgeV graph edge) = Valid tt <->
  validateGraph graph = Valid tt /\ edge_ok graph edge.
Proof.
  rewrite !validateGraph_accepts_exactly_valid_graphs.
  unfold valid_graph, addEdgeV. simpl. split.
  - intros [Hn He]. split; [split; auto|].
    + intros x Hx.
      apply (edge_ok_same_nodes _ graph x (fun _ _ H => H)).
      apply He. apply in_or_app. now left.
    + apply (edge_ok_same_nodes _ graph edge (fun _ _ H => H)).
      apply He. apply in_or_app. right. now left.
  - intros [[Hn He] Hedge]. split; auto.
    intros x Hx. apply in_app_or in Hx. destruct Hx as [Hx|[<-|[]]].
    + apply (edge_ok_same_nodes graph _ x (fun _ _ H => H)). auto.
    + apply (edge_ok_same_nodes graph _ edge (fun _ _ H => H)). auto.
Qed.

(** X4: Adding a node to a graph that passes validation gives a graph that
    passes it exactly when the ports of the new node are well formed; the
    node comes last in the iteration order of the node map and every other
    entry is kept. *)
Theorem validateGraph_after_addNode (graph graph' : Graph)
    (node : NodeDefinition) :
  validateGraph graph = Valid tt ->
  addNodeV graph node = Normal graph' ->
  nodes graph' = nodes graph ++ [(node_id node, node)] /\
  edges graph' = edges graph /\
  (validateGraph graph' = Valid tt <->
   ports_ok input (inputs node) /\ ports_ok output (outputs node)).
Proof.
  intros Hv Hadd. unfold addNodeV in Hadd.
  destruct (map_has (node_id node) (nodes graph)) eqn:Hhas; [discriminate|].
  inversion Hadd; subst graph'. clear Hadd. simpl.
  rewrite (map_set_fresh _ _ _ Hhas).
  split; [reflexivity|]. split; [reflexivity|].
  apply validateGraph_accepts_exactly_valid_graphs in Hv.
  destruct Hv as [Hn He].
  rewrite validateGraph_accepts_exactly_valid_graphs.
  unfold valid_graph. simpl. split.
  - intros [Hn' _]. apply (Hn' (node_id node) node).
    apply in_or_app. right. now left.
  - intros Hports. split.
    + intros i n Hin. apply in_app_or in Hin.
      destruct Hin as [Hin|[E|[]]]; [eauto|]. inversion E; subst. exact Hports.
    + intros x Hx. destruct (He x Hx) as (a & b & Ha & Hb & Ho & Hi).
      exists a, b. simpl. rewrite !map_get_app_fresh, Ha, Hb. auto.
Qed.

End ValidateBuild.

Section ValidatedRuns.
Context {N : JSNumber}.
Variable graph : Graph.
Hypothesis ids_truthy : forall v, In v (map_keys (nodes graph)) -> v <> "".

(** X16: The engine does not validate again: on a graph that passed
    [validateGraph] (and has no empty node id) a run of
    [MultiPassStrategy(n)] meets no fatal condition and returns after [n]
    iterations. *)
Theorem validated_graph_runs_to_completion (n : nat)
    (initialState : option (JSMap JSValue)) :
  validateGraph graph = Valid tt ->
  1 <= n ->
  exists order r,
    modifiedTopologicalSort graph = Some order /\
    consistent graph order /\
    execute (MultiPassStrategy n) n tt graph initialState
    = Some (Normal r) /\
    iterations r = n.
Proof.
  intros Hv Hn.
  apply validateGraph_accepts_exactly_valid_graphs in Hv.
  destruct Hv as [_ He].
  assert (Hsrc : forall edge, In edge (edges graph) ->
                              In (fromNodeId edge) (map_keys (nodes graph))).
  { intros edge Hin. destruct (He edge Hin) as (a & b & Ha & _).
    apply (@map_get_In_keys _ (nodes graph) (fromNodeId edge) a Ha). }
  destruct (modifiedTopologicalSort_total graph) as [order Ho].
  destruct (multipass_on_valid_graph graph ids_truthy n initialState Hn Hsrc)
    as (r & Hr & Hit).
  exists order, r. repeat split; auto.
  now apply valid_graph_consistent.
Qed.

End ValidatedRuns.

(** ** The graph store: [createGraph] and [addEdge] *)

Section GraphStoreMore.
Context {N : JSNumber}.

(** X5: [createGraph()] allocates a new map and a new array, both empty, and
    touches nothing else. *)
Theorem createGraph_fresh_and_empty (h : Heap) :
  heap_preserved h (fst (createGraph h)) /\
  deref (fst (createGraph h)) (snd (createGraph h)) = Some emptyGraph /\
  read_map h (nodes_ref (snd (createGraph h))) = None /\
  read_array h (edges_ref (snd (createGraph h))) = None.
Proof.
  unfold createGraph, alloc_map, alloc_array, deref, read_map, read_array.
  simpl. split; [|split; [|split]].
  - pose proof (heap_preserved_grow h [[]] [[]]) as P. exact P.
  - now rewrite !nth_error_snoc_new.
  - apply nth_error_None. lia.
  - apply nth_error_None. lia.
Qed.

(** X6: [addEdge(g, e)] never throws and changes no existing object: [g] still
    denotes the same graph, the result shares the node map of [g] (the same
    object, not a copy) and holds a new array, the edges of [g] followed by
    [e]. *)
Theorem addEdge_appends_and_shares_nodes (h : Heap) (g : GraphRef)
    (edge : Edge) (v : Graph) :
  deref h g = Some v ->
  heap_preserved h (fst (addEdge h g edge)) /\
  deref (fst (addEdge h g edge)) g = Some v /\
  nodes_ref (snd (addEdge h g edge)) = nodes_ref g /\
  read_array h (edges_ref (snd (addEdge h g edge))) = None /\
  deref (fst (addEdge h g edge)) (snd (addEdge h g edge))
  = Some {| nodes := nodes v; edges := edges v ++ [edge] |}.
Proof.
  intros Hd. unfold deref in Hd.
  destruct (read_map h (nodes_ref g)) as [gm|] eqn:Hm; [|discriminate].
  destruct (read_array h (edges_ref g)) as [ga|] eqn:Ha; [|discriminate].
  inversion Hd; subst v. clear Hd. simpl.
  unfold addEdge. rewrite Ha. simpl.
  destruct (alloc_array_preserved h (ga ++ [edge])) as [P R].
  simpl in P, R.
  split; [exact P|]. destruct P as [PM PA].
  split; [|split; [reflexivity|split]].
  - unfold deref. now rewrite (PM _ _ Hm), (PA _ _ Ha).
  - unfold read_array. apply nth_error_None. lia.
  - unfold deref. simpl. now rewrite (PM _ _ Hm), R.
Qed.

End GraphStoreMore.

(** ** The topology analyzer on arbitrary graphs *)

Section TarjanMembers.
Context {N : JSNumber}.
Variable graph : Graph.

Lemma members_lower st id x :
  members_ok graph st ->
  members_ok graph
    (with_nodeData st (nd_modify id (lower_lowLink x) (nodeData st))).
Proof.
  intros (K & S & C).
  assert (Hnd : forall u,
             nd (with_nodeData st
                   (nd_modify id (lower_lowLink x) (nodeData st))) u <> None
             <-> nd st u <> None).
  { intros u. unfold nd. simpl. rewrite nd_modify_get.
    destruct (String.eqb id u); [|tauto].
    destruct (map_get u (nodeData st)); simpl; split; congruence. }
  split; [|split]; simpl.
  - intros u Hu. apply K. now apply Hnd.
  - intros w Hw. apply Hnd. now apply S.
  - intros scc w Hs Hw. destruct (C scc w Hs Hw) as [Hne Hk].
    split; auto. now apply Hnd.
Qed.

Lemma visitSuccessors_members
    (rec : NodeId -> TarjanState -> option TarjanState) :
  (forall s cur cur',
      rec s cur = Some cur' -> members_ok graph cur ->
      members_ok graph cur') ->
  forall v succs cur st2,
    visitSuccessors rec v succs cur = Some st2 ->
    members_ok graph cur -> members_ok graph st2.
Proof.
  intros Hrec v. induction succs as [|y succs IH]; intros cur st2 H M;
    simpl in H.
  - inversion H; now subst.
  - destruct (map_get y (nodeData cur)) as [successor|]; [|eauto].
    destruct (nd_index successor =? -1)%Z.
    + destruct (rec y cur) as [cur'|] eqn:R; [|discriminate].
      eapply IH; eauto. apply members_lower. eapply Hrec; eauto.
    + destruct (nd_onStack successor); [|eauto].
      eapply IH; eauto. now apply members_lower.
Qed.

Lemma strongConnect_members :
  forall fuel v st st',
    strongConnect fuel graph v st = Some st' ->
    members_ok graph st -> members_ok graph st'.
Proof.
  induction fuel as [|fuel IH]; intros v st st' H M; simpl in H;
    [discriminate|].
  destruct (map_get v (nodeData st)) as [d0|] eqn:Hd0; [|discriminate].
  match type of H with
  | match visitSuccessors _ _ _ ?s1 with _ => _ end = _ =>
      set (st1 := s1) in *
  end.
  assert (M1 : members_ok graph st1).
  { destruct M as (K & S & C).
    assert (Hnd : forall u, nd st1 u <> None <-> nd st u <> None).
    { intros u. unfold nd, st1. simpl.
      destruct (string_dec v u) as [<-|Hne].
      - rewrite map_get_set_same, Hd0. split; congruence.
      - now rewrite map_get_set_other. }
    split; [|split].
    - intros u Hu. apply K. now apply Hnd.
    - intros w [<-|Hw]; apply Hnd; [unfold nd; congruence|now apply S].
    - intros scc w Hs Hw. destruct (C scc w Hs Hw). split; auto.
      now apply Hnd. }
  destruct (visitSuccessors (strongConnect fuel graph) v
              (getSuccessors graph v) st1) as [st2|] eqn:V; [|discriminate].
  assert (M2 : members_ok graph st2)
    by (eapply (visitSuccessors_members (strongConnect fuel graph)); eauto).
  destruct (map_get v (nodeData st2)) as [node|]; [|discriminate].
  destruct (nd_lowLink node =? nd_index node)%Z;
    [|inversion H; now subst].
  destruct (popScc v (stack st2) (nodeData st2) [])
    as [[[stk m] scc]|] eqn:Pop; [|discriminate].
  inversion H; subst st'. clear H.
  destruct (popScc_spec _ _ _ _ _ _ _ Pop)
    as (popped & Hstk & _ & Hscc & Hm & _).
  destruct M2 as (K & S & C).
  assert (Hnd : forall u, map_get u m <> None <-> nd st2 u <> None).
  { intros u. rewrite Hm. unfold nd.
    destruct (existsb (String.eqb u) (popped ++ [v]) && string_truthy u);
      [|tauto].
    destruct (map_get u (nodeData st2)); simpl; split; congruence. }
  split; [|split]; simpl.
  - intros u Hu. apply K. now apply Hnd.
  - intros w Hw. apply Hnd, S. rewrite Hstk.
    apply in_or_app. right. now right.
  - intros c w Hc Hw. apply in_app_or in Hc. destruct Hc as [Hc|[<-|[]]].
    + destruct (C c w Hc Hw). split; auto. now apply Hnd.
    + rewrite Hscc in Hw. simpl in Hw. apply filter_In in Hw.
      destruct Hw as [Hw Ht]. split.
      * intros ->. discriminate.
      * apply Hnd, S. rewrite Hstk.
        replace (popped ++ v :: stk) with ((popped ++ [v]) ++ stk)
          by (rewrite <- app_assoc; reflexivity).
        apply in_or_app. now left.
Qed.

Lemma runTarjan_members fuel :
  forall ids st st',
    runTarjan fuel graph ids st = Some st' ->
    members_ok graph st -> members_ok graph st'.
Proof.
  induction ids as [|id ids IH]; intros st st' H M; simpl in H.
  - inversion H; now subst.
  - destruct (map_get id (nodeData st)) as [node|]; [|discriminate].
    destruct (nd_index node =? -1)%Z; [|eauto].
    destruct (strongConnect fuel graph id st) as [st1|] eqn:S1;
      [|discriminate].
    eapply IH; eauto. eapply strongConnect_members; eauto.
Qed.

Lemma findSCCs_members (components : list (list NodeId)) :
  findSCCs graph = Some components ->
  forall scc w, In scc components -> In w scc ->
                w <> "" /\ In w (map_keys (nodes graph)).
Proof.
  unfold findSCCs. intros H.
  destruct (runTarjan (List.length (nodes graph)) graph
              (map_keys (nodes graph)) _) as [st|] eqn:R; [|discriminate].
  inversion H; subst components. clear H.
  assert (M0 : members_ok graph
                 {| index := 0; stack := []; nodeData := initNodeData graph;
                    sccs := [] |}).
  { destruct (initNodeData_spec graph) as (_ & B & _).
    split; [|split]; simpl.
    - intros u Hu. now apply B.
    - intros w [].
    - intros scc w []. }
  destruct (runTarjan_members _ _ _ _ R M0) as (K & _ & C).
  intros scc w Hs Hw. destruct (C scc w Hs Hw). split; auto.
Qed.

Lemma order_members (order : list NodeId) :
  modifiedTopologicalSort graph = Some order ->
  forall u, In u order -> u <> "" /\ In u (map_keys (nodes graph)).
Proof.
  intros Ho. unfold modifiedTopologicalSort in Ho.
  destruct (findSCCs graph) as [components|] eqn:Hf; [|discriminate].
  destruct (topologicalSortComponents _) as [corder|]; [|discriminate].
  inversion Ho; subst order. clear Ho.
  intros u Hu. unfold flattenComponents in Hu.
  apply in_flat_map in Hu. destruct Hu as (c & _ & Hu).
  destruct (nth_error components c) as [scc|] eqn:Hc; [|destruct Hu].
  apply (findSCCs_members components Hf scc u); auto.
  eapply nth_error_In; eauto.
Qed.

(** X13: On every graph [modifiedTopologicalSort] returns, and what it returns
    lists only ids of nodes of the graph, none of them the empty string:
    a node whose id is empty is never scheduled. *)
Theorem order_holds_only_nonempty_node_ids :
  exists order,
    modifiedTopologicalSort graph = Some order /\
    (forall u, In u order -> u <> "" /\ In u (map_keys (nodes graph))) /\
    ~ In "" order.
Proof.
  destruct (modifiedTopologicalSort_total graph) as [order Ho].
  exists order. split; [exact Ho|].
  pose proof (order_members order Ho) as H.
  split; [exact H|]. intros Hin. now destruct (H _ Hin).
Qed.

End TarjanMembers.

(** ** Results on the parts of the topology analyzer *)

Section PopLoop.
Context {N : JSNumber}.



End PopLoop.

Section KahnResults.

Lemma pending_zero_iff (cg : NMap (list nat)) result c :
  pending cg result c = 0 <-> predecessors_in cg result c.
Proof.
  split.
  - intros H p succs Hin Hc. eapply pending_zero_pred_emitted; eauto.
  - intros H. destruct (Nat.eq_dec (pending cg result c) 0) as [|Hne]; auto.
    destruct (pending_nonzero_pred cg result c Hne)
      as (p & succs & Hin & Hc & Hn).
    exfalso. apply Hn. eapply H; eauto.
Qed.

(** X11: Kahn's algorithm on any well-formed component graph, cyclic or not:
    it returns; no component is listed twice; a component is listed exactly
    when all the components pointing to it are, and then after them.  When
    every successor is numbered below its predecessor, every component is
    listed. *)
Theorem topologicalSortComponents_lists_after_predecessors
    (cg : NMap (list nat)) :
  cg_wf cg ->
  exists result,
    topologicalSortComponents cg = Some result /\
    NoDup result /\
    (forall c, In c result -> In c (nmap_keys cg)) /\
    (forall c, In c (nmap_keys cg) ->
               (In c result <-> predecessors_in cg result c)) /\
    (forall p succs c,
        In (p, succs) cg -> In c succs -> In c result ->
        before p c result) /\
    (cg_ranked cg -> Permutation result (nmap_keys cg)).
Proof.
  intros R.
  destruct (topologicalSortComponents_total cg R)
    as (result & deg & Hrun & Hinv).
  pose proof Hinv as (_ & _ & Hnd & Hincl & Hq & Hb).
  rewrite app_nil_r in Hnd.
  exists result. split; [exact Hrun|]. split; [exact Hnd|].
  split; [|split; [|split]].
  - intros c Hc. apply Hincl. now rewrite app_nil_r.
  - intros c Hc. specialize (Hq c Hc). rewrite app_nil_r in Hq.
    rewrite Hq. apply pending_zero_iff.
  - exact Hb.
  - intros Hrank. apply NoDup_Permutation; auto.
    + apply (rd_keys R).
    + intros c. split.
      * intros Hc. apply Hincl. now rewrite app_nil_r.
      * apply (kahn_complete cg deg result Hrank Hinv).
Qed.

End KahnResults.

Section ComponentGraph.
Context {N : JSNumber}.

(** X10: The component graph has one entry per component, numbered by position,
    whose successor set, free of repetitions, holds component [s] exactly
    when some edge of the graph leads from a member of the component to a
    member of the different component [s]. *)
Theorem buildComponentGraph_links_components
    (components : list (list NodeId)) (graph : Graph) :
  NoDup (List.concat components) ->
  nmap_keys (buildComponentGraph components graph)
  = seq 0 (List.length components) /\
  cg_wf (buildComponentGraph components graph) /\
  (forall c s,
      (exists succs,
          In (c, succs) (buildComponentGraph components graph) /\
          In s succs) <->
      (c <> s /\
       exists edge a b,
         In edge (edges graph) /\
         nth_error components c = Some a /\ In (fromNodeId edge) a /\
         nth_error components s = Some b /\ In (toNodeId edge) b)).
Proof.
  intros Hnd.
  destruct (buildComponentGraph_spec components graph)
    as (Hk & Hwf & Hsound & Hcomplete).
  split; [exact Hk|]. split; [exact Hwf|].
  intros c s. split.
  - intros (succs & Hin & Hs).
    destruct (Hsound c succs s Hin Hs) as (edge & He & Hc & Hs' & Hne).
    destruct (proj1 (numberComponents_snd components _) c Hc)
      as (a & Ha & Hfrom).
    destruct (proj1 (numberComponents_snd components _) s Hs')
      as (b & Hb & Hto).
    split; auto. exists edge, a, b. auto.
  - intros (Hne & edge & a & b & He & Ha & Hfrom & Hb & Hto).
    apply (Hcomplete edge c s He
             (component_number components _ c a Hnd Ha Hfrom)
             (component_number components _ s b Hnd Hb Hto) Hne).
Qed.

End ComponentGraph.

Section SortResults.
Context {N : JSNumber}.
Variable graph : Graph.
Hypothesis ids_truthy : forall v, In v (map_keys (nodes graph)) -> v <> "".

(** X8: Tarjan's algorithm as written returns the strongly connected
    components of the graph: every node in exactly one component, and two
    nodes in the same component exactly when each reaches the other. *)
Theorem findSCCs_returns_strongly_connected_components :
  exists components,
    findSCCs graph = Some components /\
    NoDup (List.concat components) /\
    (forall u, In u (List.concat components) <->
               In u (map_keys (nodes graph))) /\
    (forall scc x y,
        In scc components -> In x scc ->
        (In y scc <-> reach graph x y /\ reach graph y x)).
Proof.
  destruct (findSCCs_total graph) as [components Hf].
  destruct (findSCCs_correct graph ids_truthy components Hf)
    as (Hnd & Hkeys & _ & _).
  exists components. split; [exact Hf|]. split; [exact Hnd|].
  split; [exact Hkeys|].
  apply (components_strongly_connected graph ids_truthy components Hf).
Qed.

(** X9: The components come out in reverse topological order: whatever a member
    of a component reaches lies in that component or in one returned
    earlier. *)
Theorem findSCCs_returns_successors_first
    (components : list (list NodeId)) (i : nat) (scc : list NodeId)
    (x y : NodeId) :
  findSCCs graph = Some components ->
  nth_error components i = Some scc -> In x scc ->
  reach graph x y ->
  exists j scc',
    j <= i /\ nth_error components j = Some scc' /\ In y scc'.
Proof.
  intros Hf Hi Hx Hr.
  apply (reach_descends graph ids_truthy components Hf x y Hr i scc Hi Hx).
Qed.

Lemma before_antisym {A : Type} (a b : A) (l : list A) :
  NoDup l -> before a b l -> before b a l -> False.
Proof.
  intros Hnd (l1 & l2 & l3 & E1) (m1 & m2 & m3 & E2).
  assert (Ha1 : ~ In a l1).
  { intros Hin. rewrite E1 in Hnd.
    apply (NoDup_app_disjoint l1 (a :: l2 ++ b :: l3) a Hnd Hin). now left. }
  assert (Ha2 : ~ In a (m1 ++ b :: m2)).
  { intros Hin. rewrite E2 in Hnd.
    replace (m1 ++ b :: m2 ++ a :: m3) with ((m1 ++ b :: m2) ++ a :: m3)
      in Hnd by (rewrite <- app_assoc; reflexivity).
    apply (NoDup_app_disjoint (m1 ++ b :: m2) (a :: m3) a Hnd Hin).
    now left. }
  assert (E : l1 ++ a :: (l2 ++ b :: l3) = (m1 ++ b :: m2) ++ a :: m3).
  { rewrite <- E1, E2, <- app_assoc. reflexivity. }
  destruct (split_at_first a _ _ _ _ E Ha1 Ha2) as [El Er].
  rewrite E1 in Hnd.
  apply (NoDup_app_disjoint l1 (a :: l2 ++ b :: l3) b Hnd).
  - rewrite El. apply in_or_app. right. now left.
  - right. apply in_or_app. right. now left.
Qed.

Lemma before_of_segments {A : Type} (p s q : list A) (x y : A) :
  In x p -> In y s -> before x y (p ++ s ++ q).
Proof.
  intros Hx Hy. apply in_split in Hx. destruct Hx as (p1 & p2 & ->).
  apply in_split in Hy. destruct Hy as (s1 & s2 & ->).
  exists p1, (p2 ++ s1), (s2 ++ q).
  repeat (rewrite <- app_assoc; simpl). reflexivity.
Qed.

Lemma before_of_tail {A : Type} (p s q : list A) (x y : A) :
  In x s -> In y q -> before x y (p ++ s ++ q).
Proof.
  intros Hx Hy. apply in_split in Hx. destruct Hx as (s1 & s2 & ->).
  apply in_split in Hy. destruct Hy as (q1 & q2 & ->).
  exists (p ++ s1), (s2 ++ q1), q2.
  repeat (rewrite <- app_assoc; simpl). reflexivity.
Qed.

(** X12: The order of [modifiedTopologicalSort], in terms of the graph alone:
    every node once; an edge whose destination does not reach back to its
    source has the source first; and the nodes of a cycle stand side by
    side: whatever stands between two nodes that reach each other reaches,
    and is reached from, both. *)
Theorem modifiedTopologicalSort_orders_and_groups :
  exists order,
    modifiedTopologicalSort graph = Some order /\
    NoDup order /\
    (forall u, In u order <-> In u (map_keys (nodes graph))) /\
    (forall edge,
        In edge (edges graph) ->
        In (fromNodeId edge) (map_keys (nodes graph)) ->
        In (toNodeId edge) (map_keys (nodes graph)) ->
        ~ reach graph (toNodeId edge) (fromNodeId edge) ->
        before (fromNodeId edge) (toNodeId edge) order) /\
    (forall l1 x l2 z l3 y,
        order = l1 ++ x :: l2 ++ z :: l3 ->
        reach graph x z -> reach graph z x -> In y l2 ->
        reach graph x y /\ reach graph y x).
Proof.
  destruct (modifiedTopologicalSort_correct graph ids_truthy)
    as (components & order & Hf & Ho & Hnd & Hkeys & Hscc & Hcont & Hedges).
  destruct (findSCCs_correct graph ids_truthy components Hf)
    as (_ & Hparts & _ & _).
  exists order. split; [exact Ho|]. split; [exact Hnd|].
  split; [exact Hkeys|]. split.
  - intros edge He Hfrom Hto Hno. apply Hedges; auto.
    intros scc Hin [Hx Hy]. apply Hno.
    apply (proj1 (Hscc scc (toNodeId edge) (fromNodeId edge) Hin Hy)). auto.
  - intros l1 x l2 z l3 y E Hxz Hzx Hy.
    assert (Hxo : In x order)
      by (rewrite E; apply in_or_app; right; now left).
    apply Hkeys, Hparts, in_concat in Hxo.
    destruct Hxo as (scc & Hin & Hx).
    assert (Hz : In z scc) by (apply (Hscc scc x z Hin Hx); auto).
    apply (Hscc scc x y Hin Hx).
    destruct (Hcont scc Hin) as (p & q & Ep).
    assert (Hyo : In y order).
    { rewrite E. apply in_or_app. right. right. apply in_or_app. now left. }
    assert (Bxy : before x y order).
    { apply in_split in Hy. destruct Hy as (a & b & ->).
      exists l1, a, (b ++ z :: l3). rewrite E.
      repeat (rewrite <- app_assoc; simpl). reflexivity. }
    assert (Byz : before y z order).
    { apply in_split in Hy. destruct Hy as (a & b & ->).
      exists (l1 ++ x :: a), b, l3. rewrite E.
      repeat (rewrite <- app_assoc; simpl). reflexivity. }
    rewrite Ep in Hyo. apply in_app_or in Hyo. destruct Hyo as [Hyp|Hyo].
    + exfalso. apply (before_antisym x y order Hnd Bxy).
      rewrite Ep. now apply before_of_segments.
    + apply in_app_or in Hyo. destruct Hyo as [Hys|Hyq]; auto.
      exfalso. apply (before_antisym y z order Hnd Byz).
      rewrite Ep. now apply before_of_tail.
Qed.

End SortResults.

(** ** The engine: strategies that make one pass *)

Section OnePass.
Context {N : JSNumber}.

(** X15: [MultiPassStrategy(1)] and [ConvergenceStrategy(t, 1)] behave as
    [SinglePassStrategy]: on every graph and initial state the three runs
    end alike, with the same result or the same error. *)
Theorem one_pass_strategies_agree (fuel : nat) (graph : Graph)
    (initialState : option (JSMap JSValue)) (threshold : num) :
  execute (MultiPassStrategy 1) fuel tt graph initialState
  = execute SinglePassStrategy fuel tt graph initialState /\
  execute (ConvergenceStrategy threshold 1) fuel None graph initialState
  = execute SinglePassStrategy fuel tt graph initialState.
Proof.
  unfold execute. destruct fuel as [|fuel]; [split; reflexivity|].
  simpl. destruct (modifiedTopologicalSort graph) as [order|];
    [|split; reflexivity].
  unfold MultiPassStrategy_getBackEdgeValues,
    ConvergenceStrategy_getBackEdgeValues,
    SinglePassStrategy_getBackEdgeValues. simpl.
  destruct (executeNodes graph 1 [] order order _) as [ls|e];
    split; reflexivity.
Qed.

End OnePass.

(** ** The state map *)

Section StateMap.
Context {N : JSNumber}.
Variable graph : Graph.
Variable initialState : option (JSMap JSValue).

Let step (sm : JSMap JSValue) (entry : NodeId * NodeDefinition)
  : JSMap JSValue :=
  let '(nodeId, node) := entry in
  match initialState with
  | Some init =>
      match map_get nodeId init with
      | Some v => map_set nodeId v sm
      | None => map_set nodeId (defaultState node) sm
      end
  | None => map_set nodeId (defaultState node) sm
  end.

Lemma initStateMap_fold :
  forall entries sm,
    NoDup (map fst entries) ->
    (forall k, In k (map fst entries) -> map_get k sm = None) ->
    map_keys (fold_left step entries sm) = map_keys sm ++ map fst entries /\
    (forall k,
        map_get k (fold_left step entries sm)
        = match map_get k sm with
          | Some v => Some v
          | None =>
              match map_get k entries with
              | Some node => Some (startState initialState k node)
              | None => None
              end
          end).
Proof.
  induction entries as [|[id node] rest IH]; intros sm Hnd Hfresh.
  - simpl. rewrite app_nil_r. split; auto.
    intros k. destruct (map_get k sm); auto.
  - simpl in Hnd. inversion Hnd as [|? ? Hnot Hrest]; subst.
    assert (Hid : map_get id sm = None) by (apply Hfresh; now left).
    assert (Hstep : step sm (id, node)
                    = map_set id (startState initialState id node) sm).
    { unfold step, startState. destruct initialState as [init|]; auto.
      destruct (map_get id init); auto. }
    cbn [fold_left]. rewrite Hstep.
    destruct (IH (map_set id (startState initialState id node) sm) Hrest)
      as [Hk Hg].
    { intros k Hk. rewrite map_get_set_other; [apply Hfresh; now right|].
      intros ->. contradiction. }
    split.
    + rewrite Hk, map_keys_set. unfold map_has. rewrite Hid.
      rewrite <- app_assoc. reflexivity.
    + intros k. rewrite Hg. simpl.
      destruct (String.eqb id k) eqn:E.
      * apply String.eqb_eq in E. subst k.
        now rewrite map_get_set_same, Hid.
      * apply String.eqb_neq in E. rewrite map_get_set_other by assumption.
        reflexivity.
Qed.

Lemma initStateMap_spec :
  NoDup (map_keys (nodes graph)) ->
  map_keys (initStateMap graph initialState) = map_keys (nodes graph) /\
  (forall nodeId,
      map_get nodeId (initStateMap graph initialState)
      = match map_get nodeId (nodes graph) with
        | Some node => Some (startState initialState nodeId node)
        | None => None
        end).
Proof.
  intros Hnd. unfold initStateMap.
  destruct (initStateMap_fold (nodes graph) [] Hnd (fun _ _ => eq_refl))
    as [Hk Hg].
  split; [exact Hk|]. intros nodeId. rewrite Hg. reflexivity.
Qed.

(** X18: The state map [execute] starts from has one entry per node, in the
    order of the node map: the caller's value when [initialState] has the
    id (even if that value is [undefined]), else the node's own state, with
    [{}] in place of [undefined] or [null]. *)
Theorem initStateMap_prefers_the_callers_state :
  NoDup (map_keys (nodes graph)) ->
  map_keys (initStateMap graph initialState) = map_keys (nodes graph) /\
  (forall nodeId,
      map_get nodeId (initStateMap graph initialState)
      = match map_get nodeId (nodes graph) with
        | Some node => Some (startState initialState nodeId node)
        | None => None
        end).
Proof.
  intros Hnd. destruct (initStateMap_spec Hnd) as [Hk Hg].
  split; [exact Hk|exact Hg].
Qed.

End StateMap.

(** ** What [execute] returns *)

Section Writes.
Context {N : JSNumber}.

Lemma map_has_existsb {V : Type} (k : string) (m : JSMap V) :
  map_has k m = existsb (String.eqb k) (map_keys m).
Proof.
  unfold map_has, map_keys. induction m as [|[k' v'] m IH]; simpl; auto.
  rewrite (String.eqb_sym k k'). destruct (String.eqb k' k); simpl; auto.
Qed.

Lemma apply_writes_keys :
  forall (W : list (NodeId * JSValue)) (m : Results),
    map_keys (apply_writes W m) = add_keys (map fst W) (map_keys m).
Proof.
  induction W as [|[k v] W IH]; intros m; simpl; auto.
  unfold apply_writes in *. simpl. rewrite IH. unfold add_keys. simpl.
  rewrite map_keys_set, map_has_existsb.
  destruct (existsb (String.eqb k) (map_keys m)); reflexivity.
Qed.

Lemma add_keys_In ks :
  forall K k, In k (add_keys ks K) <-> In k K \/ In k ks.
Proof.
  induction ks as [|a ks IH]; intros K k; simpl.
  - unfold add_keys. simpl. tauto.
  - unfold add_keys in *. simpl. rewrite IH.
    destruct (existsb (String.eqb a) K) eqn:E.
    + apply existsb_eqb_mem in E. split; [tauto|].
      intros [H|[<-|H]]; auto.
    + rewrite in_app_iff. simpl. tauto.
Qed.

Lemma add_keys_present ks :
  forall K, (forall k, In k ks -> In k K) -> add_keys ks K = K.
Proof.
  induction ks as [|a ks IH]; intros K H; [reflexivity|].
  unfold add_keys in *. simpl.
  assert (E : existsb (String.eqb a) K = true)
    by (apply existsb_eqb_mem, H; now left).
  rewrite E. apply IH. intros k Hk. apply H. now right.
Qed.

Lemma add_keys_NoDup ks :
  forall K, NoDup K -> NoDup (add_keys ks K).
Proof.
  induction ks as [|a ks IH]; intros K H; [exact H|].
  unfold add_keys in *. simpl.
  destruct (existsb (String.eqb a) K) eqn:E; [now apply IH|].
  apply IH. apply NoDup_app; auto.
  - constructor; [intros []|constructor].
  - intros x Hx [<-|[]]. apply existsb_eqb_mem in Hx. congruence.
Qed.

Lemma apply_writes_other k :
  forall (W : list (NodeId * JSValue)) (m : Results),
    ~ In k (map fst W) -> map_get k (apply_writes W m) = map_get k m.
Proof.
  induction W as [|[k0 v0] W IH]; intros m H; [reflexivity|].
  unfold apply_writes in *. simpl. rewrite IH.
  - apply map_get_set_other. intros ->. apply H. now left.
  - intros Hin. apply H. now right.
Qed.

Lemma apply_writes_written k :
  forall (W : list (NodeId * JSValue)) (m m' : Results),
    In k (map fst W) ->
    map_get k (apply_writes W m) = map_get k (apply_writes W m').
Proof.
  induction W as [|[k0 v0] W IH]; intros m m' H; [destruct H|].
  destruct (in_dec string_dec k (map fst W)) as [Hin|Hout].
  - unfold apply_writes in *. simpl. now apply IH.
  - destruct H as [E|H]; [|contradiction]. simpl in E. subst k0.
    change (apply_writes ((k, v0) :: W) m)
      with (apply_writes W (map_set k v0 m)).
    change (apply_writes ((k, v0) :: W) m')
      with (apply_writes W (map_set k v0 m')).
    rewrite !apply_writes_other by assumption.
    now rewrite !map_get_set_same.
Qed.

Lemma map_ext {V : Type} :
  forall (A B : JSMap V),
    NoDup (map_keys A) -> map_keys A = map_keys B ->
    (forall k, map_get k A = map_get k B) -> A = B.
Proof.
  unfold map_keys.
  induction A as [|[k v] A IH]; intros [|[k' v'] B] Hnd Hk Hg;
    simpl in *; try discriminate; auto.
  inversion Hk; subst k'. inversion Hnd as [|? ? Hnot Hrest]; subst.
  pose proof (Hg k) as Hh. simpl in Hh. rewrite String.eqb_refl in Hh.
  inversion Hh; subst v'. f_equal.
  apply IH; auto. intros x. specialize (Hg x). simpl in Hg.
  destruct (String.eqb k x) eqn:E; auto.
  apply String.eqb_eq in E. subst x.
  assert (HA : map_get k A = None) by (apply map_get_None_iff; exact Hnot).
  assert (HB : map_get k B = None).
  { apply map_get_None_iff. unfold map_keys. now rewrite <- H1. }
  congruence.
Qed.

(** Writing a full round into the results of the round before gives the
    same map as writing it into an empty one. *)
Lemma apply_writes_over (W : list (NodeId * JSValue)) (O : Results) :
  map_keys O = add_keys (map fst W) [] ->
  apply_writes W O = apply_writes W [].
Proof.
  intros HO.
  assert (Hkeys : map_keys (apply_writes W O)
                  = map_keys (apply_writes W [])).
  { rewrite !apply_writes_keys, HO. simpl.
    apply add_keys_present. intros k Hk. apply add_keys_In. now right. }
  apply map_ext; auto.
  - rewrite apply_writes_keys. apply add_keys_NoDup. rewrite HO.
    apply add_keys_NoDup. constructor.
  - intros k. destruct (in_dec string_dec k (map fst W)) as [Hin|Hout].
    + now apply apply_writes_written.
    + rewrite !apply_writes_other by assumption. simpl.
      apply map_get_None_iff. rewrite HO. intros Hk.
      apply add_keys_In in Hk. destruct Hk as [[]|Hk]. contradiction.
Qed.

End Writes.

Section NodeLoopWrites.
Context {N : JSNumber}.
Variable graph : Graph.

Lemma executeNode_writes iteration backEdgeValues order ls nodeId ls' :
  executeNode graph iteration backEdgeValues order ls nodeId = Normal ls' ->
  exists node out,
    map_get nodeId (nodes graph) = Some node /\
    currentResults ls' = map_set nodeId out (currentResults ls) /\
    outputsMap ls' = map_set nodeId out (outputsMap ls) /\
    (stateMap ls' = stateMap ls \/
     exists next, stateMap ls' = map_set nodeId next (stateMap ls)).
Proof.
  unfold executeNode. intros H.
  destruct (map_get nodeId (nodes graph)) as [node|]; [|discriminate].
  destruct (gatherInputs _ _ _ _ _ _) as [inputValues|e]; [|discriminate].
  simpl in H.
  destruct (calculate node inputValues nodeId iteration _)
    as [nodeOutputs nextState].
  inversion H; subst ls'. clear H. simpl.
  exists node, nodeOutputs. repeat split; auto.
  destruct nextState as [next|]; [right; eauto|now left].
Qed.

Lemma executeNodes_writes iteration backEdgeValues order :
  forall todo ls ls',
    executeNodes graph iteration backEdgeValues order todo ls = Normal ls' ->
    exists W,
      map fst W = todo /\
      currentResults ls' = apply_writes W (currentResults ls) /\
      outputsMap ls' = apply_writes W (outputsMap ls).
Proof.
  induction todo as [|nodeId rest IH]; intros ls ls' H; simpl in H.
  - inversion H; subst. exists []. auto.
  - destruct (executeNode graph iteration backEdgeValues order ls nodeId)
      as [ls1|e] eqn:E; [|discriminate]. simpl in H.
    destruct (executeNode_writes _ _ _ _ _ _ E)
      as (node & out & _ & Hc & Ho & _).
    destruct (IH _ _ H) as (W & Hf & Hc' & Ho').
    exists ((nodeId, out) :: W). simpl. split; [now rewrite Hf|].
    unfold apply_writes in *. simpl. rewrite <- Hc, <- Ho. auto.
Qed.

(** The node loop changes the state of the nodes it runs and of no other,
    and adds no entry to the state map. *)
Lemma executeNodes_state iteration backEdgeValues order :
  forall todo ls ls',
    executeNodes graph iteration backEdgeValues order todo ls = Normal ls' ->
    (forall nodeId node, map_get nodeId (nodes graph) = Some node ->
                         In nodeId (map_keys (stateMap ls))) ->
    map_keys (stateMap ls') = map_keys (stateMap ls) /\
    (forall u, ~ In u todo ->
               map_get u (stateMap ls') = map_get u (stateMap ls)).
Proof.
  induction todo as [|nodeId rest IH]; intros ls ls' H Hk; simpl in H.
  - inversion H; subst. auto.
  - destruct (executeNode graph iteration backEdgeValues order ls nodeId)
      as [ls1|e] eqn:E; [|discriminate]. simpl in H.
    destruct (executeNode_writes _ _ _ _ _ _ E)
      as (node & out & Hnode & _ & _ & Hs).
    assert (Hk1 : map_keys (stateMap ls1) = map_keys (stateMap ls)).
    { destruct Hs as [->|[next ->]]; auto.
      rewrite map_keys_set.
      rewrite (proj2 (map_has_true_iff (stateMap ls) nodeId)); eauto. }
    assert (Hg1 : forall u, u <> nodeId ->
                            map_get u (stateMap ls1) = map_get u (stateMap ls)).
    { intros u Hu. destruct Hs as [->|[next ->]]; auto.
      apply map_get_set_other. congruence. }
    destruct (IH _ _ H) as [Hk' Hg'].
    { intros i n Hi. rewrite Hk1. eauto. }
    split; [congruence|].
    intros u Hu. rewrite Hg'; [apply Hg1|]; intros X; apply Hu;
      [left; congruence|now right].
Qed.

End NodeLoopWrites.

Section Iterations.
Context {N : JSNumber}.
Variable strategy : IExecutionStrategy.
Variable graph : Graph.
Variable order : list NodeId.
Variable initialState : option (JSMap JSValue).
Hypothesis Horder : determineExecutionOrder strategy graph = Some order.

Lemma iterationState_next i ls :
  iterationState strategy graph order initialState i = Normal ls ->
  iterationState strategy graph order initialState (S i) =
  executeNodes graph (S i)
    (getBackEdgeValues strategy (S i) (previousOf i ls))
    order order
    {| stateMap := stateMap ls; outputsMap := outputsMap ls;
       currentResults := [] |}.
Proof. intros H. simpl. rewrite H. destruct i; reflexivity. Qed.

(** The loop of [execute], entered after iteration [i], can only return
    the loop state of a later iteration. *)
Lemma executeLoop_unroll :
  forall fuel s i ls r,
    iterationState strategy graph order initialState i = Normal ls ->
    executeLoop strategy fuel graph s i (stateMap ls) (outputsMap ls)
                (previousOf i ls) = Some (Normal r) ->
    i < iterations r /\
    exists ls',
      iterationState strategy graph order initialState (iterations r)
      = Normal ls' /\
      result_state r = stateMap ls' /\
      result_outputs r = outputsMap ls'.
Proof.
  induction fuel as [|fuel IH]; intros s i ls r Hi H; simpl in H;
    [discriminate|].
  rewrite Horder in H.
  pose proof (iterationState_next i ls Hi) as Hnext.
  destruct (executeNodes graph (S i) _ order order _) as [ls1|e] eqn:E;
    [|discriminate].
  destruct (shouldContinue strategy s (S i) (currentResults ls1))
    as [[[|] s']|e]; [| |discriminate].
  - destruct (IH s' (S i) ls1 r Hnext H) as [Hlt Hex]. split; [lia|exact Hex].
  - inversion H; subst r. simpl. split; [lia|]. exists ls1. auto.
Qed.

Lemma iteration_outputs :
  forall k ls,
    iterationState strategy graph order initialState (S k) = Normal ls ->
    outputsMap ls = currentResults ls /\
    map_keys (currentResults ls) = add_keys order [].
Proof.
  induction k as [|k IH]; intros ls H.
  - simpl in H.
    destruct (executeNodes_writes graph _ _ _ _ _ _ H)
      as (W & Hf & Hc & Ho). simpl in Hc, Ho.
    split; [congruence|]. rewrite Hc, apply_writes_keys, Hf. reflexivity.
  - destruct (iterationState strategy graph order initialState (S k))
      as [ls0|e] eqn:E0.
    2:{ simpl in H. simpl in E0. rewrite E0 in H. discriminate. }
    rewrite (iterationState_next (S k) ls0 E0) in H.
    destruct (IH ls0 eq_refl) as [Hout Hkeys].
    destruct (executeNodes_writes graph _ _ _ _ _ _ H)
      as (W & Hf & Hc & Ho). simpl in Hc, Ho.
    split.
    + rewrite Hc, Ho. apply apply_writes_over.
      rewrite Hout, Hkeys, Hf. reflexivity.
    + rewrite Hc, apply_writes_keys, Hf. reflexivity.
Qed.

Lemma iteration_state :
  NoDup (map_keys (nodes graph)) ->
  forall k ls,
    iterationState strategy graph order initialState k = Normal ls ->
    map_keys (stateMap ls) = map_keys (nodes graph) /\
    (forall u, ~ In u order ->
               map_get u (stateMap ls)
               = map_get u (initStateMap graph initialState)).
Proof.
  intros Hnd.
  destruct (initStateMap_spec graph initialState Hnd) as [Hk0 _].
  induction k as [|k IH]; intros ls H.
  - simpl in H. inversion H; subst. simpl. auto.
  - destruct (iterationState strategy graph order initialState k)
      as [ls0|e] eqn:E0.
    2:{ simpl in H. rewrite E0 in H. discriminate. }
    rewrite (iterationState_next k ls0 E0) in H.
    destruct (IH ls0 eq_refl) as [Hk Hg].
    destruct (executeNodes_state graph _ _ _ _ _ _ H) as [Hk' Hg'].
    { simpl. intros i n Hi. rewrite Hk.
      apply (@map_get_In_keys _ (nodes graph) i n Hi). }
    simpl in Hk', Hg'. split; [congruence|].
    intros u Hu. rewrite Hg' by assumption. now apply Hg.
Qed.

End Iterations.

Section ExecuteResult.
Context {N : JSNumber}.

(** X19: Under each of the three strategies of the sources, which order the
    nodes by [modifiedTopologicalSort] in every iteration, a run that
    returns has made at least one iteration and returns the loop state of
    its last one: the state map as that iteration left it, and as [outputs]
    exactly the results map of that iteration. *)
Theorem execute_returns_its_last_iteration (strategy : IExecutionStrategy)
    (fuel : nat) (s0 : strategy_state strategy) (graph : Graph)
    (initialState : option (JSMap JSValue)) (order : list NodeId)
    (r : ExecutionResult) :
  built_in strategy ->
  modifiedTopologicalSort graph = Some order ->
  execute strategy fuel s0 graph initialState = Some (Normal r) ->
  1 <= iterations r /\
  exists ls,
    iterationState strategy graph order initialState (iterations r)
    = Normal ls /\
    result_state r = stateMap ls /\
    result_outputs r = currentResults ls /\
    map_keys (result_outputs r) = add_keys order [].
Proof.
  intros Hb Hsort H.
  assert (Ho : determineExecutionOrder strategy graph = Some order)
    by (destruct Hb; exact Hsort).
  unfold execute in H.
  destruct (executeLoop_unroll strategy graph order initialState Ho
              fuel s0 0 _ r eq_refl H) as (Hlt & ls & Hls & Hs & Hout).
  split; [lia|]. exists ls.
  destruct (iterations r) as [|k] eqn:K; [lia|].
  destruct (iteration_outputs strategy graph order initialState k ls Hls)
    as [Heq Hkeys].
  repeat split; auto; congruence.
Qed.

(** X20: The state map a run returns has one entry per node of the graph, and a
    node the strategy did not schedule still has the state the run started
    it with. *)
Theorem execute_keeps_one_state_per_node (strategy : IExecutionStrategy)
    (fuel : nat) (s0 : strategy_state strategy) (graph : Graph)
    (initialState : option (JSMap JSValue)) (order : list NodeId)
    (r : ExecutionResult) :
  NoDup (map_keys (nodes graph)) ->
  determineExecutionOrder strategy graph = Some order ->
  execute strategy fuel s0 graph initialState = Some (Normal r) ->
  map_keys (result_state r) = map_keys (nodes graph) /\
  (forall nodeId node,
      map_get nodeId (nodes graph) = Some node -> ~ In nodeId order ->
      map_get nodeId (result_state r)
      = Some (startState initialState nodeId node)).
Proof.
  intros Hnd Ho H. unfold execute in H.
  destruct (executeLoop_unroll strategy graph order initialState Ho
              fuel s0 0 _ r eq_refl H) as (_ & ls & Hls & Hs & _).
  destruct (iteration_state strategy graph order initialState Hnd _ _ Hls)
    as [Hk Hg].
  rewrite Hs. split; [exact Hk|].
  intros nodeId node Hnode Hout. rewrite (Hg nodeId Hout).
  destruct (initStateMap_spec graph initialState Hnd) as [_ Hinit].
  now rewrite Hinit, Hnode.
Qed.

End ExecuteResult.

(** ** What a node sees of the other nodes *)

Section ForwardSources.
Context {N : JSNumber}.
Variable graph : Graph.

Lemma executeNodes_app iteration backEdgeValues order :
  forall pre post ls ls',
    executeNodes graph iteration backEdgeValues order (pre ++ post) ls
    = Normal ls' ->
    exists ls1,
      executeNodes graph iteration backEdgeValues order pre ls = Normal ls1 /\
      executeNodes graph iteration backEdgeValues order post ls1 = Normal ls'.
Proof.
  induction pre as [|n pre IH]; intros post ls ls' H; simpl in *.
  - exists ls. auto.
  - destruct (executeNode graph iteration backEdgeValues order ls n)
      as [ls0|e]; [|discriminate]. simpl in *. now apply IH.
Qed.

(** X21: When the node loop reaches a node, the results map holds an entry for
    exactly the nodes run before it in this iteration, and each of these
    entries is the one the iteration ends with: a forward edge reads the
    source's output of the same iteration, a self-loop and an edge from a
    later node find no entry. *)
Theorem node_sees_outputs_of_earlier_nodes (iteration : nat)
    (backEdgeValues : JSMap num) (order pre post : list NodeId)
    (nodeId : NodeId) (ls0 ls' : LoopState) :
  NoDup (pre ++ nodeId :: post) ->
  currentResults ls0 = [] ->
  executeNodes graph iteration backEdgeValues order (pre ++ nodeId :: post)
               ls0 = Normal ls' ->
  exists ls1,
    executeNodes graph iteration backEdgeValues order pre ls0 = Normal ls1 /\
    executeNodes graph iteration backEdgeValues order (nodeId :: post) ls1
    = Normal ls' /\
    forall src,
      (In src pre ->
       exists out,
         map_get src (currentResults ls1) = Some out /\
         map_get src (currentResults ls') = Some out) /\
      (~ In src pre -> map_get src (currentResults ls1) = None).
Proof.
  intros Hnd H0 H.
  destruct (executeNodes_app _ _ _ _ _ _ _ H) as (ls1 & H1 & H2).
  exists ls1. split; [exact H1|]. split; [exact H2|].
  destruct (executeNodes_writes graph _ _ _ _ _ _ H1) as (W1 & Hf1 & Hc1 & _).
  destruct (executeNodes_writes graph _ _ _ _ _ _ H2) as (W2 & Hf2 & Hc2 & _).
  rewrite H0 in Hc1.
  assert (Hkeys : forall src, In src (map_keys (currentResults ls1))
                              <-> In src pre).
  { intros src. rewrite Hc1, apply_writes_keys, Hf1, add_keys_In.
    simpl. tauto. }
  intros src. split.
  - intros Hin.
    destruct (map_get src (currentResults ls1)) as [out|] eqn:G.
    + exists out. split; auto. rewrite Hc2, apply_writes_other; auto.
      rewrite Hf2. intros Hlater.
      apply (NoDup_app_disjoint pre (nodeId :: post) src Hnd Hin Hlater).
    + apply map_get_None_iff in G. exfalso. apply G. now apply Hkeys.
  - intros Hout. apply map_get_None_iff. intros Hk. apply Hout.
    now apply Hkeys.
Qed.

End ForwardSources.

Section NoBackEdge.
Context {N : JSNumber}.

Lemma indexOf_from_nth x :
  forall order i s,
    NoDup order -> nth_error order i = Some x ->
    indexOf_from order x s = (s + Z.of_nat i)%Z.
Proof.
  induction order as [|y rest IH]; intros i s Hnd Hi.
  - destruct i; discriminate.
  - inversion Hnd as [|? ? Hnot Hrest]; subst. destruct i as [|i]; simpl in *.
    + inversion Hi; subst. rewrite String.eqb_refl. lia.
    + destruct (String.eqb y x) eqn:E.
      * apply String.eqb_eq in E. subst y. exfalso. apply Hnot.
        eapply nth_error_In; eauto.
      * rewrite (IH i (s + 1)%Z Hrest Hi). lia.
Qed.

Variable graph : Graph.
Hypothesis ids_truthy : forall v, In v (map_keys (nodes graph)) -> v <> "".

(** X14: On an acyclic graph whose edges join nodes of the graph the engine
    meets no back edge: in the computed order the source of every edge has
    a smaller index than its destination, so the test
    [sourceNodeIndex > currentNodeIndex] fails for every edge. *)
Theorem acyclic_graph_has_no_back_edge :
  acyclic graph ->
  (forall edge, In edge (edges graph) ->
                In (fromNodeId edge) (map_keys (nodes graph)) /\
                In (toNodeId edge) (map_keys (nodes graph))) ->
  exists order,
    modifiedTopologicalSort graph = Some order /\
    forall edge,
      In edge (edges graph) ->
      (0 <= indexOf order (fromNodeId edge)
       < indexOf order (toNodeId edge))%Z /\
      (indexOf order (fromNodeId edge) >? indexOf order (toNodeId edge))%Z
      = false.
Proof.
  intros Hacyc Hclosed.
  destruct (modifiedTopologicalSort_acyclic graph ids_truthy Hacyc Hclosed)
    as (order & Ho & Hnd & _ & Htopo).
  exists order. split; [exact Ho|]. intros edge He.
  destruct (Htopo edge He) as (i & j & Hi & Hj & Hlt).
  unfold indexOf.
  rewrite (indexOf_from_nth _ order i 0%Z Hnd Hi),
    (indexOf_from_nth _ order j 0%Z Hnd Hj).
  split; [lia|]. rewrite Z.gtb_ltb. apply Z.ltb_ge. lia.
Qed.

End NoBackEdge.

(** ** The convergence test *)

Section ConvergenceTest.
Context {N : JSNumber}.

Lemma fieldsConverged_inv threshold previousOutputs :
  forall entries,
    fieldsConverged threshold entries previousOutputs = true ->
    forall portId currentValue,
      In (portId, VNum currentValue) entries ->
      exists previousValue,
        js_get_number previousOutputs portId = Some previousValue /\
        num_geb (num_abs (num_sub currentValue previousValue)) threshold
        = false.
Proof.
  induction entries as [|[p value] rest IH]; intros H portId cv Hin;
    [destruct Hin|].
  destruct value as [| |b|n|s|fields]; simpl in H;
    try (destruct Hin as [E|Hin]; [discriminate E|eauto]).
  destruct (js_get_number previousOutputs p) as [pv|] eqn:G; [|discriminate].
  destruct (num_geb (num_abs (num_sub n pv)) threshold) eqn:C;
    [discriminate|].
  destruct Hin as [E|Hin]; [|eauto].
  inversion E; subst. eauto.
Qed.

Lemma nodesConverged_inv threshold previous :
  forall entries,
    nodesConverged threshold previous entries = Normal true ->
    forall nodeId currentOutputs,
      In (nodeId, currentOutputs) entries ->
      exists previousFields currentFields,
        map_get nodeId previous = Some (VObj previousFields) /\
        currentOutputs = VObj currentFields /\
        forall portId currentValue,
          In (portId, VNum currentValue) currentFields ->
          exists previousValue,
            js_get_number (VObj previousFields) portId = Some previousValue
            /\ num_geb (num_abs (num_sub currentValue previousValue))
                       threshold = false.
Proof.
  induction entries as [|[id cur] rest IH]; intros H nodeId co Hin;
    [destruct Hin|].
  simpl in H.
  destruct (map_get id previous) as [prev|] eqn:G; [|discriminate].
  destruct (js_truthy prev) eqn:T; simpl in H; [|discriminate].
  destruct (js_typeof_object cur && js_typeof_object prev) eqn:O;
    [|discriminate].
  apply andb_prop in O. destruct O as [Oc Op].
  destruct cur as [| |b|n|s|cf]; try discriminate.
  destruct (fieldsConverged threshold cf prev) eqn:F; [|discriminate].
  destruct prev as [| |b|n|s|pf]; try discriminate.
  destruct Hin as [E|Hin]; [|eauto].
  inversion E; subst. exists pf, cf. repeat split; auto.
  now apply fieldsConverged_inv.
Qed.

(** X23: [checkConvergence] answers [true] exactly when the two result maps have
    the same size and every node of the current one returned an object both
    times whose numeric fields each have a numeric counterpart less than
    [threshold] away. *)
Theorem checkConvergence_true_iff_stabilized (threshold : num)
    (previous current : Results) :
  checkConvergence threshold previous current = Normal true <->
  stabilized threshold previous current.
Proof.
  split; [|apply stabilized_converged].
  unfold checkConvergence, stabilized. intros H.
  destruct (nodesConverged threshold previous current) as [[|]|e] eqn:C;
    simpl in H; try discriminate.
  destruct (map_size previous =? map_size current) eqn:S; simpl in H;
    [|discriminate].
  apply Nat.eqb_eq in S. split; [exact S|].
  now apply nodesConverged_inv.
Qed.

Lemma nodesConverged_throw threshold previous :
  forall entries e,
    nodesConverged threshold previous entries = Throw e ->
    e = TypeErrorNullToObject /\
    exists nodeId previousFields,
      In (nodeId, VNull) entries /\
      map_get nodeId previous = Some (VObj previousFields).
Proof.
  induction entries as [|[id cur] rest IH]; intros e H; simpl in H;
    [discriminate|].
  destruct (map_get id previous) as [prev|] eqn:G; [|discriminate].
  destruct (js_truthy prev) eqn:T; simpl in H; [|discriminate].
  destruct (js_typeof_object cur && js_typeof_object prev) eqn:O;
    [|discriminate].
  apply andb_prop in O. destruct O as [Oc Op].
  destruct prev as [| |b|n|s|pf]; try discriminate.
  destruct cur as [| |b|n|s|cf]; try discriminate.
  - inversion H; subst. split; auto. exists id, pf. split; auto. now left.
  - destruct (fieldsConverged threshold cf (VObj pf)); [|discriminate].
    destruct (IH e H) as (He & n & f & Hin & Hg).
    split; auto. exists n, f. split; auto. now right.
Qed.

(** X24: The only error of [checkConvergence]: [Object.entries(null)], thrown
    when a node that returned an object in the previous iteration returns
    [null] in the current one. *)
Theorem checkConvergence_throws_only_on_null (threshold : num)
    (previous current : Results) (e : JSError) :
  checkConvergence threshold previous current = Throw e ->
  e = TypeErrorNullToObject /\
  exists nodeId previousFields,
    In (nodeId, VNull) current /\
    map_get nodeId previous = Some (VObj previousFields).
Proof.
  unfold checkConvergence. intros H.
  destruct (nodesConverged threshold previous current) as [b|e'] eqn:C;
    simpl in H.
  - destruct (negb b); [discriminate|].
    destruct (negb (map_size previous =? map_size current)); discriminate.
  - inversion H; subst e'. now apply (nodesConverged_throw _ _ _ _ C).
Qed.

End ConvergenceTest.

(** ** The value an edge carries *)

Section EdgeValue.
Context {N : JSNumber}.

Lemma scanResults_value (previous : Results) key v :
  collision_free previous -> numeric_field previous key v ->
  map_get key (scanResults previous) = Some v.
Proof.
  intros Hfree Hnum.
  destruct (scanResults_bound Hnum) as [v' Hv'].
  pose proof (scanResults_sound _ _ Hv') as Hnum'.
  now rewrite (Hfree key v v' Hnum Hnum').
Qed.

(** X22: A forward edge reads the source's output of this iteration under the
    NAME of the source port; a back edge, from iteration 2 on and under
    either iterating strategy, carries the numeric field of the source's
    previous output whose key is the ID of the source port (when no other
    node and field spell the same key). *)
Theorem edge_reads_by_port_name_or_port_id (graph : Graph)
    (currentOutputs previous : Results) (backEdgeValues : JSMap num)
    (maxIterations iteration : nat) (threshold : num) (idx srcIdx : Z)
    (edge : Edge) :
  (forall sourceOutputs sourceNode outputPort,
      (srcIdx <= idx)%Z ->
      map_get (fromNodeId edge) currentOutputs = Some (VObj sourceOutputs) ->
      map_get (fromNodeId edge) (nodes graph) = Some sourceNode ->
      findPort (outputs sourceNode) (fromPortId edge) = Some outputPort ->
      resolveEdge graph currentOutputs backEdgeValues idx srcIdx edge
      = or_zero (js_get_number (VObj sourceOutputs) (port_name outputPort)))
  /\
  (forall fields v,
      (idx < srcIdx)%Z -> 2 <= iteration ->
      collision_free previous ->
      In (fromNodeId edge, VObj fields) previous ->
      In (fromPortId edge, VNum v) fields ->
      resolveEdge graph currentOutputs
        (getBackEdgeValues (MultiPassStrategy maxIterations) iteration
                           (Some previous))
        idx srcIdx edge = v /\
      resolveEdge graph currentOutputs
        (getBackEdgeValues (ConvergenceStrategy threshold maxIterations)
                           iteration (Some previous))
        idx srcIdx edge = v).
Proof.
  split.
  - intros so sn op Hle Hcur Hnode Hport. unfold resolveEdge.
    destruct (srcIdx >? idx)%Z eqn:E; [apply Z.gtb_lt in E; lia|].
    rewrite Hcur. simpl. rewrite Hnode, Hport.
    destruct (match map_get (port_name op) so with
              | Some (VNum n) => Some n
              | _ => None
              end); reflexivity.
  - intros fields v Hlt Hit Hfree Hnode Hfield.
    assert (Hnum : numeric_field previous (backEdgeKey edge) v).
    { exists (fromNodeId edge), fields, (fromPortId edge). auto. }
    pose proof (scanResults_value previous _ _ Hfree Hnum) as Hget.
    assert (Hback : (srcIdx >? idx)%Z = true) by (apply Z.gtb_lt; lia).
    simpl. unfold MultiPassStrategy_getBackEdgeValues,
      ConvergenceStrategy_getBackEdgeValues, resolveEdge.
    rewrite Hback.
    destruct (iteration =? 1) eqn:E1; [apply Nat.eqb_eq in E1; lia|].
    now rewrite Hget.
Qed.

End EdgeValue.

(** ** The errors of a run *)

Section RunErrors.
Context {N : JSNumber}.
Variable graph : Graph.

Lemma executeLoop_multipass_throw n order e :
  modifiedTopologicalSort graph = Some order ->
  forall fuel iteration sm outs prev,
    executeLoop (MultiPassStrategy n) fuel graph tt iteration sm outs prev
    = Some (Throw e) ->
    names_missing_id graph order e.
Proof.
  intros Ho. induction fuel as [|fuel IH]; intros iteration sm outs prev H;
    simpl in H; [discriminate|].
  rewrite Ho in H.
  destruct (executeNodes graph (S iteration) _ order order _)
    as [ls|e'] eqn:E.
  - unfold MultiPassStrategy_shouldContinue in H.
    destruct (S iteration <? n); [eauto|discriminate].
  - inversion H; subst e'.
    apply (executeNodes_throw graph (S iteration) _ _ (incl_refl order) E).
Qed.

(** X17: Under [MultiPassStrategy] (and so in a single pass) a run can only
    fail on an edge whose source is not scheduled, with the error naming
    that source; the other errors of the engine cannot occur, since the
    order the strategy computes holds nodes of the graph only.  On a graph
    without empty id, the source named is no node of the graph. *)
Theorem multipass_fails_only_on_unscheduled_source (n fuel : nat)
    (initialState : option (JSMap JSValue)) (e : JSError) :
  execute (MultiPassStrategy n) fuel tt graph initialState
  = Some (Throw e) ->
  exists order edge,
    modifiedTopologicalSort graph = Some order /\
    In edge (edges graph) /\
    e = SourceNotInOrder (fromNodeId edge) /\
    ~ In (fromNodeId edge) order /\
    ((forall v, In v (map_keys (nodes graph)) -> v <> "") ->
     map_get (fromNodeId edge) (nodes graph) = None).
Proof.
  intros H. destruct (modifiedTopologicalSort_total graph) as [order Ho].
  unfold execute in H.
  pose proof (executeLoop_multipass_throw n order e Ho _ _ _ _ _ H) as M.
  destruct e as [i|i|i|i|msg|]; simpl in M; try contradiction.
  - exfalso. destruct M as [Hin Hnone].
    destruct (order_members graph order Ho i Hin) as [_ Hk].
    apply map_get_None_iff in Hnone. contradiction.
  - destruct M as [(edge & He & <-) Hnot].
    exists order, edge. repeat split; auto.
    intros ids_truthy.
    destruct (modifiedTopologicalSort_correct graph ids_truthy)
      as (components & order' & _ & Ho' & _ & Hkeys & _).
    rewrite Ho in Ho'. inversion Ho'; subst order'.
    apply map_get_None_iff. intros Hk. apply Hnot. now apply Hkeys.
Qed.

End RunErrors.

(** ** Input names that [Object.prototype] defines *)

Section PrototypeNames.
Context {N : JSNumber}.

(** X25: The input record starts as a plain object, so a name that
    [Object.prototype] defines never holds the sum: under [__proto__] the
    record has no entry however many edges are delivered, and under any
    other such name with at least one edge delivered it holds a text, that
    of the inherited member followed by those of the resolved values in
    edge order. *)
Theorem gatherInputs_prototype_names (nodeId : NodeId)
    (node : NodeDefinition) (graph : Graph) (currentOutputs : Results)
    (backEdgeValues : JSMap num) (executionOrder : list NodeId)
    (inputValues : InputRecord) (name : string) :
  gatherInputs nodeId node graph currentOutputs backEdgeValues executionOrder
  = Normal inputValues ->
  on_prototype name = true ->
  (name = "__proto__" -> map_get name inputValues = None) /\
  (name <> "__proto__" ->
   1 <= List.length (feedingEdges graph nodeId node name) ->
   map_get name inputValues =
   Some (InText name
           (map (fun edge =>
                   resolveEdge graph currentOutputs backEdgeValues
                     (indexOf executionOrder nodeId)
                     (indexOf executionOrder (fromNodeId edge)) edge)
                (feedingEdges graph nodeId node name)))).
Proof.
  unfold gatherInputs. intros H Hname.
  destruct (indexOf executionOrder nodeId =? -1)%Z; [discriminate|].
  pose proof (gatherLoop_entry _ _ _ _ _ _ name _ _ H) as E.
  fold (feedingEdges graph nodeId node name) in E. cbn [map_get] in E.
  split.
  - intros Hp. rewrite E. apply added_accessor.
    subst name. reflexivity.
  - intros Hp Hk. rewrite E.
    destruct (feedingEdges graph nodeId node name) as [|edge fed];
      [simpl in Hk; lia|].
    pose proof (@proto_accessor_false name Hp) as Ha.
    cbn [map fold_left]. unfold added at 2. rewrite Ha, Hname.
    rewrite added_texts by exact Ha. reflexivity.
Qed.

End PrototypeNames.

(** ** The results above at the graphs of the tests *)

Section MoreRuns.
#[local] Existing Instance ZNumber.

Lemma validateGraph_error_is_genuine_witness :
  validateGraph dangling_target_graph = Invalid (MissingToNode "e1" "Z") /\
  describes dangling_target_graph (MissingToNode "e1" "Z").
Proof.
  split; [reflexivity|].
  exact (proj1 (validateGraph_error_is_genuine dangling_target_graph
                  (MissingToNode "e1" "Z") eq_refl)).
Defined.

Lemma validateGraph_after_addNode_witness :
  validateGraph graph_A = Valid tt /\
  nodes {| nodes := [("A", constantNode "A" 1); ("B", constantNode "B" 2)];
           edges := [] |}
  = nodes graph_A ++ [("B", constantNode "B" 2)].
Proof.
  split; [reflexivity|].
  exact (proj1 (validateGraph_after_addNode graph_A
                  {| nodes := [("A", constantNode "A" 1);
                               ("B", constantNode "B" 2)];
                     edges := [] |}
                  (constantNode "B" 2) eq_refl eq_refl)).
Defined.

Lemma validated_graph_runs_to_completion_witness :
  validateGraph fan_in_graph = Valid tt /\
  exists order r,
    modifiedTopologicalSort fan_in_graph = Some order /\
    consistent fan_in_graph order /\
    execute (MultiPassStrategy 2) 2 tt fan_in_graph None
    = Some (Normal r) /\
    iterations r = 2.
Proof.
  split; [reflexivity|].
  apply (validated_graph_runs_to_completion fan_in_graph).
  - simpl. intros v [<-|[<-|[<-|[]]]]; discriminate.
  - reflexivity.
  - lia.
Defined.

Lemma addEdge_appends_and_shares_nodes_witness :
  deref heap_A graph_A_ref = Some graph_A /\
  nodes_ref (snd (addEdge heap_A graph_A_ref (deltaEdge "e1" "A" "A")))
  = nodes_ref graph_A_ref /\
  deref (fst (addEdge heap_A graph_A_ref (deltaEdge "e1" "A" "A")))
        graph_A_ref
  = Some graph_A.
Proof.
  split; [reflexivity|].
  destruct (addEdge_appends_and_shares_nodes heap_A graph_A_ref
              (deltaEdge "e1" "A" "A") graph_A eq_refl)
    as (_ & Hsame & Hshare & _).
  split; [exact Hshare|exact Hsame].
Defined.


Lemma topologicalSortComponents_lists_after_predecessors_witness :
  exists result,
    topologicalSortComponents [(0, []); (1, [0])] = Some result /\
    NoDup result /\
    (forall c, In c result -> In c (nmap_keys [(0, @nil nat); (1, [0])])).
Proof.
  destruct (topologicalSortComponents_lists_after_predecessors
              [(0, []); (1, [0])]) as (result & Hrun & Hnd & Hin & _).
  - constructor.
    + simpl. repeat constructor; simpl; intuition discriminate.
    + intros c succs [E|[E|[]]]; inversion E; subst;
        repeat constructor; simpl; intuition.
    + intros c succs s [E|[E|[]]] Hs; inversion E; subst; simpl in *;
        intuition.
  - exists result. auto.
Defined.

Lemma buildComponentGraph_links_components_witness :
  nmap_keys (buildComponentGraph [["C"; "B"; "A"]; ["INPUT"]] cycle_graph)
  = seq 0 2 /\
  cg_wf (buildComponentGraph [["C"; "B"; "A"]; ["INPUT"]] cycle_graph).
Proof.
  destruct (buildComponentGraph_links_components
              [["C"; "B"; "A"]; ["INPUT"]] cycle_graph)
    as (Hk & Hwf & _).
  - simpl. repeat constructor; simpl; intuition discriminate.
  - split; assumption.
Defined.

Lemma cycle_graph_ids_truthy :
  forall v, In v (map_keys (nodes cycle_graph)) -> v <> "".
Proof. simpl. intros v [<-|[<-|[<-|[<-|[]]]]]; discriminate. Qed.

Lemma fan_in_graph_ids_truthy :
  forall v, In v (map_keys (nodes fan_in_graph)) -> v <> "".
Proof. simpl. intros v [<-|[<-|[<-|[]]]]; discriminate. Qed.

Lemma findSCCs_returns_strongly_connected_components_witness :
  exists components,
    findSCCs cycle_graph = Some components /\
    NoDup (List.concat components) /\
    (forall u, In u (List.concat components) <->
               In u (map_keys (nodes cycle_graph))).
Proof.
  destruct (findSCCs_returns_strongly_connected_components cycle_graph
              cycle_graph_ids_truthy) as (components & Hf & Hnd & Hk & _).
  exists components. auto.
Defined.

Lemma findSCCs_returns_successors_first_witness :
  findSCCs cycle_graph = Some [["C"; "B"; "A"]; ["INPUT"]] /\
  exists j scc',
    j <= 1 /\
    nth_error [["C"; "B"; "A"]; ["INPUT"]] j = Some scc' /\ In "A" scc'.
Proof.
  split; [reflexivity|].
  apply (findSCCs_returns_successors_first cycle_graph cycle_graph_ids_truthy
           [["C"; "B"; "A"]; ["INPUT"]] 1 ["INPUT"] "INPUT" "A").
  - reflexivity.
  - reflexivity.
  - now left.
  - apply rt_step. split; [|split].
    + exists (deltaEdge "e0" "INPUT" "A"). simpl. auto.
    + simpl. auto.
    + simpl. auto.
Defined.

Lemma modifiedTopologicalSort_orders_and_groups_witness :
  exists order,
    modifiedTopologicalSort cycle_graph = Some order /\
    NoDup order /\
    (forall u, In u order <-> In u (map_keys (nodes cycle_graph))).
Proof.
  destruct (modifiedTopologicalSort_orders_and_groups cycle_graph
              cycle_graph_ids_truthy) as (order & Ho & Hnd & Hk & _).
  exists order. auto.
Defined.

Let five : JSValue := @VObj ZNumber [("value", @VNum ZNumber 5%Z)].

Lemma initStateMap_prefers_the_callers_state_witness :
  map_keys (initStateMap fan_in_graph (Some [("T", five)]))
  = map_keys (nodes fan_in_graph) /\
  map_get "T" (initStateMap fan_in_graph (Some [("T", five)])) = Some five.
Proof.
  destruct (initStateMap_prefers_the_callers_state fan_in_graph
              (Some [("T", five)])) as [Hk Hg].
  - simpl. repeat constructor; simpl; intuition discriminate.
  - split; [exact Hk|]. rewrite Hg. reflexivity.
Defined.

Lemma execute_returns_its_last_iteration_witness :
  modifiedTopologicalSort graph_A = Some ["A"] /\
  exists r,
    execute (MultiPassStrategy 2) 2 tt graph_A None = Some (Normal r) /\
    1 <= iterations r /\
    exists ls,
      iterationState (MultiPassStrategy 2) graph_A ["A"] None (iterations r)
      = Normal ls /\
      result_outputs r = currentResults ls.
Proof.
  split; [reflexivity|].
  eexists. split; [reflexivity|].
  lazymatch goal with
  | |- 1 <= iterations ?r /\ _ =>
      destruct (execute_returns_its_last_iteration (MultiPassStrategy 2) 2 tt
                  graph_A None ["A"] r (built_in_multi 2) eq_refl eq_refl)
        as (Hit & ls & Hls & _ & Hout & _)
  end.
  split; [exact Hit|]. exists ls. split; [exact Hls|exact Hout].
Defined.

Lemma execute_keeps_one_state_per_node_witness :
  exists r,
    execute SinglePassStrategy 1 tt empty_id_chain None = Some (Normal r) /\
    map_keys (result_state r) = map_keys (nodes empty_id_chain) /\
    map_get "" (result_state r)
    = Some (startState None "" (accumulatorNode "" 0)).
Proof.
  eexists. split; [reflexivity|].
  lazymatch goal with
  | |- map_keys (result_state ?r) = _ /\ _ =>
      destruct (execute_keeps_one_state_per_node SinglePassStrategy 1 tt
                  empty_id_chain None ["A"] r) as [Hk Hg]
  end.
  - simpl. repeat constructor; simpl; intuition discriminate.
  - reflexivity.
  - reflexivity.
  - split; [exact Hk|]. apply Hg; [reflexivity|].
    simpl. intuition discriminate.
Defined.

Lemma node_sees_outputs_of_earlier_nodes_witness :
  exists ls' ls1,
    executeNodes fan_in_graph 1 [] ["S1"; "S2"; "T"] ["S1"; "S2"; "T"]
      {| stateMap := initStateMap fan_in_graph None; outputsMap := [];
         currentResults := [] |} = Normal ls' /\
    executeNodes fan_in_graph 1 [] ["S1"; "S2"; "T"] ["S1"; "S2"]
      {| stateMap := initStateMap fan_in_graph None; outputsMap := [];
         currentResults := [] |} = Normal ls1 /\
    map_get "T" (currentResults ls1) = None.
Proof.
  destruct (executeNodes fan_in_graph 1 [] ["S1"; "S2"; "T"]
              ["S1"; "S2"; "T"]
              {| stateMap := initStateMap fan_in_graph None; outputsMap := [];
                 currentResults := [] |}) as [ls'|e] eqn:Run;
    [|discriminate Run].
  exists ls'.
  destruct (node_sees_outputs_of_earlier_nodes fan_in_graph 1 []
              ["S1"; "S2"; "T"] ["S1"; "S2"] [] "T"
              {| stateMap := initStateMap fan_in_graph None; outputsMap := [];
                 currentResults := [] |} ls')
    as (ls1 & H1 & _ & Hsrc).
  - simpl. repeat constructor; simpl; intuition discriminate.
  - reflexivity.
  - exact Run.
  - exists ls1. split; [reflexivity|]. split; [exact H1|].
    apply (proj2 (Hsrc "T")). simpl. intuition discriminate.
Defined.

Lemma acyclic_graph_has_no_back_edge_witness :
  exists order,
    modifiedTopologicalSort fan_in_graph = Some order /\
    (0 <= indexOf order "S1" < indexOf order "T")%Z.
Proof.
  destruct (acyclic_graph_has_no_back_edge fan_in_graph
              fan_in_graph_ids_truthy) as (order & Ho & Hedges).
  - apply acyclic_by_rank
      with (rank := fun x => if String.eqb x "T" then 1 else 0).
    intros edge [<-|[<-|[]]]; simpl; lia.
  - intros edge [<-|[<-|[]]]; simpl; auto 6.
  - exists order. split; [exact Ho|].
    apply (proj1 (Hedges (deltaEdge "e1" "S1" "T") (or_introl eq_refl))).
Defined.

Let empty_object : Results := [("A", @VObj ZNumber [])].
Let null_output : Results := [("A", @VNull ZNumber)].

Lemma checkConvergence_throws_only_on_null_witness :
  @checkConvergence ZNumber 1%Z empty_object null_output
  = Throw TypeErrorNullToObject /\
  exists nodeId previousFields,
    In (nodeId, VNull) null_output /\
    map_get nodeId empty_object = Some (VObj previousFields).
Proof.
  split; [reflexivity|].
  exact (proj2 (@checkConvergence_throws_only_on_null ZNumber 1%Z
                  empty_object null_output TypeErrorNullToObject eq_refl)).
Defined.

Let four : list (string * JSValue) := [("delta", @VNum ZNumber 4%Z)].

Lemma edge_reads_by_port_name_or_port_id_witness :
  resolveEdge cycle_graph []
    (getBackEdgeValues (MultiPassStrategy 3) 2 (Some [("C", VObj four)]))
    0 1 (deltaEdge "e3" "C" "A") = 4%Z.
Proof.
  apply (proj2 (@edge_reads_by_port_name_or_port_id ZNumber cycle_graph []
                  [("C", VObj four)] [] 3 2 0%Z 0%Z 1%Z
                  (deltaEdge "e3" "C" "A"))
               four 4%Z).
  - lia.
  - lia.
  - intros key v v' (n1 & f1 & k1 & Hn1 & Hf1 & ->) (n2 & f2 & k2 & Hn2 & Hf2 & E).
    destruct Hn1 as [E1|[]]. destruct Hn2 as [E2|[]].
    inversion E1; subst. inversion E2; subst.
    destruct Hf1 as [F1|[]]. destruct Hf2 as [F2|[]].
    inversion F1; subst. inversion F2; subst. reflexivity.
  - now left.
  - now left.
Defined.

Lemma multipass_fails_only_on_unscheduled_source_witness :
  execute (MultiPassStrategy 2) 2 tt dangling_source_graph None
  = Some (Throw (SourceNotInOrder "X")) /\
  exists order edge,
    modifiedTopologicalSort dangling_source_graph = Some order /\
    In edge (edges dangling_source_graph) /\
    SourceNotInOrder "X" = SourceNotInOrder (fromNodeId edge) /\
    ~ In (fromNodeId edge) order.
Proof.
  split; [reflexivity|].
  destruct (multipass_fails_only_on_unscheduled_source dangling_source_graph
              2 2 None (SourceNotInOrder "X") eq_refl)
    as (order & edge & Ho & He & Hname & Hnot & _).
  exists order, edge. auto.
Defined.

Lemma gatherInputs_prototype_names_witness :
  gatherInputs "T" (namedPortNode "T" "toString")
               (named_port_graph "toString") fan_in_outputs []
               ["S1"; "S2"; "T"]
  = Normal [("toString", InText "toString" [2%Z; 3%Z])] /\
  on_prototype "toString" = true /\
  "toString" <> "__proto__" /\
  map_get "toString" [("toString", InText "toString" [2%Z; 3%Z])]
  = Some (InText "toString"
            (map (fun edge =>
                    resolveEdge (named_port_graph "toString") fan_in_outputs
                      [] (indexOf ["S1"; "S2"; "T"] "T")
                      (indexOf ["S1"; "S2"; "T"] (fromNodeId edge)) edge)
                 (feedingEdges (named_port_graph "toString") "T"
                               (namedPortNode "T" "toString") "toString"))).
Proof.
  assert (Hname : "toString" <> "__proto__") by discriminate.
  split; [reflexivity|]. split; [reflexivity|]. split; [exact Hname|].
  apply (proj2 (@gatherInputs_prototype_names ZNumber "T"
                  (namedPortNode "T" "toString")
                  (named_port_graph "toString") fan_in_outputs []
                  ["S1"; "S2"; "T"]
                  [("toString", @InText ZNumber "toString" [2%Z; 3%Z])]
                  "toString" eq_refl eq_refl) Hname).
  simpl. lia.
Defined.

End MoreRuns.
